(** * The OneBot protocol client of Adachi-BOT

    A shallow embedding of [src/modules/lib/core/base-client.ts] (class
    [BaseClient]) and of the [EventEmitter] class it extends: the subscriber
    registry, the request/response correlation table with its timeouts, and
    the dispatcher of inbound frames.

    Conventions of the embedding.
    - The client object is a record [Client]; every method is a state
      transformer [Client -> Client] (a command), or returns a pair when the
      method has a result; what a method throws is the left side of a sum.
    - A JS [Map] is a [gmap]; a JS array is a [list]; a JS [number] that the
      code uses as an integer is a [Z].
    - Listeners registered by collaborators are opaque callbacks: a listener
      is known by its function identity (a [nat]) and its invocation is
      recorded in the [delivered] log; it does not call back into the client
      while it runs.
    - What the client does to the outside world is recorded in logs carried
      by the state: frames written to the API socket ([sent]), events handed
      to [emit] ([published]), listener invocations ([delivered]), calls of a
      promise's [resolve] ([resolutions]) and socket operations ([wsOps]).
    - A call of the logger writes a line and has no effect on the client;
      the lines are left out. [printSendLogger] is embedded, since it can
      throw while it makes its line. *)

From stdpp Require Import gmap strings list fin_maps.

Notation "x === y" := (bool_decide (x = y)) (at level 70, no associativity).
Notation "x !== y" := (negb (bool_decide (x = y))) (at level 70, no associativity).

(** ** Data carried by frames *)

Record GroupInfo := { gi_group_id : Z; gi_group_name : string }.
Record FriendInfo := { fi_user_id : Z; fi_nickname : string }.
Record OneBotVersionInfo :=
  { app_name : string; app_version : string; protocol_version : string }.

(** The [data] member of a response: [null], or one of the payloads the
    client itself decodes, or any other value that is not an array. An
    array is a list of group entries, which have a [group_id], or a list of
    friend entries, which have a [user_id] and no [group_id]. *)
Inductive RespData :=
| DNull
| DVersion (v : OneBotVersionInfo)
| DGroups (l : list GroupInfo)
| DFriends (l : list FriendInfo)
| DOther (json : string).

Record ActionResponse := {
  retcode : Z;
  status : string;
  data : RespData;
  msg : string;
  wording : string;
  echo : string
}.

(** One element of a structured message; [el_qq] is [el.data.qq]. *)
Record MessageElem := { el_type : string; el_qq : option string }.

Inductive MessageField :=
| MsgText (s : string)
| MsgElems (els : list MessageElem).

(** The quick-operation closures the dispatcher attaches to a payload. Each
    one captures [data], the frame it was built for, here the frame's
    object identity. *)
Inductive Closure :=
| ReplyPrivate (ctx : nat)
| ReplyGroup (ctx : nat)
| Recall (ctx : nat)
| Kick (ctx : nat)
| Ban (ctx : nat)
| ApproveFriend (ctx : nat)
| ApproveGroup (ctx : nat).

(** An inbound event object: the members the dispatcher reads or writes.
    A member absent from the frame is the empty string, [0] or [None]. *)
Record EventData := {
  post_type : string;
  meta_event_type : string;
  status_online : bool;
  sub_type : string;
  message : MessageField;
  group_id : Z;
  user_id : Z;
  notice_type : string;
  request_type : string;
  atMe : option bool;
  reply : option Closure;
  recall : option Closure;
  kick : option Closure;
  ban : option Closure;
  approve : option Closure
}.

(** Assignment to one member of an event object. *)

Definition with_message v (x : EventData) : EventData :=
  {| post_type := post_type x; meta_event_type := meta_event_type x; status_online :=
     status_online x; sub_type := sub_type x; message := v; group_id := group_id x; user_id :=
     user_id x; notice_type := notice_type x; request_type := request_type x; atMe := atMe x;
     reply := reply x; recall := recall x; kick := kick x; ban := ban x; approve := approve x
     |}.
Definition with_atMe v (x : EventData) : EventData :=
  {| post_type := post_type x; meta_event_type := meta_event_type x; status_online :=
     status_online x; sub_type := sub_type x; message := message x; group_id := group_id x;
     user_id := user_id x; notice_type := notice_type x; request_type := request_type x; atMe :=
     v; reply := reply x; recall := recall x; kick := kick x; ban := ban x; approve := approve x
     |}.
Definition with_reply v (x : EventData) : EventData :=
  {| post_type := post_type x; meta_event_type := meta_event_type x; status_online :=
     status_online x; sub_type := sub_type x; message := message x; group_id := group_id x;
     user_id := user_id x; notice_type := notice_type x; request_type := request_type x; atMe :=
     atMe x; reply := v; recall := recall x; kick := kick x; ban := ban x; approve := approve x
     |}.
Definition with_recall v (x : EventData) : EventData :=
  {| post_type := post_type x; meta_event_type := meta_event_type x; status_online :=
     status_online x; sub_type := sub_type x; message := message x; group_id := group_id x;
     user_id := user_id x; notice_type := notice_type x; request_type := request_type x; atMe :=
     atMe x; reply := reply x; recall := v; kick := kick x; ban := ban x; approve := approve x
     |}.
Definition with_kick v (x : EventData) : EventData :=
  {| post_type := post_type x; meta_event_type := meta_event_type x; status_online :=
     status_online x; sub_type := sub_type x; message := message x; group_id := group_id x;
     user_id := user_id x; notice_type := notice_type x; request_type := request_type x; atMe :=
     atMe x; reply := reply x; recall := recall x; kick := v; ban := ban x; approve := approve x
     |}.
Definition with_ban v (x : EventData) : EventData :=
  {| post_type := post_type x; meta_event_type := meta_event_type x; status_online :=
     status_online x; sub_type := sub_type x; message := message x; group_id := group_id x;
     user_id := user_id x; notice_type := notice_type x; request_type := request_type x; atMe :=
     atMe x; reply := reply x; recall := recall x; kick := kick x; ban := v; approve := approve
     x |}.
Definition with_approve v (x : EventData) : EventData :=
  {| post_type := post_type x; meta_event_type := meta_event_type x; status_online :=
     status_online x; sub_type := sub_type x; message := message x; group_id := group_id x;
     user_id := user_id x; notice_type := notice_type x; request_type := request_type x; atMe :=
     atMe x; reply := reply x; recall := recall x; kick := kick x; ban := ban x; approve := v
     |}.

(** What a listener receives: [null], or a frame object, known by its
    identity [ref] and its contents at the time of the call. *)
Inductive Payload :=
| PNull
| PData (ref : nat) (d : EventData).

(** The text of an inbound socket message together with what
    [isJsonString] and [JSON.parse] make of it: not JSON, an object with an
    [echo] member, or an object without one. *)
Inductive Inbound :=
| NotJson (text : string)
| JsonResponse (r : ActionResponse)
| JsonEvent (d : EventData).

(** The arguments a collaborator passes to a closure. *)
Inductive ClosureArgs :=
| NoArgs
| Content (content : string) (at_sender : option bool)
| Duration (seconds : Z)
| Verdict (ok : bool) (text : string).

(** The [operation] member of a quick-operation request. [OpUntyped] is
    the object that the closure of that name builds from arguments that are
    not of the shape its parameters have, such as
    [{ ban: true, ban_duration: undefined }] for [ban()]. *)
Inductive Operation :=
| OpReply (content : string)
| OpReplyAt (content : string) (at_sender : bool)
| OpDelete
| OpKick
| OpBan (ban_duration : Z)
| OpApproveRemark (ok : bool) (remark : string)
| OpApproveReason (ok : bool) (reason : string)
| OpUntyped (closure : string) (args : ClosureArgs).

(** A message as [getMessageLogger] sees it: a string, an array, an object
    with a [type] and a [data], or [null] or [undefined]. The members of
    [data] that the function reads are strings where they are present;
    [data] itself may be missing. *)
Record ElemData := {
  d_text : option string;
  d_qq : option string;
  d_id : option string;
  d_url : option string
}.

#[warnings="-register-all"]
Inductive Sendable :=
| SText (s : string)
| SArray (items : list Sendable)
| SElem (type : string) (data : option ElemData)
| SNullish.

(** The members of the parameters of a send that [printSendLogger] reads;
    the two identifiers are given by the text that a template literal makes
    of them. *)
Record SendParams := {
  sp_message_type : option string;
  sp_group_id : string;
  sp_user_id : string;
  sp_message : Sendable
}.

(** The second argument of [fetchApi]: [undefined], an object with members
    that are strings, each listed once, the object of a quick operation, or
    the parameters of a send. *)
Inductive Params :=
| ParamsUndefined
| ParamsObject (members : list (string * string))
| ParamsQuick (context : nat) (operation : Operation)
| ParamsSend (send : SendParams).

Record ActionRequest := {
  rq_action : string;
  rq_params : Params;
  rq_echo : string
}.

(** ** The subscriber registry *)

Record EventMapListener := { listener : nat; once_flag : bool }.

(** What the caller of [fetchApi] chains on the returned promise. *)
Inductive Continuation :=
| ThenVersionInfo
| ThenGroupList
| ThenFriendList
| ThenCaller.

(** A [fetchApi] call: the n-th call has identity n. Its promise, its
    timer handle and its correlation listener are known by that identity. *)
Record Call := { c_action : string; c_then : Continuation }.

Record Timer := {
  t_call : nat;
  t_deadline : Z;
  t_echo : string;
  t_action : string
}.

Record Resolution := { r_call : nat; r_time : Z; r_data : ActionResponse }.

Record Delivery := {
  dl_event : string;
  dl_item : EventMapListener;
  dl_payload : Payload
}.

Inductive WsOp :=
| WsConnect (sock : string) (url : string)
| WsClose (sock : string).

#[global] Instance EventMapListener_eq_dec : EqDecision EventMapListener.
Proof. solve_decision. Defined.
#[global] Instance OneBotVersionInfo_eq_dec : EqDecision OneBotVersionInfo.
Proof. solve_decision. Defined.

(** ** The client object *)

Record Client := {
  (* class EventEmitter *)
  eventMap : gmap string (list EventMapListener);
  apiMap : gmap string (list nat);
  (* class BaseClient; [glStray] and [flStray] are the entries of the two
     directories under the key [undefined] *)
  eventTarget : string;
  apiTarget : string;
  fetchTimeout : Z;
  gl : gmap Z GroupInfo;
  glStray : option FriendInfo;
  fl : gmap Z FriendInfo;
  flStray : option GroupInfo;
  uin : Z;
  online : bool;
  oneBotVersion : RespData;
  sharedSocket : bool;
  (* the run time: clock in ms, timers, promises, promise jobs, frame objects *)
  now : Z;
  timers : list Timer;
  calls : list Call;
  jobs : list (Continuation * ActionResponse);
  objects : list EventData;
  (* logs *)
  sent : list ActionRequest;
  published : list (string * Payload);
  delivered : list Delivery;
  resolutions : list Resolution;
  wsOps : list WsOp
}.

(** Assignment to one field of the client. *)

Definition set_eventMap v (x : Client) : Client :=
  {| eventMap := v; apiMap := apiMap x; eventTarget := eventTarget x; apiTarget := apiTarget x;
     fetchTimeout := fetchTimeout x; gl := gl x; glStray := glStray x; fl := fl x; flStray :=
     flStray x; uin := uin x; online := online x; oneBotVersion := oneBotVersion x; sharedSocket :=
     sharedSocket x; now := now x; timers := timers x; calls := calls x; jobs := jobs x; objects :=
     objects x; sent := sent x; published := published x; delivered := delivered x; resolutions :=
     resolutions x; wsOps := wsOps x |}.
Definition set_apiMap v (x : Client) : Client :=
  {| eventMap := eventMap x; apiMap := v; eventTarget := eventTarget x; apiTarget := apiTarget
     x; fetchTimeout := fetchTimeout x; gl := gl x; glStray := glStray x; fl := fl x; flStray :=
     flStray x; uin := uin x; online := online x; oneBotVersion := oneBotVersion x; sharedSocket :=
     sharedSocket x; now := now x; timers := timers x; calls := calls x; jobs := jobs x; objects :=
     objects x; sent := sent x; published := published x; delivered := delivered x; resolutions :=
     resolutions x; wsOps := wsOps x |}.
Definition set_eventTarget v (x : Client) : Client :=
  {| eventMap := eventMap x; apiMap := apiMap x; eventTarget := v; apiTarget := apiTarget x;
     fetchTimeout := fetchTimeout x; gl := gl x; glStray := glStray x; fl := fl x; flStray :=
     flStray x; uin := uin x; online := online x; oneBotVersion := oneBotVersion x; sharedSocket :=
     sharedSocket x; now := now x; timers := timers x; calls := calls x; jobs := jobs x; objects :=
     objects x; sent := sent x; published := published x; delivered := delivered x; resolutions :=
     resolutions x; wsOps := wsOps x |}.
Definition set_apiTarget v (x : Client) : Client :=
  {| eventMap := eventMap x; apiMap := apiMap x; eventTarget := eventTarget x; apiTarget := v;
     fetchTimeout := fetchTimeout x; gl := gl x; glStray := glStray x; fl := fl x; flStray :=
     flStray x; uin := uin x; online := online x; oneBotVersion := oneBotVersion x; sharedSocket :=
     sharedSocket x; now := now x; timers := timers x; calls := calls x; jobs := jobs x; objects :=
     objects x; sent := sent x; published := published x; delivered := delivered x; resolutions :=
     resolutions x; wsOps := wsOps x |}.
Definition set_fetchTimeout v (x : Client) : Client :=
  {| eventMap := eventMap x; apiMap := apiMap x; eventTarget := eventTarget x; apiTarget :=
     apiTarget x; fetchTimeout := v; gl := gl x; glStray := glStray x; fl := fl x; flStray :=
     flStray x; uin := uin x; online := online x; oneBotVersion := oneBotVersion x; sharedSocket :=
     sharedSocket x; now := now x; timers := timers x; calls := calls x; jobs := jobs x; objects :=
     objects x; sent := sent x; published := published x; delivered := delivered x; resolutions :=
     resolutions x; wsOps := wsOps x |}.
Definition set_gl v (x : Client) : Client :=
  {| eventMap := eventMap x; apiMap := apiMap x; eventTarget := eventTarget x; apiTarget :=
     apiTarget x; fetchTimeout := fetchTimeout x; gl := v; glStray := glStray x; fl := fl x;
     flStray := flStray x; uin := uin x; online := online x; oneBotVersion := oneBotVersion x;
     sharedSocket := sharedSocket x; now := now x; timers := timers x; calls := calls x; jobs :=
     jobs x; objects := objects x; sent := sent x; published := published x; delivered := delivered
     x; resolutions := resolutions x; wsOps := wsOps x |}.
Definition set_glStray v (x : Client) : Client :=
  {| eventMap := eventMap x; apiMap := apiMap x; eventTarget := eventTarget x; apiTarget :=
     apiTarget x; fetchTimeout := fetchTimeout x; gl := gl x; glStray := v; fl := fl x; flStray :=
     flStray x; uin := uin x; online := online x; oneBotVersion := oneBotVersion x; sharedSocket :=
     sharedSocket x; now := now x; timers := timers x; calls := calls x; jobs := jobs x; objects :=
     objects x; sent := sent x; published := published x; delivered := delivered x; resolutions :=
     resolutions x; wsOps := wsOps x |}.
Definition set_fl v (x : Client) : Client :=
  {| eventMap := eventMap x; apiMap := apiMap x; eventTarget := eventTarget x; apiTarget :=
     apiTarget x; fetchTimeout := fetchTimeout x; gl := gl x; glStray := glStray x; fl := v;
     flStray := flStray x; uin := uin x; online := online x; oneBotVersion := oneBotVersion x;
     sharedSocket := sharedSocket x; now := now x; timers := timers x; calls := calls x; jobs :=
     jobs x; objects := objects x; sent := sent x; published := published x; delivered := delivered
     x; resolutions := resolutions x; wsOps := wsOps x |}.
Definition set_flStray v (x : Client) : Client :=
  {| eventMap := eventMap x; apiMap := apiMap x; eventTarget := eventTarget x; apiTarget :=
     apiTarget x; fetchTimeout := fetchTimeout x; gl := gl x; glStray := glStray x; fl := fl x;
     flStray := v; uin := uin x; online := online x; oneBotVersion := oneBotVersion x; sharedSocket
     := sharedSocket x; now := now x; timers := timers x; calls := calls x; jobs := jobs x; objects
     := objects x; sent := sent x; published := published x; delivered := delivered x; resolutions
     := resolutions x; wsOps := wsOps x |}.
Definition set_uin v (x : Client) : Client :=
  {| eventMap := eventMap x; apiMap := apiMap x; eventTarget := eventTarget x; apiTarget :=
     apiTarget x; fetchTimeout := fetchTimeout x; gl := gl x; glStray := glStray x; fl := fl x;
     flStray := flStray x; uin := v; online := online x; oneBotVersion := oneBotVersion x;
     sharedSocket := sharedSocket x; now := now x; timers := timers x; calls := calls x; jobs :=
     jobs x; objects := objects x; sent := sent x; published := published x; delivered := delivered
     x; resolutions := resolutions x; wsOps := wsOps x |}.
Definition set_online v (x : Client) : Client :=
  {| eventMap := eventMap x; apiMap := apiMap x; eventTarget := eventTarget x; apiTarget :=
     apiTarget x; fetchTimeout := fetchTimeout x; gl := gl x; glStray := glStray x; fl := fl x;
     flStray := flStray x; uin := uin x; online := v; oneBotVersion := oneBotVersion x;
     sharedSocket := sharedSocket x; now := now x; timers := timers x; calls := calls x; jobs :=
     jobs x; objects := objects x; sent := sent x; published := published x; delivered := delivered
     x; resolutions := resolutions x; wsOps := wsOps x |}.
Definition set_oneBotVersion v (x : Client) : Client :=
  {| eventMap := eventMap x; apiMap := apiMap x; eventTarget := eventTarget x; apiTarget :=
     apiTarget x; fetchTimeout := fetchTimeout x; gl := gl x; glStray := glStray x; fl := fl x;
     flStray := flStray x; uin := uin x; online := online x; oneBotVersion := v; sharedSocket :=
     sharedSocket x; now := now x; timers := timers x; calls := calls x; jobs := jobs x; objects :=
     objects x; sent := sent x; published := published x; delivered := delivered x; resolutions :=
     resolutions x; wsOps := wsOps x |}.
Definition set_sharedSocket v (x : Client) : Client :=
  {| eventMap := eventMap x; apiMap := apiMap x; eventTarget := eventTarget x; apiTarget :=
     apiTarget x; fetchTimeout := fetchTimeout x; gl := gl x; glStray := glStray x; fl := fl x;
     flStray := flStray x; uin := uin x; online := online x; oneBotVersion := oneBotVersion x;
     sharedSocket := v; now := now x; timers := timers x; calls := calls x; jobs := jobs x; objects
     := objects x; sent := sent x; published := published x; delivered := delivered x; resolutions
     := resolutions x; wsOps := wsOps x |}.
Definition set_now v (x : Client) : Client :=
  {| eventMap := eventMap x; apiMap := apiMap x; eventTarget := eventTarget x; apiTarget :=
     apiTarget x; fetchTimeout := fetchTimeout x; gl := gl x; glStray := glStray x; fl := fl x;
     flStray := flStray x; uin := uin x; online := online x; oneBotVersion := oneBotVersion x;
     sharedSocket := sharedSocket x; now := v; timers := timers x; calls := calls x; jobs := jobs
     x; objects := objects x; sent := sent x; published := published x; delivered := delivered x;
     resolutions := resolutions x; wsOps := wsOps x |}.
Definition set_timers v (x : Client) : Client :=
  {| eventMap := eventMap x; apiMap := apiMap x; eventTarget := eventTarget x; apiTarget :=
     apiTarget x; fetchTimeout := fetchTimeout x; gl := gl x; glStray := glStray x; fl := fl x;
     flStray := flStray x; uin := uin x; online := online x; oneBotVersion := oneBotVersion x;
     sharedSocket := sharedSocket x; now := now x; timers := v; calls := calls x; jobs := jobs x;
     objects := objects x; sent := sent x; published := published x; delivered := delivered x;
     resolutions := resolutions x; wsOps := wsOps x |}.
Definition set_calls v (x : Client) : Client :=
  {| eventMap := eventMap x; apiMap := apiMap x; eventTarget := eventTarget x; apiTarget :=
     apiTarget x; fetchTimeout := fetchTimeout x; gl := gl x; glStray := glStray x; fl := fl x;
     flStray := flStray x; uin := uin x; online := online x; oneBotVersion := oneBotVersion x;
     sharedSocket := sharedSocket x; now := now x; timers := timers x; calls := v; jobs := jobs x;
     objects := objects x; sent := sent x; published := published x; delivered := delivered x;
     resolutions := resolutions x; wsOps := wsOps x |}.
Definition set_jobs v (x : Client) : Client :=
  {| eventMap := eventMap x; apiMap := apiMap x; eventTarget := eventTarget x; apiTarget :=
     apiTarget x; fetchTimeout := fetchTimeout x; gl := gl x; glStray := glStray x; fl := fl x;
     flStray := flStray x; uin := uin x; online := online x; oneBotVersion := oneBotVersion x;
     sharedSocket := sharedSocket x; now := now x; timers := timers x; calls := calls x; jobs := v;
     objects := objects x; sent := sent x; published := published x; delivered := delivered x;
     resolutions := resolutions x; wsOps := wsOps x |}.
Definition set_objects v (x : Client) : Client :=
  {| eventMap := eventMap x; apiMap := apiMap x; eventTarget := eventTarget x; apiTarget :=
     apiTarget x; fetchTimeout := fetchTimeout x; gl := gl x; glStray := glStray x; fl := fl x;
     flStray := flStray x; uin := uin x; online := online x; oneBotVersion := oneBotVersion x;
     sharedSocket := sharedSocket x; now := now x; timers := timers x; calls := calls x; jobs :=
     jobs x; objects := v; sent := sent x; published := published x; delivered := delivered x;
     resolutions := resolutions x; wsOps := wsOps x |}.
Definition set_sent v (x : Client) : Client :=
  {| eventMap := eventMap x; apiMap := apiMap x; eventTarget := eventTarget x; apiTarget :=
     apiTarget x; fetchTimeout := fetchTimeout x; gl := gl x; glStray := glStray x; fl := fl x;
     flStray := flStray x; uin := uin x; online := online x; oneBotVersion := oneBotVersion x;
     sharedSocket := sharedSocket x; now := now x; timers := timers x; calls := calls x; jobs :=
     jobs x; objects := objects x; sent := v; published := published x; delivered := delivered x;
     resolutions := resolutions x; wsOps := wsOps x |}.
Definition set_published v (x : Client) : Client :=
  {| eventMap := eventMap x; apiMap := apiMap x; eventTarget := eventTarget x; apiTarget :=
     apiTarget x; fetchTimeout := fetchTimeout x; gl := gl x; glStray := glStray x; fl := fl x;
     flStray := flStray x; uin := uin x; online := online x; oneBotVersion := oneBotVersion x;
     sharedSocket := sharedSocket x; now := now x; timers := timers x; calls := calls x; jobs :=
     jobs x; objects := objects x; sent := sent x; published := v; delivered := delivered x;
     resolutions := resolutions x; wsOps := wsOps x |}.
Definition set_delivered v (x : Client) : Client :=
  {| eventMap := eventMap x; apiMap := apiMap x; eventTarget := eventTarget x; apiTarget :=
     apiTarget x; fetchTimeout := fetchTimeout x; gl := gl x; glStray := glStray x; fl := fl x;
     flStray := flStray x; uin := uin x; online := online x; oneBotVersion := oneBotVersion x;
     sharedSocket := sharedSocket x; now := now x; timers := timers x; calls := calls x; jobs :=
     jobs x; objects := objects x; sent := sent x; published := published x; delivered := v;
     resolutions := resolutions x; wsOps := wsOps x |}.
Definition set_resolutions v (x : Client) : Client :=
  {| eventMap := eventMap x; apiMap := apiMap x; eventTarget := eventTarget x; apiTarget :=
     apiTarget x; fetchTimeout := fetchTimeout x; gl := gl x; glStray := glStray x; fl := fl x;
     flStray := flStray x; uin := uin x; online := online x; oneBotVersion := oneBotVersion x;
     sharedSocket := sharedSocket x; now := now x; timers := timers x; calls := calls x; jobs :=
     jobs x; objects := objects x; sent := sent x; published := published x; delivered := delivered
     x; resolutions := v; wsOps := wsOps x |}.
Definition set_wsOps v (x : Client) : Client :=
  {| eventMap := eventMap x; apiMap := apiMap x; eventTarget := eventTarget x; apiTarget :=
     apiTarget x; fetchTimeout := fetchTimeout x; gl := gl x; glStray := glStray x; fl := fl x;
     flStray := flStray x; uin := uin x; online := online x; oneBotVersion := oneBotVersion x;
     sharedSocket := sharedSocket x; now := now x; timers := timers x; calls := calls x; jobs :=
     jobs x; objects := objects x; sent := sent x; published := published x; delivered := delivered
     x; resolutions := resolutions x; wsOps := v |}.

(** ** Commands

    A method body is a command; [c1 ;; c2] runs [c1] and then [c2]. *)

Definition Cmd := Client → Client.

Definition skip (st : Client) : Client := st.
Definition seq (c1 c2 : Cmd) (st : Client) : Client := c2 (c1 st).
Declare Scope cmd_scope.
Delimit Scope cmd_scope with cmd.
Bind Scope cmd_scope with Cmd.
Notation "c1 ;; c2" := (seq c1 c2)
  (at level 100, c2 at level 200, right associativity) : cmd_scope.
Local Open Scope cmd_scope.

(** [if (b) { c }] *)
Definition when (b : bool) (c : Cmd) (st : Client) : Client := if b then c st else st.

(** A command that reads [this] first. *)
Definition withState (f : Client → Cmd) (st : Client) : Client := f st st.

(** ** class EventEmitter *)

Definition onHandle (event : string) (l : nat) (once : bool) : Cmd := λ st,
  let item := {| listener := l; once_flag := once |} in
  match eventMap st !! event with
  | Some listeners => set_eventMap (<[event := listeners ++ [item]]> (eventMap st)) st
  | None => set_eventMap (<[event := [item]]> (eventMap st)) st
  end.

Definition onApi (event : string) (c : nat) : Cmd := λ st,
  match apiMap st !! event with
  | Some listeners => set_apiMap (<[event := listeners ++ [c]]> (apiMap st)) st
  | None => set_apiMap (<[event := [c]]> (apiMap st)) st
  end.

Definition on (event : string) (l : nat) : Cmd := onHandle event l false.
Definition once (event : string) (l : nat) : Cmd := onHandle event l true.

(** [Array.prototype.findIndex]; [None] is the result -1. *)
Fixpoint findIndex {A} (p : A → bool) (l : list A) : option nat :=
  match l with
  | [] => None
  | x :: l' => if p x then Some 0%nat else S <$> findIndex p l'
  end.

(** [splice( index, 1 )] is [delete index]. *)
Definition off (event : string) (l : nat) : Cmd := λ st,
  match eventMap st !! event with
  | Some listeners =>
      match findIndex (λ item, listener item === l) listeners with
      | Some index => set_eventMap (<[event := delete index listeners]> (eventMap st)) st
      | None => st
      end
  | None => st
  end.

(** [this.eventMap.get( event ) || []] *)
Definition listenersOf (event : string) (st : Client) : list EventMapListener :=
  default [] (eventMap st !! event).

(** The call [item.listener( ...data )] of an opaque listener. *)
Definition invoke (event : string) (item : EventMapListener) (p : Payload) : Cmd := λ st,
  set_delivered (delivered st ++ [{| dl_event := event; dl_item := item; dl_payload := p |}]) st.

(** [listeners.forEach( item => ... )] over the array stored in the map.
    [forEach] reads the length once and then visits the indices [k],
    [k + 1], ... below it, each time looking the index up in the array as it
    is at that moment; an index that is no longer present is passed over.
    The callback's [off] edits that same array. *)
Fixpoint forEachListener (event : string) (p : Payload) (k n : nat) (st : Client) : Client :=
  match n with
  | O => st
  | S n' =>
      let st' :=
        match listenersOf event st !! k with
        | Some item =>
            (invoke event item p ;;
             when (once_flag item) (off event (listener item))) st
        | None => st
        end in
      forEachListener event p (S k) n' st'
  end.

Definition emit (event : string) (p : Payload) : Cmd := λ st,
  let st := set_published (published st ++ [(event, p)]) st in
  forEachListener event p 0 (length (listenersOf event st)) st.

Definition checkNoticePrivateEvent (d : EventData) : bool :=
  bool_decide (notice_type d ∈ ["friend_add"; "friend_recall"]).

(** ** Timers and promises *)

(** [clearTimeout( timer )] for the timer of call [c]. *)
Definition clearTimeout (c : nat) : Cmd := λ st,
  set_timers (filter (λ t, t_call t ≠ c) (timers st)) st.

(** Node's [setTimeout]: a delay below 1 or above [TIMEOUT_MAX] is 1. *)
Definition TIMEOUT_MAX : Z := 2147483647.

Definition timerDelay (ms : Z) : Z :=
  if (ms <? 1)%Z || (TIMEOUT_MAX <? ms)%Z then 1%Z else ms.

Definition setTimeout (c : nat) (echo action : string) (ms : Z) : Cmd := λ st,
  set_timers (timers st ++
    [{| t_call := c; t_deadline := (now st + timerDelay ms)%Z;
        t_echo := echo; t_action := action |}]) st.

Definition settled (c : nat) (st : Client) : bool :=
  bool_decide (c ∈ r_call <$> resolutions st).

(** [resolve( data )] of the promise of call [c]. Every call of [resolve]
    is logged; only the first one settles the promise and queues the job of
    the caller's [then]. *)
Definition resolve (c : nat) (data : ActionResponse) : Cmd := λ st,
  let first := negb (settled c st) in
  let st :=
    set_resolutions (resolutions st ++
      [{| r_call := c; r_time := now st; r_data := data |}]) st in
  match calls st !! c with
  | Some call => when first (set_jobs (jobs st ++ [(c_then call, data)])) st
  | None => st
  end.

(** [new Map( data.data.map( d => [ key( d ), d ] ) )]: a later entry
    replaces an earlier one with the same key. *)
Definition mapOf {A} (key : A → Z) (l : list A) : gmap Z A :=
  foldl (λ m d, <[key d := d]> m) ∅ l.

(** The [then] callbacks of [getVersionInfo], [setGroupList] and
    [setFriendList]; an exception in one of them is swallowed by the
    [catch] that follows. [data.data.map( d => [ d.group_id, d ] )] maps any
    array: over entries of the other directory every key is [undefined],
    and the new [Map] holds the last entry under that key. On data that is
    not an array the callback throws before it assigns. A collaborator's
    own continuation is opaque. *)
Definition runJob (k : Continuation) (resp : ActionResponse) : Cmd := λ st,
  match k with
  | ThenVersionInfo =>
      set_oneBotVersion (if retcode resp === 0%Z then data resp else DNull) st
  | ThenGroupList =>
      if retcode resp === 0%Z then
        match data resp with
        | DGroups l => set_glStray None (set_gl (mapOf gi_group_id l) st)
        | DFriends l => set_glStray (last l) (set_gl ∅ st)
        | _ => st
        end
      else set_glStray None (set_gl ∅ st)
  | ThenFriendList =>
      if retcode resp === 0%Z then
        match data resp with
        | DFriends l => set_flStray None (set_fl (mapOf fi_user_id l) st)
        | DGroups l => set_flStray (last l) (set_fl ∅ st)
        | _ => st
        end
      else set_flStray None (set_fl ∅ st)
  | ThenCaller => st
  end.

(** The promise jobs queued so far run when the current callback returns. *)
Definition drain : Cmd := λ st,
  foldl (λ s j, runJob j.1 j.2 s) (set_jobs [] st) (jobs st).

(** [listeners.slice().forEach( item => item( data ) )] and the [delete]
    that follows. A listener here is the one [fetchApi] registers:
    [data => { clearTimeout( timer ); resolve( data ) }]. *)
Definition apiListeners (event : string) (st : Client) : list nat :=
  default [] (apiMap st !! event).

Definition emitApi (event : string) (resp : ActionResponse) : Cmd := λ st,
  let listeners := apiListeners event st in
  let st := foldl (λ s c, (clearTimeout c ;; resolve c resp) s) st listeners in
  set_apiMap (delete event (apiMap st)) st.

(** ** class BaseClient *)

Definition needApiConnect (st : Client) : bool :=
  (apiTarget st !== "") && (apiTarget st !== eventTarget st).

Definition BaseClient (eventTarget apiTarget : string) (fetchTimeout : Z) : Client :=
  let st :=
    {| eventMap := ∅; apiMap := ∅;
       eventTarget := eventTarget; apiTarget := apiTarget; fetchTimeout := fetchTimeout;
       gl := ∅; glStray := None; fl := ∅; flStray := None;
       uin := 0; online := false; oneBotVersion := DNull;
       sharedSocket := false;
       now := 0; timers := []; calls := []; jobs := []; objects := [];
       sent := []; published := []; delivered := []; resolutions := []; wsOps := [] |} in
  set_sharedSocket (negb (needApiConnect st)) st.

Definition setFetchTimeout (ms : Z) : Cmd := set_fetchTimeout ms.

Definition setTarget (eventTarget apiTarget : string) : Cmd :=
  set_eventTarget eventTarget ;; set_apiTarget apiTarget.

Definition sendMessage (rq : ActionRequest) : Cmd := λ st,
  set_sent (sent st ++ [rq]) st.

Definition wsApiName (st : Client) : string :=
  if sharedSocket st then "wsEvent" else "wsApi".

Definition connect : Cmd := withState (λ st,
  (λ s, set_wsOps (wsOps s ++ [WsConnect "wsEvent" ("ws://" +:+ eventTarget st)]) s) ;;
  when (needApiConnect st)
    (λ s, set_wsOps (wsOps s ++ [WsConnect (wsApiName st) ("ws://" +:+ apiTarget st)]) s)).

Definition closeConnect : Cmd := withState (λ st,
  (λ s, set_wsOps (wsOps s ++ [WsClose "wsEvent"]) s) ;;
  when (needApiConnect st)
    (λ s, set_wsOps (wsOps s ++ [WsClose (wsApiName st)]) s)).

Definition reConnect : Cmd := closeConnect ;; connect.

Definition notLogin (echo : string) : ActionResponse :=
  {| retcode := 401; status := "failed"; data := DNull;
     msg := "Not_Login"; wording := "未登录"; echo := echo |}.

Definition requestTimeout (action echo : string) : ActionResponse :=
  {| retcode := 408; status := "failed"; data := DNull;
     msg := "Action " +:+ action +:+ " Request_Timeout";
     wording := "Api " +:+ action +:+ " 请求超时"; echo := echo |}.

(** [params || {}] *)
Definition orEmpty (params : Params) : Params :=
  match params with
  | ParamsUndefined => ParamsObject []
  | _ => params
  end.

(** What a call throws. *)
Inductive Thrown :=
| Error (message : string)
| TypeError.

(** ** The log line of a send *)

(** [a || b] on strings that may be undefined. *)
Definition orElse (a b : option string) : option string :=
  match a with
  | Some s => if s === "" then b else a
  | None => b
  end.

(** [items.map( f ).join( "" )]: the first exception of [f] is thrown, and
    [join] writes nothing for [undefined]. *)
Definition joinEach {A} (f : A → Thrown + option string) : list A → Thrown + string :=
  fix go (l : list A) : Thrown + string :=
    match l with
    | [] => inr ""
    | x :: l' =>
        match f x with
        | inl e => inl e
        | inr v =>
            match go l' with
            | inl e => inl e
            | inr rest => inr (default "" v +:+ rest)
            end
        end
    end.

Section Logger.

(** The text of the member that every object inherits under a name, such
    as [toString] or [constructor], if there is one: [msgMap] is an object
    literal, and looking up a type it does not list finds those. *)
Variable inherited : string → option string.

Definition msgMap (data : ElemData) (type : string) : option string :=
  if type === "at" then d_qq data
  else if type === "music" then orElse (d_id data) (d_url data)
  else if type === "reply" then orElse (d_id data) (d_qq data)
  else if type === "face" then d_id data
  else if type === "share" then d_url data
  else if type === "poke" then d_qq data
  else if type === "gift" then d_id data
  else if type === "image" then Some "[图片]"
  else if type === "record" then Some "[语音]"
  else if type === "video" then Some "[视频]"
  else inherited type.

(** The result is the string returned, [None] for [undefined], or the
    exception thrown. *)
Fixpoint getMessageLogger (message : Sendable) : Thrown + option string :=
  match message with
  | SText s => inr (Some s)
  | SArray items =>
      match joinEach getMessageLogger items with
      | inl e => inl e
      | inr s => inr (Some s)
      end
  | SNullish => inl TypeError
  | SElem _ None => inl TypeError
  | SElem type (Some data) =>
      if type === "text" then inr (d_text data)
      else
        match orElse (msgMap data type) (Some "") with
        | Some tipMsg =>
            if tipMsg === "" then inr (Some ("{" +:+ type +:+ "}"))
            else inr (Some ("{" +:+ type +:+ ": " +:+ tipMsg +:+ "}"))
        | None => inr (Some ("{" +:+ type +:+ "}"))
        end
  end.

(** [params = {}], the default of [printSendLogger]. *)
Definition noParams : SendParams :=
  {| sp_message_type := None; sp_group_id := "undefined"; sp_user_id := "undefined";
     sp_message := SNullish |}.

(** The result is the line handed to the logger, [None] when nothing is
    logged, or the exception thrown. *)
Definition printSendLogger (action : string) (params : SendParams) : Thrown + option string :=
  let tipTarget := "" in
  let tipTarget :=
    if action === "send_msg" then
      if sp_message_type params === Some "group"
      then "[群聊(" +:+ sp_group_id params +:+ ")]"
      else "[私聊(" +:+ sp_user_id params +:+ ")]"
    else tipTarget in
  let tipTarget :=
    if action === "send_private_msg" then "[私聊(" +:+ sp_user_id params +:+ ")]"
    else tipTarget in
  let tipTarget :=
    if action === "send_group_msg" then "[群聊(" +:+ sp_group_id params +:+ ")]"
    else tipTarget in
  if tipTarget === "" then inr None
  else
    match getMessageLogger (sp_message params) with
    | inl e => inl e
    | inr tipMessage =>
        inr (Some ("消息发送成功: " +:+ tipTarget +:+ " " +:+ default "undefined" tipMessage))
    end.

End Logger.

(** The actions for which [printSendLogger] makes a line. *)
Definition logged (action : string) : bool :=
  (action === "send_msg") || (action === "send_private_msg") || (action === "send_group_msg").

(** The member of an object under a key. *)
Definition member (key : string) (members : list (string * string)) : option string :=
  snd <$> List.find (λ m, m.1 === key) members.

(** What [printSendLogger] reads in the second argument of [fetchApi]; a
    member that is a string reads as a message of text, and the template
    literal writes [undefined] for an identifier that is missing. *)
Definition loggerView (params : Params) : SendParams :=
  match params with
  | ParamsUndefined => noParams
  | ParamsObject members =>
      {| sp_message_type := member "message_type" members;
         sp_group_id := default "undefined" (member "group_id" members);
         sp_user_id := default "undefined" (member "user_id" members);
         sp_message := from_option SText SNullish (member "message" members) |}
  | ParamsQuick _ _ => noParams
  | ParamsSend send => send
  end.

Section WithEnvironment.

(** What the client takes from its environment: the identifier
    [Date.now().toString( 36 ) + getRandomString( 6 )] drawn by the n-th
    call of [fetchApi] that returns a promise, the message helpers
    [toMessageRecepElem] and [formatSendMessage], [Number.parseInt] ([None]
    is [NaN]), and the members that every object inherits, as [msgMap]
    finds them. *)
Variable newEcho : nat → string.
Variable toMessageRecepElem : string → list MessageElem.
Variable formatSendMessage : string → string.
Variable parseInt : option string → option Z.
Variable inherited : string → option string.

(** [fetchApi( action, params )] chained with [then( k )]. The result is
    the identity of the call, or what [printSendLogger] throws: then
    nothing is sent, no timer is set, no promise is made, and the client is
    left as it was. *)
Definition fetchApi (action : string) (params : Params) (k : Continuation)
    (st : Client) : (Thrown + nat) * Client :=
  let c := length (calls st) in
  let echo := newEcho c in
  let promised := set_calls (calls st ++ [{| c_action := action; c_then := k |}]) st in
  if negb (online st) then (inr c, resolve c (notLogin echo) promised)
  else
    match printSendLogger inherited action (loggerView params) with
    | inl e => (inl e, st)
    | inr _ =>
        (inr c,
         (sendMessage {| rq_action := action; rq_params := orEmpty params; rq_echo := echo |} ;;
          setTimeout c echo action (fetchTimeout st) ;;
          onApi echo c) promised)
    end.

(** Whether [printSendLogger] throws on a call. *)
Definition throws (action : string) (params : Params) : bool :=
  match printSendLogger inherited action (loggerView params) with
  | inl _ => true
  | inr _ => false
  end.

(** The client after the call, whatever the call gave. *)
Definition fetchApi_ (action : string) (params : Params) (k : Continuation) : Cmd :=
  λ st, (fetchApi action params k st).2.

(** The timer callback of [fetchApi]. *)
Definition onTimeout (t : Timer) : Cmd :=
  emitApi (t_echo t) (requestTimeout (t_action t) (t_echo t)).

Definition getVersionInfo : Cmd := fetchApi_ "get_version_info" ParamsUndefined ThenVersionInfo.
Definition setGroupList : Cmd := fetchApi_ "get_group_list" ParamsUndefined ThenGroupList.
Definition setFriendList : Cmd := fetchApi_ "get_friend_list" ParamsUndefined ThenFriendList.

(** The [message] handler of [initApiWs]. *)
Definition onApiMessage (raw : Inbound) : Cmd :=
  match raw with
  | NotJson _ => skip
  | JsonEvent _ => skip
  | JsonResponse resp =>
      if echo resp === "" then skip
      else if retcode resp === 1%Z then skip
      else emitApi (echo resp) resp
  end.

Definition quickOperation (ctx : nat) (op : Operation) : Cmd :=
  fetchApi_ ".handle_quick_operation" (ParamsQuick ctx op) ThenCaller.

(** A closure called with arguments. [recall] and [kick] take none and
    ignore what they are given; the others put their arguments into the
    operation as they come, so a call with arguments of another shape sends
    a request as well. *)
Definition callClosure (cl : Closure) (args : ClosureArgs) : Cmd :=
  match cl with
  | ReplyPrivate ctx =>
      quickOperation ctx
        match args with
        | Content content _ => OpReply (formatSendMessage content)
        | _ => OpUntyped "reply" args
        end
  | ReplyGroup ctx =>
      quickOperation ctx
        match args with
        | Content content at_sender =>
            OpReplyAt (formatSendMessage content) (default true at_sender)
        | _ => OpUntyped "reply" args
        end
  | Recall ctx => quickOperation ctx OpDelete
  | Kick ctx => quickOperation ctx OpKick
  | Ban ctx =>
      quickOperation ctx
        match args with
        | Duration seconds => OpBan seconds
        | _ => OpUntyped "ban" args
        end
  | ApproveFriend ctx =>
      quickOperation ctx
        match args with
        | Verdict ok remark => OpApproveRemark ok remark
        | _ => OpUntyped "approve" args
        end
  | ApproveGroup ctx =>
      quickOperation ctx
        match args with
        | Verdict ok reason => OpApproveReason ok reason
        | _ => OpUntyped "approve" args
        end
  end.

(** *** The [message] handler of [initEventWs] *)

(** [data.member = v] on the frame object [ref]. *)
Definition assign (ref : nat) (f : EventData → EventData) : Cmd := λ st,
  set_objects (alter f ref (objects st)) st.

Definition thisData (ref : nat) (st : Client) : Payload :=
  match objects st !! ref with
  | Some d => PData ref d
  | None => PNull
  end.

(** [this.emit( event, data )] *)
Definition emitData (event : string) (ref : nat) : Cmd :=
  withState (λ st, emit event (thisData ref st)).

Definition isAtMe (uin : Z) (el : MessageElem) : bool :=
  (el_type el === "at") && (parseInt (el_qq el) === Some uin).

Definition normalise (d : EventData) : EventData :=
  match message d with
  | MsgText s => with_message (MsgElems (toMessageRecepElem s)) d
  | MsgElems _ => d
  end.

Definition findAtMe (uin : Z) (d : EventData) : bool :=
  match message d with
  | MsgElems els => bool_decide (is_Some (List.find (isAtMe uin) els))
  | MsgText _ => false
  end.

Definition onMetaEvent (ref : nat) (d : EventData) : Cmd :=
  when (meta_event_type d === "lifecycle") (emitData "system.lifecycle" ref) ;;
  when (meta_event_type d === "heartbeat")
    (withState (λ st,
       when (status_online d !== online st)
         (set_online (status_online d) ;;
          withState (λ st,
            if online st then
              getVersionInfo ;; setGroupList ;; setFriendList ;;
              emitData "system.online" ref
            else emitData "system.offline" ref)))) ;;
  emitData "system" ref.

Definition onMessage (ref : nat) (d : EventData) : Cmd :=
  assign ref normalise ;;
  withState (λ st, assign ref (λ d, with_atMe (Some (findAtMe (uin st) d)) d)) ;;
  when ((sub_type d === "friend") || (sub_type d === "group"))
    (assign ref (with_reply (Some (ReplyPrivate ref))) ;;
     (if sub_type d === "friend" then emitData "message.private.friend" ref
      else if sub_type d === "group" then emitData "message.private.group" ref
      else skip) ;;
     emitData "message.private" ref) ;;
  when ((sub_type d === "normal") || (sub_type d === "anonymous"))
    (assign ref (with_reply (Some (ReplyGroup ref))) ;;
     assign ref (with_recall (Some (Recall ref))) ;;
     assign ref (with_kick (Some (Kick ref))) ;;
     assign ref (with_ban (Some (Ban ref))) ;;
     (if sub_type d === "normal" then emitData "message.group.normal" ref
      else if sub_type d === "anonymous" then emitData "message.group.anonymous" ref
      else skip) ;;
     emitData "message.group" ref) ;;
  emitData "message" ref.

Definition onNotice (ref : nat) (d : EventData) : Cmd :=
  (if checkNoticePrivateEvent d then
     if notice_type d === "friend_add" then
       setFriendList ;; emitData "notice.friend.add" ref
     else if notice_type d === "friend_recall" then emitData "notice.friend.recall" ref
     else skip
   else
     (if notice_type d === "group_recall" then emitData "notice.group.recall" ref
      else if notice_type d === "group_increase" then
        emitData "notice.group.increase" ref ;;
        withState (λ st,
          if user_id d === uin st then
            setGroupList ;; emitData "notice.group.increase" ref
          else emitData "notice.group.member_increase" ref)
      else if notice_type d === "group_decrease" then
        withState (λ st,
          if (sub_type d === "kick_me") || (user_id d === uin st) then
            setGroupList ;; emitData "notice.group.decrease" ref
          else emitData "notice.group.member_decrease" ref)
      else if notice_type d === "group_admin" then emitData "notice.group.admin" ref
      else if notice_type d === "group_upload" then emitData "notice.group.upload" ref
      else if notice_type d === "group_ban" then emitData "notice.group.ban" ref
      else if notice_type d === "notify" then
        when (sub_type d === "lucky_king") (emitData "notice.group.lucky_king" ref) ;;
        when (sub_type d === "honor") (emitData "notice.group.honor" ref) ;;
        when (sub_type d === "poke") (emitData "notice.group.poke" ref)
      else skip) ;;
     emitData "notice.group" ref) ;;
  emitData "notice" ref.

Definition onRequest (ref : nat) (d : EventData) : Cmd :=
  (if request_type d === "friend" then
     assign ref (with_approve (Some (ApproveFriend ref))) ;;
     emitData "request.friend" ref
   else if request_type d === "group" then
     assign ref (with_approve (Some (ApproveGroup ref))) ;;
     emitData "request.group" ref
   else skip) ;;
  emitData "request" ref.

(** [JSON.parse] makes a new object of each frame; [ref] is its identity.
    The handler's closing [if ( data.post_type === "meta_event" ) return]
    has nothing after it. *)
Definition onEventMessage (raw : Inbound) : Cmd :=
  match raw with
  | NotJson _ => skip
  | JsonResponse _ => skip
  | JsonEvent d =>
      withState (λ st,
        let ref := length (objects st) in
        (λ s, set_objects (objects s ++ [d]) s) ;;
        when (post_type d === "meta_event") (onMetaEvent ref d) ;;
        when (post_type d === "message") (onMessage ref d) ;;
        when (post_type d === "notice") (onNotice ref d) ;;
        when (post_type d === "request") (onRequest ref d))
  end.

(** The [close] handler of [initEventWs]. *)
Definition onEventClose : Cmd :=
  withState (λ st,
    when (online st) (set_online false ;; emit "system.offline" PNull)).

(** ** The event loop *)

Inductive Socket := WsEvent | WsApi.

(** One callback run by the event loop, or one call by a collaborator. *)
Inductive Input :=
| Message (sock : Socket) (raw : Inbound)
| Close (sock : Socket)
| Tick
| FetchApi (action : string) (params : Params)
| SetFetchTimeout (ms : Z)
| SetTarget (eventTarget apiTarget : string)
| SetUin (uin : Z)
| On (event : string) (l : nat)
| Once (event : string) (l : nat)
| Off (event : string) (l : nat)
| Emit (event : string) (p : Payload)
| CallClosure (cl : Closure) (args : ClosureArgs)
| Connect
| CloseConnect
| ReConnect.

(** With one socket for both channels the constructor installs both
    handlers on it, the event handler first. *)
Definition onSocketMessage (sock : Socket) (raw : Inbound) : Cmd :=
  withState (λ st,
    if sharedSocket st then onEventMessage raw ;; onApiMessage raw
    else match sock with
         | WsEvent => onEventMessage raw
         | WsApi => onApiMessage raw
         end).

Definition onSocketClose (sock : Socket) : Cmd :=
  withState (λ st,
    if sharedSocket st then onEventClose
    else match sock with
         | WsEvent => onEventClose
         | WsApi => skip
         end).

Definition isActive (c : nat) (st : Client) : bool :=
  bool_decide (c ∈ t_call <$> timers st).

(** A timer that is due is taken off the timer list and its callback runs,
    unless it was cleared in the meantime. *)
Fixpoint runDue (due : list Timer) (st : Client) : Client :=
  match due with
  | [] => st
  | t :: rest =>
      runDue rest
        (when (isActive (t_call t) st)
           (clearTimeout (t_call t) ;; onTimeout t ;; drain) st)
  end.

(** One millisecond passes: the timers that are due run in the order in
    which they were set. *)
Definition tick : Cmd := λ st,
  let st := set_now (now st + 1)%Z st in
  runDue (filter (λ t, (t_deadline t ≤ now st)%Z) (timers st)) st.

Definition step (i : Input) : Cmd :=
  match i with
  | Message sock raw => onSocketMessage sock raw ;; drain
  | Close sock => onSocketClose sock ;; drain
  | Tick => tick
  | FetchApi action params => fetchApi_ action params ThenCaller ;; drain
  | SetFetchTimeout ms => setFetchTimeout ms
  | SetTarget e a => setTarget e a
  | SetUin u => set_uin u
  | On event l => on event l
  | Once event l => once event l
  | Off event l => off event l
  | Emit event p => emit event p ;; drain
  | CallClosure cl args => callClosure cl args ;; drain
  | Connect => connect
  | CloseConnect => closeConnect
  | ReConnect => reConnect
  end.

Definition run (ins : list Input) : Cmd := λ st, foldl (λ s i, step i s) st ins.


(** ** What the logs say *)

(** [emits event ps]: one [emit] of [event] per payload of [ps]. *)
Definition emits (event : string) (ps : list Payload) : Cmd := λ st,
  foldl (λ s p, emit event p s) st ps.

(** The number of times listener [f] was invoked for [event]. *)
Definition fired (event : string) (f : nat) (st : Client) : nat :=
  length (filter (λ dl, dl_event dl = event ∧ listener (dl_item dl) = f) (delivered st)).

(** The number of times a [once] entry of listener [f] was invoked. *)
Definition firedOnce (event : string) (f : nat) (st : Client) : nat :=
  length (filter (λ dl, dl_event dl = event ∧ dl_item dl = {| listener := f; once_flag := true |})
            (delivered st)).

(** The number of entries of listener [f] for [event]. *)
Definition registered (event : string) (f : nat) (st : Client) : nat :=
  length (filter (λ item, listener item = f) (listenersOf event st)).

(** One round of the loop: the entry at index [k], if there is one, is
    invoked, and a [once] entry then removes the first entry of its
    listener. *)
Definition visit (event : string) (p : Payload) (k : nat) : Cmd := λ st,
  match listenersOf event st !! k with
  | Some item => (invoke event item p ;; when (once_flag item) (off event (listener item))) st
  | None => st
  end.

(** While every entry of [f] is a [once] entry, each invocation of [f]
    consumes one of them. *)
Definition onceOnly (event : string) (f : nat) (st : Client) : Prop :=
  ∀ item, item ∈ listenersOf event st → listener item = f → once_flag item = true.

(** The log entry of one invocation. *)
Definition mkDelivery (event : string) (p : Payload) (item : EventMapListener) : Delivery :=
  {| dl_event := event; dl_item := item; dl_payload := p |}.

(** The frame object of a group message once the dispatcher has prepared
    it. *)
Definition groupMessage (ref : nat) (uin : Z) (d : EventData) : EventData :=
  with_ban (Some (Ban ref))
    (with_kick (Some (Kick ref))
       (with_recall (Some (Recall ref))
          (with_reply (Some (ReplyGroup ref))
             (with_atMe (Some (findAtMe uin (normalise d))) (normalise d))))).

(** What a handler has done so far: [Run st0 st on objs pubs cs rqs] says
    that, starting from [st0], the client is now in [st], where the online
    flag is [on], the frame objects are [objs], and the events [pubs], the
    calls [cs] and the requests [rqs] have been added to the logs; every
    listener invoked since [st0] was handed the payload of one of [pubs];
    no socket was opened or closed. *)
Record Run (st0 st : Client) (on : bool) (objs : list EventData)
    (pubs : list (string * Payload)) (cs : list Call) (rqs : list ActionRequest) : Prop := {
  run_online : online st = on;
  run_objects : objects st = objs;
  run_uin : uin st = uin st0;
  run_now : now st = now st0;
  run_fetchTimeout : fetchTimeout st = fetchTimeout st0;
  run_published : published st = published st0 ++ pubs;
  run_calls : calls st = calls st0 ++ cs;
  run_sent : sent st = sent st0 ++ rqs;
  run_wsOps : wsOps st = wsOps st0;
  run_delivered :
    ∃ dls, delivered st = delivered st0 ++ dls ∧
           Forall (λ dl, dl_payload dl ∈ pubs.*2) dls
}.


(** ** The correlation of requests and responses *)

(** The calls of [resolve] made for call [c]. *)
Definition resolutionsOf (c : nat) (st : Client) : list Resolution :=
  filter (λ r, r_call r = c) (resolutions st).

(** Call [c] is pending: its listener sits in the correlation table, under
    the identifier the call drew. *)
Definition pending (c : nat) (st : Client) : Prop :=
  c ∈ apiListeners (newEcho c) st.

#[local] Instance pending_dec c st : Decision (pending c st).
Proof. unfold pending. apply _. Defined.

(** The resolution that listener [c] logs when it is handed [resp]. *)
Definition resolutionAt (st : Client) (resp : ActionResponse) (c : nat) : Resolution :=
  {| r_call := c; r_time := now st; r_data := resp |}.

(** The part of the client that the correlation of requests is about. *)
Definition quiet (st st' : Client) : Prop :=
  apiMap st' = apiMap st ∧ timers st' = timers st ∧ resolutions st' = resolutions st ∧
  now st' = now st ∧ calls st' = calls st.

(** What one input does to that part is a sequence of moves: a command that
    leaves it alone, a call of [fetchApi], the delivery of a response frame,
    a timer callback, or the clock advancing with no timer due. *)
Inductive Label :=
| Quiet
| Fetched
| Delivered (resp : ActionResponse)
| Fired (t : Timer)
| Clock.

Inductive move : Label → Client → Client → Prop :=
| move_quiet st st' : quiet st st' → move Quiet st st'
| move_fetch action params k c st :
    (fetchApi action params k st).1 = inr c →
    move Fetched st (fetchApi_ action params k st)
| move_deliver resp st :
    echo resp ≠ "" → retcode resp ≠ 1%Z →
    move (Delivered resp) st (emitApi (echo resp) resp st)
| move_fire t st :
    t ∈ timers st → (t_deadline t ≤ now st)%Z →
    move (Fired t) st (onTimeout t (clearTimeout (t_call t) st))
| move_clock st :
    (∀ t, t ∈ timers st → (now st < t_deadline t)%Z) →
    move Clock st (set_now (now st + 1)%Z st).

Inductive moves : list Label → Client → Client → Prop :=
| moves_nil st : moves [] st st
| moves_cons l ls st st' st'' :
    move l st st' → moves ls st' st'' → moves (l :: ls) st st''.

(** A command that only calls [fetchApi] and commands that leave the
    correlation alone. *)
Definition calm (l : Label) : Prop := l = Quiet ∨ l = Fetched.

Definition tame (c : Cmd) : Prop :=
  ∀ st, ∃ ls, moves ls st (c st) ∧ Forall calm ls.

(** The moves an input may take. *)
Definition allowed (i : Input) (l : Label) : Prop :=
  match l with
  | Quiet | Fetched => True
  | Delivered resp => ∃ sock, i = Message sock (JsonResponse resp)
  | Fired _ | Clock => i = Tick
  end.

(** The correlation table, the timers and the log of resolutions agree:
    a listener is filed under the identifier of its call, once; a call has a
    timer exactly while it is pending; a pending call has not been resolved,
    and a call that is no longer pending has been resolved once. *)
Record coherent (st : Client) : Prop := {
  co_echo : ∀ e c, c ∈ apiListeners e st → e = newEcho c;
  co_nodup : ∀ e, NoDup (apiListeners e st);
  co_timers : NoDup (t_call <$> timers st);
  co_timer_echo : ∀ t, t ∈ timers st → t_echo t = newEcho (t_call t);
  co_active : ∀ c, c ∈ t_call <$> timers st ↔ pending c st;
  co_pending : ∀ c, pending c st → c < length (calls st) ∧ resolutionsOf c st = [];
  co_settled : ∀ c, c < length (calls st) → ¬ pending c st →
               length (resolutionsOf c st) = 1;
  co_fresh : ∀ c, length (calls st) ≤ c → resolutionsOf c st = []
}.

(** No timer is overdue. *)
Definition punctual (st : Client) : Prop :=
  ∀ t, t ∈ timers st → (now st < t_deadline t)%Z.

Definition onTime (st : Client) : Prop :=
  ∀ t, t ∈ timers st → (now st ≤ t_deadline t)%Z.

(** A response frame that the API handler hands to [emitApi]. *)
Definition deliverable (resp : ActionResponse) : Prop :=
  echo resp ≠ "" ∧ retcode resp ≠ 1%Z.

(** The timer that [fetchApi] sets for call [c], made in state [st]. *)
Definition timerOf (c : nat) (action : string) (st : Client) : Timer :=
  {| t_call := c; t_deadline := (now st + timerDelay (fetchTimeout st))%Z;
     t_echo := newEcho c; t_action := action |}.

(** A call that has been made, and whose timer, while it is set, is [t0]. *)
Definition tracked (t0 : Timer) (st : Client) : Prop :=
  t_call t0 < length (calls st) ∧
  ∀ t, t ∈ timers st → t_call t = t_call t0 → t = t0.

(** A move that hands a response to the listeners filed under [e], and the
    response it hands them. *)
Definition hit (l : Label) (e : string) : Prop :=
  match l with
  | Delivered resp => echo resp = e
  | Fired t => t_echo t = e
  | _ => False
  end.

Definition handed (l : Label) : ActionResponse :=
  match l with
  | Delivered resp => resp
  | Fired t => requestTimeout (t_action t) (t_echo t)
  | _ => notLogin ""
  end.

(** A response frame for call [c] that reaches its listener. *)
Definition answers (c : nat) (i : Input) : Prop :=
  ∃ sock resp, i = Message sock (JsonResponse resp) ∧
               echo resp = newEcho c ∧ deliverable resp.

(** Where the resolutions of a call come from: a response frame that
    carries its identifier and is not dropped, or a timer callback. *)
Definition fromFrameOrTimer (c : nat) (ins : list Input) (r : Resolution) : Prop :=
  (∃ sock, Message sock (JsonResponse (r_data r)) ∈ ins ∧
           echo (r_data r) = newEcho c ∧ deliverable (r_data r)) ∨
  (∃ action, r_data r = requestTimeout action (newEcho c)).

(** ** Sample inputs *)

(** An event frame with the members the dispatcher branches on. *)
Definition eventOf (post_type meta_event_type sub_type notice_type : string)
    (status_online : bool) (user_id : Z) : EventData :=
  {| post_type := post_type; meta_event_type := meta_event_type;
     status_online := status_online; sub_type := sub_type; message := MsgText "hi";
     group_id := 1; user_id := user_id; notice_type := notice_type; request_type := "";
     atMe := None; reply := None; recall := None; kick := None; ban := None;
     approve := None |}.

Definition heartbeatFrame (on : bool) : EventData :=
  eventOf "meta_event" "heartbeat" "" "" on 0.

(** A successful response to the request with identifier [echo]. *)
Definition responseTo (echo : string) (retcode : Z) : ActionResponse :=
  {| retcode := retcode; status := "ok"; data := DNull; msg := ""; wording := "";
     echo := echo |}.

(** Identifiers that never collide: the n-th one has n + 1 letters. *)
Fixpoint sampleEcho (n : nat) : string :=
  match n with
  | O => "a"
  | S k => "a" +:+ sampleEcho k
  end.

(** ** Fields that a command leaves alone *)

(** [keeps f c]: the command [c] never changes what [f] reads. *)
Definition keeps {A} (f : Client → A) (c : Cmd) : Prop := ∀ st, f (c st) = f st.

(** What [f] reads is not touched by the book-keeping of the registry, of
    the correlation table, of the timers, of the promises and of the logs. *)
Record passive {A} (f : Client → A) : Prop := {
  pv_eventMap : ∀ v st, f (set_eventMap v st) = f st;
  pv_apiMap : ∀ v st, f (set_apiMap v st) = f st;
  pv_gl : ∀ v st, f (set_gl v st) = f st;
  pv_glStray : ∀ v st, f (set_glStray v st) = f st;
  pv_fl : ∀ v st, f (set_fl v st) = f st;
  pv_flStray : ∀ v st, f (set_flStray v st) = f st;
  pv_oneBotVersion : ∀ v st, f (set_oneBotVersion v st) = f st;
  pv_now : ∀ v st, f (set_now v st) = f st;
  pv_timers : ∀ v st, f (set_timers v st) = f st;
  pv_calls : ∀ v st, f (set_calls v st) = f st;
  pv_jobs : ∀ v st, f (set_jobs v st) = f st;
  pv_objects : ∀ v st, f (set_objects v st) = f st;
  pv_sent : ∀ v st, f (set_sent v st) = f st;
  pv_published : ∀ v st, f (set_published v st) = f st;
  pv_delivered : ∀ v st, f (set_delivered v st) = f st;
  pv_resolutions : ∀ v st, f (set_resolutions v st) = f st
}.

(** A state of a client that was constructed and then driven by inputs. *)
Definition reachable (st : Client) : Prop :=
  ∃ eventTarget apiTarget fetchTimeout ins,
    st = run ins (BaseClient eventTarget apiTarget fetchTimeout).

(** The inputs that can change the online flag: a heartbeat frame and the
    close of a socket, on the socket that carries the events. *)
Definition carriesEvents (sock : Socket) (st : Client) : Prop :=
  sharedSocket st = true ∨ sock = WsEvent.

Definition mayChangeOnline (i : Input) (st : Client) : Prop :=
  match i with
  | Message sock (JsonEvent d) =>
      carriesEvents sock st ∧ post_type d = "meta_event" ∧ meta_event_type d = "heartbeat"
  | Close sock => carriesEvents sock st
  | _ => False
  end.

(** The calls by which a collaborator opens or closes the sockets. *)
Definition socketCommand (i : Input) : Prop :=
  i = Connect ∨ i = CloseConnect ∨ i = ReConnect.

(** The socket messages that no handler acts on: text that is not JSON; on
    a socket of its own, an event frame on the API socket and a response
    frame on the event socket; a response frame with an empty identifier,
    with the result code 1, or with an identifier under which no call is
    pending. *)
Definition ignored (sock : Socket) (raw : Inbound) (st : Client) : Prop :=
  match raw with
  | NotJson _ => True
  | JsonEvent _ => sharedSocket st = false ∧ sock = WsApi
  | JsonResponse resp =>
      (sharedSocket st = false ∧ sock = WsEvent) ∨
      echo resp = "" ∨ retcode resp = 1%Z ∨ apiMap st !! echo resp = None
  end.

(** ** Frame objects as the dispatcher prepares them *)

(** The elements of the message of a frame, once a text message has been
    converted. *)
Definition elementsOf (d : EventData) : list MessageElem :=
  match message d with
  | MsgText s => toMessageRecepElem s
  | MsgElems els => els
  end.

(** A message frame with its message converted and [atMe] set. *)
Definition prepared (uin : Z) (d : EventData) : EventData :=
  with_atMe (Some (findAtMe uin (normalise d))) (normalise d).

Definition privateMessage (ref : nat) (uin : Z) (d : EventData) : EventData :=
  with_reply (Some (ReplyPrivate ref)) (prepared uin d).

(** The text such as [friend_add] that names a notice of kind [add] about
    [friend]. *)
Definition noticeName (about kind : string) : string := about +:+ "_" +:+ kind.

#[global] Instance Continuation_eq_dec : EqDecision Continuation.
Proof. solve_decision. Defined.

(** ** What the continuation of a refresh leaves in its field *)

(** The group directory after the [then] callback of [setGroupList] has
    run with [resp]; the callback throws, and changes nothing, when the data
    of a successful response is not an array. *)
Definition groupsAfter (resp : ActionResponse) (gl : gmap Z GroupInfo) : gmap Z GroupInfo :=
  if retcode resp === 0%Z then
    match data resp with
    | DGroups l => mapOf gi_group_id l
    | DFriends _ => ∅
    | _ => gl
    end
  else ∅.

Definition friendsAfter (resp : ActionResponse) (fl : gmap Z FriendInfo) : gmap Z FriendInfo :=
  if retcode resp === 0%Z then
    match data resp with
    | DFriends l => mapOf fi_user_id l
    | DGroups _ => ∅
    | _ => fl
    end
  else ∅.

Definition versionAfter (resp : ActionResponse) (v : RespData) : RespData :=
  if retcode resp === 0%Z then data resp else DNull.

(** ** The singleton *)

(** [BaseClient.getInstance( eventTarget?, apiTarget?, fetchTimeout? )].
    [instance] is the static [__instance]; an argument that is left out is
    [None]. The result is what the call returns or throws, and the static
    afterwards. [!eventTarget] holds of [undefined] and of the empty string,
    [!fetchTimeout] of [undefined] and of 0. *)
Definition getInstance (eventTarget apiTarget : option string) (fetchTimeout : option Z)
    (instance : option Client) : (Thrown + Client) * option Client :=
  match instance with
  | None =>
      match eventTarget, apiTarget, fetchTimeout with
      | Some e, Some a, Some t =>
          if (e === "") || (t === 0%Z) then (inl (Error "Invalid parameter"), None)
          else (inr (BaseClient e a t), Some (BaseClient e a t))
      | _, _, _ => (inl (Error "Invalid parameter"), None)
      end
  | Some st => (inr st, Some st)
  end.

(** ** Messages that the logger reads *)

(** A message that [getMessageLogger] can read: no [null] or [undefined]
    in it, and every element object has its [data]. *)
Fixpoint wellFormed (message : Sendable) : bool :=
  match message with
  | SText _ => true
  | SArray items => forallb wellFormed items
  | SElem _ data => bool_decide (is_Some data)
  | SNullish => false
  end.

(** ** More sample inputs *)

Definition sampleClient : Client := BaseClient "127.0.0.1:6700" "" 10000.

(** A client with a socket of its own for the API. *)
Definition twoSocketClient : Client := BaseClient "127.0.0.1:6700" "127.0.0.1:6701" 10000.

Definition sampleGroup : GroupInfo := {| gi_group_id := 7; gi_group_name := "seven" |}.

(** A successful response that lists one group. *)
Definition groupsResponse (echo : string) : ActionResponse :=
  {| retcode := 0; status := "ok"; data := DGroups [sampleGroup]; msg := ""; wording := "";
     echo := echo |}.

(** * The subscriber registry *)

Section Registry.

Implicit Types (st : Client) (event : string) (f k n : nat) (p : Payload).
Implicit Types (l : list EventMapListener) (item : EventMapListener).

Lemma findIndex_Some {A} (q : A → bool) (xs : list A) i :
  findIndex q xs = Some i → ∃ x, xs !! i = Some x ∧ q x = true.
Proof.
  revert i. induction xs as [|x xs IH]; intros i; simpl; [done|].
  destruct (q x) eqn:Hq.
  - intros [= <-]. eauto.
  - destruct (findIndex q xs) as [j|]; simpl; [|done].
    intros [= <-]. apply IH. done.
Qed.

Lemma findIndex_None {A} (q : A → bool) (xs : list A) x :
  findIndex q xs = None → x ∈ xs → q x = false.
Proof.
  induction xs as [|y xs IH]; simpl; [by intros _ ?%elem_of_nil|].
  destruct (q y) eqn:Hq; [done|].
  destruct (findIndex q xs); simpl; [done|].
  intros _ [->|?]%elem_of_cons; auto.
Qed.

Lemma length_filter_delete {A} (P : A → Prop) `{!∀ x, Decision (P x)} (xs : list A) i x :
  xs !! i = Some x →
  length (filter P (delete i xs)) + (if decide (P x) then 1 else 0) = length (filter P xs).
Proof.
  revert i. induction xs as [|y xs IH]; intros [|i]; simpl; try done.
  - intros [= ->]. rewrite filter_cons. destruct (decide (P x)); simpl; lia.
  - intros Hi. rewrite !filter_cons. specialize (IH _ Hi).
    destruct (decide (P y)); simpl; lia.
Qed.

Lemma filter_none {A} (P : A → Prop) `{!∀ x, Decision (P x)} (xs : list A) :
  Forall (λ x, ¬ P x) xs → filter P xs = [].
Proof.
  induction 1 as [|x xs Hx _ IH]; [done|]. by rewrite filter_cons_False.
Qed.

Lemma elem_of_delete {A} (xs : list A) i x : x ∈ delete i xs → x ∈ xs.
Proof.
  revert i. induction xs as [|y xs IH]; intros [|i]; simpl; try done.
  - intros ?. apply elem_of_cons. by right.
  - intros [->|?]%elem_of_cons; apply elem_of_cons; [by left|right; eauto].
Qed.

(** [off] on the array of the event. *)
Lemma listenersOf_off event g st :
  listenersOf event (off event g st) =
    match findIndex (λ item, listener item === g) (listenersOf event st) with
    | Some i => delete i (listenersOf event st)
    | None => listenersOf event st
    end.
Proof.
  unfold off, listenersOf.
  destruct (eventMap st !! event) as [l|] eqn:Hl; simpl; [|by rewrite Hl].
  destruct (findIndex _ l); simpl; [|by rewrite Hl].
  by rewrite lookup_insert_eq.
Qed.

Lemma delivered_off event g st : delivered (off event g st) = delivered st.
Proof.
  unfold off. destruct (eventMap st !! event); [|done].
  by destruct (findIndex _ _).
Qed.

Lemma fired_off event event' f g st : fired event f (off event' g st) = fired event f st.
Proof. unfold fired. by rewrite delivered_off. Qed.

Lemma fired_invoke event f item p st :
  fired event f (invoke event item p st) =
    fired event f st + (if decide (listener item = f) then 1 else 0).
Proof.
  unfold fired, invoke; simpl. rewrite filter_app, length_app, filter_cons; simpl.
  destruct (decide (listener item = f)).
  - rewrite decide_True by done. done.
  - rewrite decide_False by (by intros [_ ?]). done.
Qed.

Lemma forEachListener_S event p k n st :
  forEachListener event p k (S n) st = forEachListener event p (S k) n (visit event p k st).
Proof. done. Qed.

Lemma visit_conserves event f p k st :
  onceOnly event f st →
  onceOnly event f (visit event p k st) ∧
  fired event f (visit event p k st) + registered event f (visit event p k st) =
    fired event f st + registered event f st.
Proof.
  intros Honce. unfold visit.
  destruct (listenersOf event st !! k) as [item|] eqn:Hk; [|done].
  unfold seq. destruct (once_flag item) eqn:Hflag; simpl.
  - assert (Hls : listenersOf event (invoke event item p st) = listenersOf event st) by done.
    unfold onceOnly, registered. rewrite listenersOf_off, fired_off, fired_invoke, Hls.
    destruct (findIndex _ (listenersOf event st)) as [i|] eqn:Hfind.
    + apply findIndex_Some in Hfind as (x & Hi & Hx).
      apply bool_decide_eq_true in Hx.
      split; [intros item' Hin%elem_of_delete; auto|].
      pose proof (length_filter_delete (λ item, listener item = f) _ _ _ Hi) as Hlen;
        simpl in Hlen.
      rewrite Hx in Hlen. destruct (decide (listener item = f)); lia.
    + exfalso. apply (findIndex_None _ _ item) in Hfind.
      * by apply bool_decide_eq_false in Hfind.
      * by eapply list_elem_of_lookup_2.
  - unfold skip. split; [done|].
    rewrite fired_invoke. unfold registered.
    assert (Hls : listenersOf event (invoke event item p st) = listenersOf event st) by done.
    rewrite Hls. destruct (decide (listener item = f)) as [Hf|]; [|lia].
    apply Honce in Hf; [congruence|]. by eapply list_elem_of_lookup_2.
Qed.

Lemma forEachListener_conserves event f p n k st :
  onceOnly event f st →
  onceOnly event f (forEachListener event p k n st) ∧
  fired event f (forEachListener event p k n st) +
    registered event f (forEachListener event p k n st) =
    fired event f st + registered event f st.
Proof.
  revert k st. induction n as [|n IH]; intros k st Honce; [done|].
  rewrite forEachListener_S.
  destruct (visit_conserves event f p k st Honce) as [Honce' Heq].
  destruct (IH (S k) _ Honce') as [? ?]. split; [done|lia].
Qed.

Lemma emit_conserves event f p st :
  onceOnly event f st →
  onceOnly event f (emit event p st) ∧
  fired event f (emit event p st) + registered event f (emit event p st) =
    fired event f st + registered event f st.
Proof.
  intros Honce.
  exact (forEachListener_conserves event f p _ 0 (set_published _ st) Honce).
Qed.

Lemma emits_conserves event f ps st :
  onceOnly event f st →
  onceOnly event f (emits event ps st) ∧
  fired event f (emits event ps st) + registered event f (emits event ps st) =
    fired event f st + registered event f st.
Proof.
  revert st. induction ps as [|p ps IH]; intros st Honce; [done|].
  destruct (emit_conserves event f p st Honce) as [Honce' Heq].
  destruct (IH _ Honce') as [? ?]. unfold emits in *; simpl. split; [done|lia].
Qed.

Lemma visit_fired_mono event f p k st : fired event f st ≤ fired event f (visit event p k st).
Proof.
  unfold visit. destruct (listenersOf event st !! k) as [item|]; [|done].
  unfold seq. destruct (once_flag item); simpl; unfold skip;
    rewrite ?fired_off, fired_invoke; lia.
Qed.

Lemma forEachListener_fired_mono event f p n k st :
  fired event f st ≤ fired event f (forEachListener event p k n st).
Proof.
  revert k st. induction n as [|n IH]; intros k st; [done|].
  rewrite forEachListener_S. etrans; [apply (visit_fired_mono event f p k)|apply IH].
Qed.

Lemma emit_fired_mono event f p st : fired event f st ≤ fired event f (emit event p st).
Proof. exact (forEachListener_fired_mono event f p _ 0 (set_published _ st)). Qed.

Lemma emits_fired_mono event f ps st : fired event f st ≤ fired event f (emits event ps st).
Proof.
  revert st. induction ps as [|p ps IH]; intros st; [done|].
  etrans; [apply (emit_fired_mono event f p)|apply IH].
Qed.

(** A persistent entry leaves the array as it is. *)
Lemma visit_persistent event p k item st :
  listenersOf event st !! k = Some item → once_flag item = false →
  visit event p k st = invoke event item p st.
Proof. unfold visit, seq. intros -> ->. done. Qed.

(** The loop reaches an entry that only persistent entries precede. *)
Lemma forEachListener_reaches event f p n k i item st :
  listenersOf event st !! i = Some item → listener item = f →
  (∀ j x, k ≤ j < i → listenersOf event st !! j = Some x → once_flag x = false) →
  k ≤ i < k + n →
  fired event f st < fired event f (forEachListener event p k n st).
Proof.
  revert k st. induction n as [|n IH]; intros k st Hi Hf Hpre Hk; [lia|].
  rewrite forEachListener_S. destruct (decide (k = i)) as [->|Hne].
  - eapply Nat.lt_le_trans; [|apply forEachListener_fired_mono].
    unfold visit. rewrite Hi. unfold seq.
    destruct (once_flag item); simpl; unfold skip; rewrite ?fired_off, fired_invoke;
      rewrite decide_True by done; lia.
  - destruct (lookup_lt_is_Some_2 (listenersOf event st) k) as [x Hx].
    { apply lookup_lt_Some in Hi. lia. }
    assert (once_flag x = false) as Hflag by (apply (Hpre k); [lia|done]).
    rewrite (visit_persistent _ _ _ _ _ Hx Hflag).
    eapply Nat.le_lt_trans; [|apply IH; try done].
    + rewrite fired_invoke. lia.
    + intros j y Hj. apply Hpre. lia.
    + lia.
Qed.

(** With persistent entries only, [emit] reaches every listener, in
    registration order. *)
Lemma forEachListener_persistent event p n k st :
  (∀ item, item ∈ listenersOf event st → once_flag item = false) →
  k + n = length (listenersOf event st) →
  listenersOf event (forEachListener event p k n st) = listenersOf event st ∧
  delivered (forEachListener event p k n st) =
    delivered st ++
      ((λ item, {| dl_event := event; dl_item := item; dl_payload := p |}) <$>
         drop k (listenersOf event st)).
Proof.
  revert k st. induction n as [|n IH]; intros k st Hall Hlen.
  - simpl. rewrite drop_ge by lia. by rewrite app_nil_r.
  - rewrite forEachListener_S.
    destruct (lookup_lt_is_Some_2 (listenersOf event st) k) as [x Hx]; [lia|].
    assert (once_flag x = false) as Hflag by (apply Hall; by eapply list_elem_of_lookup_2).
    rewrite (visit_persistent _ _ _ _ _ Hx Hflag).
    assert (Hls : listenersOf event (invoke event x p st) = listenersOf event st) by done.
    destruct (IH (S k) (invoke event x p st)) as [Hl Hd];
      [by rewrite Hls|rewrite Hls; lia|].
    rewrite Hl, Hd, Hls. split; [done|]. simpl.
    rewrite (drop_S _ _ _ Hx), fmap_cons, <- app_assoc. done.
Qed.

Lemma listenersOf_onHandle event f b st :
  listenersOf event (onHandle event f b st) =
    listenersOf event st ++ [{| listener := f; once_flag := b |}].
Proof.
  unfold onHandle, listenersOf.
  destruct (eventMap st !! event) as [l|] eqn:Hl; simpl; by rewrite lookup_insert_eq.
Qed.

Lemma delivered_onHandle event f b st : delivered (onHandle event f b st) = delivered st.
Proof. unfold onHandle. by destruct (eventMap st !! event). Qed.

End Registry.

(** * The shape of a command's effect *)

Section Shapes.

Implicit Types (st : Client) (event : string) (p : Payload).

Lemma forEachListener_shape event p n k st :
  ∃ em items,
    forEachListener event p k n st =
      set_delivered (delivered st ++ (mkDelivery event p <$> items)) (set_eventMap em st).
Proof.
  revert k st. induction n as [|n IH]; intros k st.
  - exists (eventMap st), []. destruct st; simpl. by rewrite app_nil_r.
  - rewrite forEachListener_S.
    assert (∃ em items, visit event p k st =
              set_delivered (delivered st ++ (mkDelivery event p <$> items))
                (set_eventMap em st)) as (em1 & items1 & Hv).
    { unfold visit. destruct (listenersOf event st !! k) as [item|].
      - unfold seq, invoke, when, skip.
        destruct (once_flag item).
        + unfold off. simpl. destruct (eventMap st !! event) as [l|].
          * destruct (findIndex _ l) as [i|];
              [by exists (<[event := delete i l]> (eventMap st)), [item]|].
            exists (eventMap st), [item]. by destruct st.
          * exists (eventMap st), [item]. by destruct st.
        + exists (eventMap st), [item]. by destruct st.
      - exists (eventMap st), []. destruct st; simpl. by rewrite app_nil_r. }
    destruct (IH (S k) (visit event p k st)) as (em & items & ->).
    exists em, (items1 ++ items). rewrite Hv. simpl.
    by rewrite fmap_app, app_assoc.
Qed.

(** [emit] logs the publication, invokes listeners with the payload it was
    given, and edits the listener arrays; it touches nothing else. *)
Lemma emit_shape event p st :
  ∃ em items,
    emit event p st =
      set_delivered (delivered st ++ (mkDelivery event p <$> items))
        (set_eventMap em (set_published (published st ++ [(event, p)]) st)).
Proof.
  exact (forEachListener_shape event p _ 0 (set_published (published st ++ [(event, p)]) st)).
Qed.

End Shapes.
(** * What the send logger reads *)

Section LoggerFacts.

Lemma Sendable_induction (P : Sendable → Prop) :
  (∀ s, P (SText s)) →
  (∀ items, Forall P items → P (SArray items)) →
  (∀ type data, P (SElem type data)) →
  P SNullish →
  ∀ m, P m.
Proof.
  intros Ht Ha He Hn. fix IH 1. intros [s|items|type data|].
  - apply Ht.
  - apply Ha.
    refine ((fix go (l : list Sendable) : Forall P l :=
               match l with
               | [] => Forall_nil_2 P
               | x :: l' => Forall_cons_2 P x l' (IH x) (go l')
               end) items).
  - apply He.
  - apply Hn.
Qed.

Lemma append_assoc (s1 s2 s3 : string) : (s1 +:+ s2) +:+ s3 = s1 +:+ (s2 +:+ s3).
Proof.
  induction s1 as [|a s1 IH]; [done|].
  change (String a ((s1 +:+ s2) +:+ s3) = String a (s1 +:+ (s2 +:+ s3))).
  by rewrite IH.
Qed.

Lemma joinEach_app {A} (f : A → Thrown + option string) (l1 l2 : list A) s1 s2 :
  joinEach f l1 = inr s1 → joinEach f l2 = inr s2 →
  joinEach f (l1 ++ l2) = inr (s1 +:+ s2).
Proof.
  revert s1. induction l1 as [|x l1 IH]; intros s1; simpl.
  - by intros [= <-] ->.
  - destruct (f x) as [e|v]; [done|].
    destruct (joinEach f l1) as [e|rest]; [done|].
    intros [= <-] H2. rewrite (IH rest eq_refl H2).
    by rewrite append_assoc.
Qed.

Lemma joinEach_fails {A} (f : A → Thrown + option string) (l : list A) :
  Forall (λ x, ∃ v, f x = inr v) l → ∃ s, joinEach f l = inr s.
Proof.
  induction 1 as [|x l [v Hv] _ [s Hs]]; simpl; [by eexists|].
  rewrite Hv, Hs. by eexists.
Qed.

Lemma getMessageLogger_well_formed m :
  (wellFormed m = true → ∃ v, getMessageLogger inherited m = inr v) ∧
  (wellFormed m = false → getMessageLogger inherited m = inl TypeError).
Proof.
  induction m as [s|items IH|type data|] using Sendable_induction.
  - split; [by eexists|done].
  - cbn [wellFormed getMessageLogger]. split.
    + intros Hall. rewrite forallb_forall in Hall.
      destruct (joinEach_fails (getMessageLogger inherited) items) as [s ->]; [|by eexists].
      rewrite Forall_forall in IH. apply Forall_forall. intros x Hx.
      apply (IH x Hx). apply Hall. by apply list_elem_of_In.
    + intros Hex.
      assert (joinEach (getMessageLogger inherited) items = inl TypeError) as ->; [|done].
      induction IH as [|x l [Hok Hx] _ IHl]; [done|].
      cbn [forallb] in Hex. cbn [joinEach].
      destruct (wellFormed x) eqn:Hwx.
      * simpl in Hex. rewrite (IHl Hex).
        by destruct (Hok eq_refl) as [v ->].
      * by rewrite (Hx eq_refl).
  - cbn [wellFormed getMessageLogger]. destruct data as [data|].
    + split; [|by rewrite bool_decide_eq_true_2].
      intros _. destruct (type === "text"); [by eexists|].
      destruct (orElse _ _) as [tip|]; [|by eexists].
      destruct (tip === ""); by eexists.
    + split; [|done]. intros H. apply bool_decide_eq_true in H. by destruct H.
  - split; [done|done].
Qed.

Lemma printSendLogger_unlogged (inh : string → option string) action p :
  logged action = false → printSendLogger inh action p = inr None.
Proof.
  unfold logged, printSendLogger. intros H.
  apply orb_false_elim in H as [H H3]. apply orb_false_elim in H as [H1 H2].
  by rewrite H1, H2, H3.
Qed.

Lemma throws_unlogged action params : logged action = false → throws action params = false.
Proof. intros H. unfold throws. by rewrite (printSendLogger_unlogged _ _ _ H). Qed.

Lemma printSendLogger_logged action :
  action ∈ ["send_msg"; "send_private_msg"; "send_group_msg"] →
  ∀ p, ∃ target, target ≠ "" ∧
    printSendLogger inherited action p =
      match getMessageLogger inherited (sp_message p) with
      | inl e => inl e
      | inr tipMessage =>
          inr (Some ("消息发送成功: " +:+ target +:+ " " +:+ default "undefined" tipMessage))
      end.
Proof.
  intros Hin p. unfold printSendLogger.
  rewrite !elem_of_cons, elem_of_nil in Hin.
  destruct Hin as [->|[->|[->|[]]]].
  - rewrite (bool_decide_eq_true_2 ("send_msg" = "send_msg")) by done.
    rewrite (bool_decide_eq_false_2 ("send_msg" = "send_private_msg")) by done.
    rewrite (bool_decide_eq_false_2 ("send_msg" = "send_group_msg")) by done.
    destruct (sp_message_type p === Some "group");
      (eexists; split; [|by rewrite bool_decide_eq_false_2 by done]); done.
  - rewrite (bool_decide_eq_false_2 ("send_private_msg" = "send_msg")) by done.
    rewrite (bool_decide_eq_true_2 ("send_private_msg" = "send_private_msg")) by done.
    rewrite (bool_decide_eq_false_2 ("send_private_msg" = "send_group_msg")) by done.
    eexists; split; [|by rewrite bool_decide_eq_false_2 by done]; done.
  - rewrite (bool_decide_eq_false_2 ("send_group_msg" = "send_msg")) by done.
    rewrite (bool_decide_eq_false_2 ("send_group_msg" = "send_private_msg")) by done.
    rewrite (bool_decide_eq_true_2 ("send_group_msg" = "send_group_msg")) by done.
    eexists; split; [|by rewrite bool_decide_eq_false_2 by done]; done.
Qed.

Lemma logged_elem_of action :
  logged action = true ↔ action ∈ ["send_msg"; "send_private_msg"; "send_group_msg"].
Proof.
  unfold logged. rewrite !orb_true_iff, !bool_decide_eq_true.
  rewrite !elem_of_cons, elem_of_nil. tauto.
Qed.

(** [fetchApi] throws on the sends whose message cannot be read, with a
    [TypeError], and on nothing else. *)
Lemma throws_spec action params :
  throws action params = logged action && negb (wellFormed (sp_message (loggerView params))).
Proof.
  unfold throws. destruct (logged action) eqn:Hlog.
  - apply logged_elem_of in Hlog.
    destruct (printSendLogger_logged action Hlog (loggerView params)) as (target & _ & ->).
    destruct (getMessageLogger_well_formed (sp_message (loggerView params))) as [Hok Hbad].
    destruct (wellFormed _).
    + by destruct (Hok eq_refl) as [v ->].
    + by rewrite (Hbad eq_refl).
  - by rewrite (printSendLogger_unlogged _ _ _ Hlog).
Qed.

Lemma throws_TypeError action params :
  throws action params = true →
  printSendLogger inherited action (loggerView params) = inl TypeError.
Proof.
  rewrite throws_spec. intros [Hlog Hwf%negb_true_iff]%andb_true_iff.
  apply logged_elem_of in Hlog.
  destruct (printSendLogger_logged action Hlog (loggerView params)) as (target & _ & ->).
  destruct (getMessageLogger_well_formed (sp_message (loggerView params))) as [_ Hbad].
  by rewrite (Hbad Hwf).
Qed.

End LoggerFacts.


(** * The dispatcher, one frame at a time *)

Section Dispatcher.

Implicit Types (st : Client) (d : EventData).

Lemma resolve_shape c resp st :
  ∃ js, resolve c resp st =
    set_jobs js (set_resolutions
      (resolutions st ++ [{| r_call := c; r_time := now st; r_data := resp |}]) st).
Proof.
  unfold resolve. cbn [calls set_resolutions].
  destruct (calls st !! c) as [call|]; [|by exists (jobs st); destruct st].
  unfold when. destruct (negb (settled c st)); [by eexists|].
  by exists (jobs st); destruct st.
Qed.

Lemma fetchApi_returned action params k c st :
  (fetchApi action params k st).1 = inr c →
  c = length (calls st) ∧ (online st = true → throws action params = false).
Proof.
  unfold fetchApi, throws. destruct (online st); cbn [negb].
  - destruct (printSendLogger _ _ _); cbn [fst]; [done|]. intros [= <-]. done.
  - cbn [fst]. intros [= <-]. done.
Qed.

Lemma fetchApi_thrown action params k st :
  online st = true → throws action params = true → fetchApi_ action params k st = st.
Proof.
  unfold fetchApi_, fetchApi, throws. intros ->. cbn [negb].
  by destruct (printSendLogger _ _ _).
Qed.

Lemma fetchApi_online action params k st :
  online st = true → throws action params = false →
  ∃ am, fetchApi_ action params k st =
    set_apiMap am
      (set_timers (timers st ++
         [{| t_call := length (calls st);
             t_deadline := (now st + timerDelay (fetchTimeout st))%Z;
             t_echo := newEcho (length (calls st)); t_action := action |}])
      (set_sent (sent st ++
         [{| rq_action := action; rq_params := orEmpty params;
             rq_echo := newEcho (length (calls st)) |}])
      (set_calls (calls st ++ [{| c_action := action; c_then := k |}]) st))).
Proof.
  intros Hon Hth. unfold fetchApi_, fetchApi. rewrite Hon. cbn [negb].
  unfold throws in Hth. destruct (printSendLogger _ _ _); [done|]. cbn [snd].
  unfold seq, onApi, setTimeout, sendMessage. simpl.
  destruct (apiMap st !! _); by eexists.
Qed.

Lemma fetchApi_offline action params k st :
  online st = false →
  ∃ js, fetchApi_ action params k st =
    set_jobs js
      (set_resolutions (resolutions st ++
         [{| r_call := length (calls st); r_time := now st;
             r_data := notLogin (newEcho (length (calls st))) |}])
      (set_calls (calls st ++ [{| c_action := action; c_then := k |}]) st)).
Proof.
  intros Hon. unfold fetchApi_, fetchApi. rewrite Hon. cbn [negb snd].
  destruct (resolve_shape (length (calls st)) (notLogin (newEcho (length (calls st))))
              (set_calls (calls st ++ [{| c_action := action; c_then := k |}]) st))
    as (js & ->).
  by exists js.
Qed.

Lemma thisData_last objs d (st : Client) :
  objects st = objs ++ [d] → thisData (length objs) st = PData (length objs) d.
Proof. unfold thisData. intros ->. by rewrite list_lookup_middle. Qed.

Lemma alter_last (f : EventData → EventData) objs d :
  alter f (length objs) (objs ++ [d]) = objs ++ [f d].
Proof.
  rewrite <- (Nat.add_0_r (length objs)) at 1. by rewrite alter_app_r.
Qed.

Lemma not_private_group_increase d :
  notice_type d = "group_increase" → checkNoticePrivateEvent d = false.
Proof.
  intros Hn. unfold checkNoticePrivateEvent. rewrite Hn.
  apply bool_decide_eq_false_2. rewrite !elem_of_cons, elem_of_nil. intros [?|[?|[]]]; discriminate.
Qed.

Lemma Run_init st0 : Run st0 st0 (online st0) (objects st0) [] [] [].
Proof.
  split; rewrite ?app_nil_r; try done. exists []. by rewrite app_nil_r.
Qed.

Lemma Run_alloc d st0 st on objs pubs cs rqs :
  Run st0 st on objs pubs cs rqs →
  Run st0 (set_objects (objs ++ [d]) st) on (objs ++ [d]) pubs cs rqs.
Proof. intros []. by split. Qed.

Lemma Run_assign ref f st0 st on objs pubs cs rqs :
  Run st0 st on objs pubs cs rqs →
  Run st0 (assign ref f st) on (alter f ref objs) pubs cs rqs.
Proof. intros []. split; simpl; try done. by f_equal. Qed.

Lemma Run_set_online b st0 st on objs pubs cs rqs :
  Run st0 st on objs pubs cs rqs →
  Run st0 (set_online b st) b objs pubs cs rqs.
Proof. intros []. by split. Qed.

Lemma Run_emit event p st0 st on objs pubs cs rqs :
  Run st0 st on objs pubs cs rqs →
  Run st0 (emit event p st) on objs (pubs ++ [(event, p)]) cs rqs.
Proof.
  intros [? ? ? ? ? Hpub ? ? ? (dls & Hdl & Hall)].
  destruct (emit_shape event p st) as (em & items & ->).
  split; simpl; try done.
  - by rewrite Hpub, app_assoc.
  - exists (dls ++ (mkDelivery event p <$> items)). split.
    + by rewrite Hdl, app_assoc.
    + rewrite fmap_app. apply Forall_app. split.
      * eapply Forall_impl; [done|]. intros dl. simpl. rewrite elem_of_app. auto.
      * apply Forall_fmap, Forall_true. intros item. simpl.
        rewrite elem_of_app, list_elem_of_singleton. auto.
Qed.

Lemma Run_emitData event ref d st0 st on objs pubs cs rqs :
  objs !! ref = Some d →
  Run st0 st on objs pubs cs rqs →
  Run st0 (emitData event ref st) on objs (pubs ++ [(event, PData ref d)]) cs rqs.
Proof.
  intros Href HR. unfold emitData, withState, thisData.
  rewrite (run_objects _ _ _ _ _ _ _ HR), Href. by apply Run_emit.
Qed.

Lemma Run_fetchApi action params k (Hlog : logged action = false)
    st0 st on objs pubs cs rqs :
  Run st0 st on objs pubs cs rqs →
  Run st0 (fetchApi_ action params k st) on objs pubs
    (cs ++ [{| c_action := action; c_then := k |}])
    (rqs ++ if on then
              [{| rq_action := action; rq_params := orEmpty params;
                  rq_echo := newEcho (length (calls st0) + length cs) |}]
            else []).
Proof.
  intros [Hon ? ? ? ? ? Hcalls Hsent ? ?].
  assert (length (calls st) = length (calls st0) + length cs) as Hlen
    by (by rewrite Hcalls, length_app).
  destruct on.
  - destruct (fetchApi_online action params k st Hon (throws_unlogged _ params Hlog))
      as (am & ->).
    split; simpl; try done.
    + by rewrite Hcalls, app_assoc.
    + by rewrite Hsent, Hlen, app_assoc.
  - destruct (fetchApi_offline action params k st Hon) as (js & ->).
    split; simpl; try done.
    + by rewrite Hcalls, app_assoc.
    + by rewrite app_nil_r.
Qed.

Lemma seq_eq (c1 c2 : Cmd) st : (c1 ;; c2) st = c2 (c1 st).
Proof. done. Qed.
Lemma skip_eq st : skip st = st.
Proof. done. Qed.
Lemma when_true (c : Cmd) st : when true c st = c st.
Proof. done. Qed.
Lemma when_false (c : Cmd) st : when false c st = st.
Proof. done. Qed.
Lemma withState_eq (f : Client → Cmd) st : withState f st = f st st.
Proof. done. Qed.

(** Symbolic execution, one command at a time: the command applied to the
    current state is run, and its result becomes the current state. *)
Ltac run_with lem :=
  lazymatch goal with
  | HR : Run _ ?s _ _ _ _ _ |- _ =>
      let HR' := fresh "HR" in
      pose proof (lem _ _ _ _ _ _ _ HR) as HR';
      clear HR;
      lazymatch type of HR' with
      | Run _ ?s' _ _ _ _ _ =>
          let x := fresh "st" in
          set (x := s') in *; clearbody x; try clear s
      end
  end.

Ltac run_step :=
  lazymatch goal with
  | HR : Run _ ?s _ _ _ _ _ |- _ =>
      match goal with
      | |- context [seq ?c1 ?c2 s] => rewrite (seq_eq c1 c2 s)
      | |- context [skip s] => rewrite (skip_eq s)
      | |- context [when true ?c s] => rewrite (when_true c s)
      | |- context [when false ?c s] => rewrite (when_false c s)
      | |- context [withState ?f s] => rewrite (withState_eq f s); cbv beta
      | |- context [online s] => progress rewrite (run_online _ _ _ _ _ _ _ HR)
      | |- context [uin s] => progress rewrite (run_uin _ _ _ _ _ _ _ HR)
      | |- context [objects s] => progress rewrite (run_objects _ _ _ _ _ _ _ HR)
      | |- context [getVersionInfo s] => unfold getVersionInfo
      | |- context [setGroupList s] => unfold setGroupList
      | |- context [setFriendList s] => unfold setFriendList
      | |- context [set_objects (?o ++ [?d]) s] => run_with (Run_alloc d)
      | |- context [assign ?r ?f s] =>
          run_with (Run_assign r f);
          lazymatch goal with HR' : Run _ _ _ _ _ _ _ |- _ => rewrite alter_last in HR' end
      | |- context [set_online ?b s] => run_with (Run_set_online b)
      | |- context [emitData ?e ?r s] =>
          let HR' := fresh "HR" in
          epose proof (λ d H, Run_emitData e r d _ _ _ _ _ _ _ H HR) as HR';
          specialize (HR' _ (list_lookup_middle _ _ _ _ eq_refl));
          clear HR;
          let x := fresh "st" in
          set (x := emitData e r s) in *; clearbody x; try clear s
      | |- context [emit ?e ?p s] => run_with (Run_emit e p)
      | |- context [fetchApi_ ?a ?p ?k s] => run_with (Run_fetchApi a p k eq_refl)
      end
  end.

Ltac decide_lit :=
  match goal with
  | |- context [bool_decide (?a = ?b)] =>
      first [ rewrite (bool_decide_eq_true_2 (a = b)) by reflexivity
            | rewrite (bool_decide_eq_false_2 (a = b)) by discriminate ]
  end.

Ltac exec :=
  repeat first
    [ progress cbn [negb andb orb]
    | decide_lit
    | run_step ].

(** The handler starts in [st]; the initial values it reads get names. *)
Ltac start st :=
  let HR := fresh "HR" in
  pose proof (Run_init st) as HR;
  let on0 := fresh "on0" in
  let objs0 := fresh "objs0" in
  remember (online st) as on0;
  remember (objects st) as objs0.

(** [exec] leaves the summary of the whole handler as the goal's only
    premise still to be used. *)
Ltac done_running :=
  lazymatch goal with
  | HR : Run _ ?s _ _ _ _ _ |- Run _ ?s _ _ _ _ _ => exact HR
  end.

(** The effect of a heartbeat frame, by the two flags. *)
Lemma heartbeat_run d st :
  post_type d = "meta_event" → meta_event_type d = "heartbeat" →
  let ref := length (objects st) in
  Run st (onEventMessage (JsonEvent d) st) (status_online d) (objects st ++ [d])
    ((if status_online d !== online st then
        [(if status_online d then "system.online" else "system.offline", PData ref d)]
      else []) ++ [("system", PData ref d)])
    (if (status_online d !== online st) && status_online d then
       [{| c_action := "get_version_info"; c_then := ThenVersionInfo |};
        {| c_action := "get_group_list"; c_then := ThenGroupList |};
        {| c_action := "get_friend_list"; c_then := ThenFriendList |}]
     else [])
    (if (status_online d !== online st) && status_online d then
       [{| rq_action := "get_version_info"; rq_params := ParamsObject [];
           rq_echo := newEcho (length (calls st)) |};
        {| rq_action := "get_group_list"; rq_params := ParamsObject [];
           rq_echo := newEcho (S (length (calls st))) |};
        {| rq_action := "get_friend_list"; rq_params := ParamsObject [];
           rq_echo := newEcho (S (S (length (calls st)))) |}]
     else []).
Proof.
  intros Hp Hm ref. subst ref.
  start st.
  unfold onEventMessage. rewrite Hp. exec.
  unfold onMetaEvent. rewrite Hm. exec.
  destruct (status_online d) eqn:Hd, on0; exec;
    cbn [length app orEmpty] in *; rewrite ?Nat.add_succ_r, ?Nat.add_0_r in *;
    done_running.
Qed.

(** C4. A heartbeat frame leaves the online flag equal to the flag it
    carries. When the two flags differed, exactly one transition event is
    published, [system.online] or [system.offline] according to the new
    flag; when they were equal, none is. On becoming online the three
    refreshes are issued, in the order version info, group directory, friend
    directory, and each writes its request. In every case the generic
    [system] event is published exactly once, last. *)
Theorem heartbeat_transition d st :
  post_type d = "meta_event" → meta_event_type d = "heartbeat" →
  let st' := onEventMessage (JsonEvent d) st in
  let pay := PData (length (objects st)) d in
  let c := length (calls st) in
  let changed := status_online d !== online st in
  online st' = status_online d ∧
  published st' =
    published st ++
    (if changed then
       [(if status_online d then "system.online" else "system.offline", pay)]
     else []) ++
    [("system", pay)] ∧
  calls st' =
    calls st ++
    (if changed && status_online d then
       [{| c_action := "get_version_info"; c_then := ThenVersionInfo |};
        {| c_action := "get_group_list"; c_then := ThenGroupList |};
        {| c_action := "get_friend_list"; c_then := ThenFriendList |}]
     else []) ∧
  sent st' =
    sent st ++
    (if changed && status_online d then
       [{| rq_action := "get_version_info"; rq_params := ParamsObject [];
           rq_echo := newEcho c |};
        {| rq_action := "get_group_list"; rq_params := ParamsObject [];
           rq_echo := newEcho (S c) |};
        {| rq_action := "get_friend_list"; rq_params := ParamsObject [];
           rq_echo := newEcho (S (S c)) |}]
     else []).
Proof.
  intros Hp Hm st' pay c changed.
  destruct (heartbeat_run d st Hp Hm) as [Hon _ _ _ _ Hpub Hcalls Hsent _ _].
  done.
Qed.

(** The effect of a group-member-increase notice. *)
Lemma group_increase_run d st :
  post_type d = "notice" → notice_type d = "group_increase" →
  let ref := length (objects st) in
  ∃ rqs,
    Run st (onEventMessage (JsonEvent d) st) (online st) (objects st ++ [d])
      [("notice.group.increase", PData ref d);
       (if user_id d === uin st then "notice.group.increase"
        else "notice.group.member_increase", PData ref d);
       ("notice.group", PData ref d); ("notice", PData ref d)]
      (if user_id d === uin st then
         [{| c_action := "get_group_list"; c_then := ThenGroupList |}]
       else [])
      rqs.
Proof.
  intros Hp Hn ref. subst ref.
  start st.
  unfold onEventMessage. rewrite Hp. exec.
  unfold onNotice. rewrite (not_private_group_increase d Hn), Hn. exec.
  destruct (user_id d === uin st) eqn:Hu; exec; eexists; done_running.
Qed.

(** C5. A group-member-increase notice publishes [notice.group.increase]
    first. When the joining user is the client itself, the group directory
    is refreshed and [notice.group.increase] is published a second time, and
    [notice.group.member_increase] is not published; otherwise
    [notice.group.member_increase] is published once and no request is
    issued. The two generic events follow. *)
Theorem group_increase_publishes d st :
  post_type d = "notice" → notice_type d = "group_increase" →
  let st' := onEventMessage (JsonEvent d) st in
  let pay := PData (length (objects st)) d in
  published st' =
    published st ++
    [("notice.group.increase", pay);
     (if user_id d === uin st then "notice.group.increase"
      else "notice.group.member_increase", pay);
     ("notice.group", pay); ("notice", pay)] ∧
  calls st' =
    calls st ++
    (if user_id d === uin st then
       [{| c_action := "get_group_list"; c_then := ThenGroupList |}]
     else []).
Proof.
  intros Hp Hn st' pay.
  destruct (group_increase_run d st Hp Hn) as (rqs & [_ _ _ _ _ Hpub Hcalls _ _ _]).
  done.
Qed.

(** The effect of a message frame of the normal group sub-type. *)
Lemma group_message_run d st :
  post_type d = "message" → sub_type d = "normal" →
  let ref := length (objects st) in
  let d' := groupMessage ref (uin st) d in
  Run st (onEventMessage (JsonEvent d) st) (online st) (objects st ++ [d'])
    [("message.group.normal", PData ref d'); ("message.group", PData ref d');
     ("message", PData ref d')] [] [].
Proof.
  intros Hp Hs ref d'. subst ref d'.
  start st.
  unfold onEventMessage. rewrite Hp. exec.
  unfold onMessage. rewrite Hs. exec.
  done_running.
Qed.

(** C8. A message frame of the normal group sub-type publishes
    [message.group.normal], [message.group] and [message], in that order
    and nothing else. The three publications, and every invocation of a
    listener they cause, carry one and the same frame object, and that
    object has its [reply], [recall], [kick] and [ban] closures set. *)
Theorem group_message_publishes d st :
  post_type d = "message" → sub_type d = "normal" →
  let st' := onEventMessage (JsonEvent d) st in
  let ref := length (objects st) in
  ∃ d',
    published st' =
      published st ++
      [("message.group.normal", PData ref d'); ("message.group", PData ref d');
       ("message", PData ref d')] ∧
    Forall (λ dl, dl_payload dl = PData ref d')
      (drop (length (delivered st)) (delivered st')) ∧
    objects st' !! ref = Some d' ∧
    reply d' = Some (ReplyGroup ref) ∧ recall d' = Some (Recall ref) ∧
    kick d' = Some (Kick ref) ∧ ban d' = Some (Ban ref).
Proof.
  intros Hp Hs st' ref.
  destruct (group_message_run d st Hp Hs) as [_ Hobj _ _ _ Hpub _ _ _ (dls & Hdl & Hall)].
  exists (groupMessage ref (uin st) d).
  split; [done|]. split.
  { fold st' in Hdl. rewrite Hdl, drop_app_length.
    eapply Forall_impl; [exact Hall|].
    intros dl. cbn [fmap list_fmap app snd].
    rewrite !elem_of_cons, elem_of_nil. intros [?|[?|[?|[]]]]; done. }
  split; [|done].
  fold st' in Hobj. rewrite Hobj. by apply list_lookup_middle.
Qed.

(** The effect of the close of the event socket while online. *)
Lemma close_run st :
  online st = true →
  Run st (onEventClose st) false (objects st) [("system.offline", PNull)] [] [].
Proof.
  intros Hon. unfold onEventClose.
  start st. exec. destruct on0; [|discriminate]. exec. done_running.
Qed.

(** C9. When the event socket closes while the client is online, the flag
    becomes false and [system.offline] is published once, with [null] for
    payload; when the client is offline already, nothing changes at all. In
    both cases no socket is opened or closed by the client. *)
Theorem close_goes_offline st :
  let st' := onEventClose st in
  online st' = false ∧
  published st' = published st ++ (if online st then [("system.offline", PNull)] else []) ∧
  wsOps st' = wsOps st ∧
  (online st = false → st' = st).
Proof.
  intros st'. destruct (online st) eqn:Hon.
  - destruct (close_run st Hon) as [? _ _ _ _ ? _ _ ? _]. done.
  - subst st'. unfold onEventClose, withState. rewrite Hon.
    cbn [when]. by rewrite app_nil_r.
Qed.

(** C2. A call of [fetchApi] made while the client is offline is resolved
    within the call, once, with the failed response of code 401 and message
    [Not_Login] that carries the call's identifier; nothing is written to
    the socket, no timer is set and the correlation table is left alone. *)
Theorem fetchApi_offline_rejects action params k st :
  online st = false →
  let c := length (calls st) in
  let st' := (fetchApi action params k st).2 in
  (fetchApi action params k st).1 = inr c ∧
  resolutions st' =
    resolutions st ++
    [{| r_call := c; r_time := now st;
        r_data := {| retcode := 401; status := "failed"; data := DNull;
                     msg := "Not_Login"; wording := "未登录"; echo := newEcho c |} |}] ∧
  sent st' = sent st ∧ apiMap st' = apiMap st ∧ timers st' = timers st.
Proof.
  intros Hon c st'. subst c st'.
  unfold fetchApi. rewrite Hon. cbn [negb fst snd].
  destruct (resolve_shape (length (calls st)) (notLogin (newEcho (length (calls st))))
              (set_calls (calls st ++ [{| c_action := action; c_then := k |}]) st))
    as (js & ->).
  done.
Qed.

(** ** The other branches of the dispatcher

    A frame is taken to have the members that its type promises, [sender],
    [anonymous] and [file] among them: the handler reads them for its log
    lines, which are left out here. *)

(** A private message, from a friend or through a group. *)
Lemma private_message_run d st :
  post_type d = "message" → sub_type d = "friend" ∨ sub_type d = "group" →
  let ref := length (objects st) in
  let d' := privateMessage ref (uin st) d in
  Run st (onEventMessage (JsonEvent d) st) (online st) (objects st ++ [d'])
    [("message.private." +:+ sub_type d, PData ref d'); ("message.private", PData ref d');
     ("message", PData ref d')] [] [].
Proof.
  intros Hp Hs ref d'. subst ref d'.
  start st.
  unfold onEventMessage. rewrite Hp. exec.
  unfold onMessage. destruct Hs as [Hs|Hs]; rewrite Hs; exec; done_running.
Qed.

Lemma anonymous_message_run d st :
  post_type d = "message" → sub_type d = "anonymous" →
  let ref := length (objects st) in
  let d' := groupMessage ref (uin st) d in
  Run st (onEventMessage (JsonEvent d) st) (online st) (objects st ++ [d'])
    [("message.group.anonymous", PData ref d'); ("message.group", PData ref d');
     ("message", PData ref d')] [] [].
Proof.
  intros Hp Hs ref d'. subst ref d'.
  start st.
  unfold onEventMessage. rewrite Hp. exec.
  unfold onMessage. rewrite Hs. exec.
  done_running.
Qed.

Lemma other_message_run d st :
  post_type d = "message" →
  sub_type d ∉ ["friend"; "group"; "normal"; "anonymous"] →
  let ref := length (objects st) in
  let d' := prepared (uin st) d in
  Run st (onEventMessage (JsonEvent d) st) (online st) (objects st ++ [d'])
    [("message", PData ref d')] [] [].
Proof.
  intros Hp Hs ref d'. subst ref d'.
  rewrite !not_elem_of_cons in Hs. destruct Hs as (H1 & H2 & H3 & H4 & _).
  start st.
  unfold onEventMessage. rewrite Hp. exec.
  unfold onMessage.
  rewrite (bool_decide_eq_false_2 _ H1), (bool_decide_eq_false_2 _ H2),
    (bool_decide_eq_false_2 _ H3), (bool_decide_eq_false_2 _ H4).
  exec. done_running.
Qed.

(** A meta event other than a heartbeat. *)
Lemma meta_event_run d st :
  post_type d = "meta_event" → meta_event_type d ≠ "heartbeat" →
  let ref := length (objects st) in
  Run st (onEventMessage (JsonEvent d) st) (online st) (objects st ++ [d])
    ((if meta_event_type d === "lifecycle" then [("system.lifecycle", PData ref d)] else [])
       ++ [("system", PData ref d)]) [] [].
Proof.
  intros Hp Hm ref. subst ref.
  start st.
  unfold onEventMessage. rewrite Hp. exec.
  unfold onMetaEvent. rewrite (bool_decide_eq_false_2 _ Hm).
  destruct (meta_event_type d === "lifecycle"); exec; done_running.
Qed.

Lemma private_friend_notice d kind :
  notice_type d = noticeName "friend" kind → kind ∈ ["add"; "recall"] →
  checkNoticePrivateEvent d = true.
Proof.
  intros Hn Hk. unfold checkNoticePrivateEvent. rewrite Hn.
  apply bool_decide_eq_true_2.
  rewrite !elem_of_cons in Hk. destruct Hk as [->|[->|[]%elem_of_nil]]; set_solver.
Qed.

Lemma not_private_notice d :
  notice_type d ≠ "friend_add" → notice_type d ≠ "friend_recall" →
  checkNoticePrivateEvent d = false.
Proof.
  intros H1 H2. unfold checkNoticePrivateEvent. apply bool_decide_eq_false_2.
  rewrite !elem_of_cons, elem_of_nil. tauto.
Qed.

Lemma friend_notice_run d kind st :
  post_type d = "notice" → notice_type d = noticeName "friend" kind →
  kind ∈ ["add"; "recall"] →
  let ref := length (objects st) in
  ∃ rqs,
    Run st (onEventMessage (JsonEvent d) st) (online st) (objects st ++ [d])
      [("notice.friend." +:+ kind, PData ref d); ("notice", PData ref d)]
      (if kind === "add" then
         [{| c_action := "get_friend_list"; c_then := ThenFriendList |}]
       else [])
      rqs.
Proof.
  intros Hp Hn Hk ref. subst ref.
  start st.
  unfold onEventMessage. rewrite Hp. exec.
  unfold onNotice. rewrite (private_friend_notice d kind Hn Hk), Hn.
  rewrite !elem_of_cons in Hk. destruct Hk as [->|[->|[]%elem_of_nil]];
    unfold noticeName; cbn [String.append]; exec; eexists; done_running.
Qed.

Lemma group_decrease_run d st :
  post_type d = "notice" → notice_type d = "group_decrease" →
  let ref := length (objects st) in
  let mine := (sub_type d === "kick_me") || (user_id d === uin st) in
  ∃ rqs,
    Run st (onEventMessage (JsonEvent d) st) (online st) (objects st ++ [d])
      [(if mine then "notice.group.decrease" else "notice.group.member_decrease",
        PData ref d);
       ("notice.group", PData ref d); ("notice", PData ref d)]
      (if mine then [{| c_action := "get_group_list"; c_then := ThenGroupList |}] else [])
      rqs.
Proof.
  intros Hp Hn ref mine. subst ref mine.
  start st.
  unfold onEventMessage. rewrite Hp. exec.
  unfold onNotice. rewrite not_private_notice by (rewrite Hn; discriminate).
  rewrite Hn. exec.
  destruct (sub_type d === "kick_me"), (user_id d === uin st); exec; eexists; done_running.
Qed.

Lemma group_notice_run d kind st :
  post_type d = "notice" → notice_type d = noticeName "group" kind →
  kind ∈ ["recall"; "admin"; "upload"; "ban"] →
  let ref := length (objects st) in
  Run st (onEventMessage (JsonEvent d) st) (online st) (objects st ++ [d])
    [("notice.group." +:+ kind, PData ref d); ("notice.group", PData ref d);
     ("notice", PData ref d)] [] [].
Proof.
  intros Hp Hn Hk ref. subst ref.
  start st.
  unfold onEventMessage. rewrite Hp. exec.
  unfold onNotice.
  rewrite !elem_of_cons in Hk.
  destruct Hk as [->|[->|[->|[->|[]%elem_of_nil]]]];
    unfold noticeName in Hn; cbn [String.append] in Hn;
    (rewrite not_private_notice by (rewrite Hn; discriminate));
    rewrite Hn; exec; done_running.
Qed.

Lemma notify_run d st :
  post_type d = "notice" → notice_type d = "notify" →
  let ref := length (objects st) in
  Run st (onEventMessage (JsonEvent d) st) (online st) (objects st ++ [d])
    ((if bool_decide (sub_type d ∈ ["lucky_king"; "honor"; "poke"])
      then [("notice.group." +:+ sub_type d, PData ref d)] else [])
       ++ [("notice.group", PData ref d); ("notice", PData ref d)]) [] [].
Proof.
  intros Hp Hn ref. subst ref.
  start st.
  unfold onEventMessage. rewrite Hp. exec.
  unfold onNotice. rewrite not_private_notice by (rewrite Hn; discriminate).
  rewrite Hn. exec.
  destruct (decide (sub_type d = "lucky_king")) as [Hs|H1];
    [rewrite Hs; exec; done_running|].
  destruct (decide (sub_type d = "honor")) as [Hs|H2];
    [rewrite Hs; exec; done_running|].
  destruct (decide (sub_type d = "poke")) as [Hs|H3];
    [rewrite Hs; exec; done_running|].
  rewrite (bool_decide_eq_false_2 (sub_type d ∈ _))
    by (rewrite !elem_of_cons, elem_of_nil; tauto).
  rewrite (bool_decide_eq_false_2 _ H1), (bool_decide_eq_false_2 _ H2),
    (bool_decide_eq_false_2 _ H3).
  exec. done_running.
Qed.

Lemma unknown_notice_run d st :
  post_type d = "notice" →
  notice_type d ∉ ["friend_add"; "friend_recall"; "group_recall"; "group_increase";
                   "group_decrease"; "group_admin"; "group_upload"; "group_ban"; "notify"] →
  let ref := length (objects st) in
  Run st (onEventMessage (JsonEvent d) st) (online st) (objects st ++ [d])
    [("notice.group", PData ref d); ("notice", PData ref d)] [] [].
Proof.
  intros Hp Hn ref. subst ref.
  rewrite !not_elem_of_cons in Hn.
  destruct Hn as (H1 & H2 & H3 & H4 & H5 & H6 & H7 & H8 & H9 & _).
  start st.
  unfold onEventMessage. rewrite Hp. exec.
  unfold onNotice. rewrite not_private_notice by done.
  rewrite (bool_decide_eq_false_2 _ H3), (bool_decide_eq_false_2 _ H4),
    (bool_decide_eq_false_2 _ H5), (bool_decide_eq_false_2 _ H6),
    (bool_decide_eq_false_2 _ H7), (bool_decide_eq_false_2 _ H8),
    (bool_decide_eq_false_2 _ H9).
  exec. done_running.
Qed.

Lemma request_run d st :
  post_type d = "request" →
  let ref := length (objects st) in
  let d' :=
    if request_type d === "friend" then with_approve (Some (ApproveFriend ref)) d
    else if request_type d === "group" then with_approve (Some (ApproveGroup ref)) d
    else d in
  Run st (onEventMessage (JsonEvent d) st) (online st) (objects st ++ [d'])
    ((if bool_decide (request_type d ∈ ["friend"; "group"])
      then [("request." +:+ request_type d, PData ref d')] else [])
       ++ [("request", PData ref d')]) [] [].
Proof.
  intros Hp ref d'. subst ref d'.
  start st.
  unfold onEventMessage. rewrite Hp. exec.
  unfold onRequest.
  destruct (decide (request_type d = "friend")) as [Hs|H1];
    [rewrite Hs; exec; done_running|].
  destruct (decide (request_type d = "group")) as [Hs|H2];
    [rewrite Hs; exec; done_running|].
  rewrite (bool_decide_eq_false_2 (request_type d ∈ _))
    by (rewrite !elem_of_cons, elem_of_nil; tauto).
  rewrite (bool_decide_eq_false_2 _ H1), (bool_decide_eq_false_2 _ H2).
  exec. done_running.
Qed.

Lemma unknown_frame_run d st :
  post_type d ∉ ["meta_event"; "message"; "notice"; "request"] →
  Run st (onEventMessage (JsonEvent d) st) (online st) (objects st ++ [d]) [] [] [].
Proof.
  intros Hp.
  rewrite !not_elem_of_cons in Hp. destruct Hp as (H1 & H2 & H3 & H4 & _).
  start st.
  unfold onEventMessage.
  rewrite (bool_decide_eq_false_2 _ H1), (bool_decide_eq_false_2 _ H2),
    (bool_decide_eq_false_2 _ H3), (bool_decide_eq_false_2 _ H4).
  exec. done_running.
Qed.

Lemma normalise_closures d :
  reply (normalise d) = reply d ∧ recall (normalise d) = recall d ∧
  kick (normalise d) = kick d ∧ ban (normalise d) = ban d ∧
  message (normalise d) = MsgElems (elementsOf d).
Proof.
  unfold normalise, elementsOf.
  destruct (message d) eqn:Hm; simpl; rewrite ?Hm; by repeat split.
Qed.

Lemma objects_last (st' : Client) objs d' :
  objects st' = objs ++ [d'] → objects st' !! length objs = Some d'.
Proof. intros ->. by apply list_lookup_middle. Qed.

(** X10. A private message frame, of sub-type [friend] or [group],
    publishes [message.private.friend] or [message.private.group], then
    [message.private], then [message], all three with the frame object; the
    object has a [reply] closure that answers privately, and the dispatcher
    gives it no [recall], [kick] or [ban]. No request is made. *)
Theorem private_message_publishes d st :
  post_type d = "message" → sub_type d = "friend" ∨ sub_type d = "group" →
  let st' := onEventMessage (JsonEvent d) st in
  let ref := length (objects st) in
  ∃ d',
    published st' =
      published st ++
      [("message.private." +:+ sub_type d, PData ref d'); ("message.private", PData ref d');
       ("message", PData ref d')] ∧
    objects st' !! ref = Some d' ∧
    reply d' = Some (ReplyPrivate ref) ∧
    recall d' = recall d ∧ kick d' = kick d ∧ ban d' = ban d ∧
    calls st' = calls st ∧ sent st' = sent st.
Proof.
  intros Hp Hs st' ref.
  destruct (private_message_run d st Hp Hs) as [_ Hobj _ _ _ Hpub Hcalls Hsent _ _].
  destruct (normalise_closures d) as (_ & ? & ? & ? & _).
  exists (privateMessage ref (uin st) d).
  split; [done|]. split; [by apply objects_last|].
  rewrite app_nil_r in Hcalls, Hsent. done.
Qed.

(** X11. An anonymous group message frame publishes
    [message.group.anonymous], then [message.group], then [message], all
    three with the frame object, which has its [reply], [recall], [kick] and
    [ban] closures set as for a normal group message. *)
Theorem anonymous_message_publishes d st :
  post_type d = "message" → sub_type d = "anonymous" →
  let st' := onEventMessage (JsonEvent d) st in
  let ref := length (objects st) in
  ∃ d',
    published st' =
      published st ++
      [("message.group.anonymous", PData ref d'); ("message.group", PData ref d');
       ("message", PData ref d')] ∧
    objects st' !! ref = Some d' ∧
    reply d' = Some (ReplyGroup ref) ∧ recall d' = Some (Recall ref) ∧
    kick d' = Some (Kick ref) ∧ ban d' = Some (Ban ref) ∧
    calls st' = calls st ∧ sent st' = sent st.
Proof.
  intros Hp Hs st' ref.
  destruct (anonymous_message_run d st Hp Hs) as [_ Hobj _ _ _ Hpub Hcalls Hsent _ _].
  exists (groupMessage ref (uin st) d).
  split; [done|]. split; [by apply objects_last|].
  rewrite app_nil_r in Hcalls, Hsent. done.
Qed.

(** X12. A message frame whose sub-type is none of [friend], [group],
    [normal] and [anonymous] publishes [message] only, and the dispatcher
    attaches no closure to it: a listener of [message] cannot count on
    [reply] being there. *)
Theorem other_message_publishes d st :
  post_type d = "message" →
  sub_type d ∉ ["friend"; "group"; "normal"; "anonymous"] →
  let st' := onEventMessage (JsonEvent d) st in
  let ref := length (objects st) in
  ∃ d',
    published st' = published st ++ [("message", PData ref d')] ∧
    objects st' !! ref = Some d' ∧
    reply d' = reply d ∧ recall d' = recall d ∧ kick d' = kick d ∧ ban d' = ban d ∧
    calls st' = calls st.
Proof.
  intros Hp Hs st' ref.
  destruct (other_message_run d st Hp Hs) as [_ Hobj _ _ _ Hpub Hcalls _ _ _].
  destruct (normalise_closures d) as (? & ? & ? & ? & _).
  exists (prepared (uin st) d).
  split; [done|]. split; [by apply objects_last|].
  rewrite app_nil_r in Hcalls. done.
Qed.

Lemma findAtMe_spec uin0 d :
  findAtMe uin0 (normalise d) = true ↔
  ∃ el, el ∈ elementsOf d ∧ el_type el = "at" ∧ parseInt (el_qq el) = Some uin0.
Proof.
  unfold findAtMe. destruct (normalise_closures d) as (_ & _ & _ & _ & ->).
  rewrite bool_decide_eq_true. split.
  - intros [el Hel]. apply find_some in Hel as [Hin Hat].
    exists el. split; [by apply list_elem_of_In|].
    unfold isAtMe in Hat. apply andb_prop in Hat as [H1 H2].
    by apply bool_decide_eq_true in H1, H2.
  - intros (el & Hin & H1 & H2).
    destruct (find (isAtMe uin0) (elementsOf d)) as [x|] eqn:Hfind; [by eexists|].
    exfalso. apply list_elem_of_In in Hin.
    pose proof (find_none _ _ Hfind el Hin) as Hno.
    unfold isAtMe in Hno. rewrite (bool_decide_eq_true_2 _ H1) in Hno.
    by rewrite (bool_decide_eq_true_2 _ H2) in Hno.
Qed.

(** X13. Every message frame, whatever its sub-type, is published under
    [message] last, and the object published has its message as an array of
    elements, a text message being converted by [toMessageRecepElem] first,
    and has [atMe] set: to true exactly when one of those elements has the
    type [at] and a [qq] that [Number.parseInt] reads as the client's
    identity. *)
Theorem message_frame_sets_atMe d st :
  post_type d = "message" →
  let st' := onEventMessage (JsonEvent d) st in
  let ref := length (objects st) in
  ∃ d' b,
    last (published st') = Some ("message", PData ref d') ∧
    objects st' !! ref = Some d' ∧
    message d' = MsgElems (elementsOf d) ∧
    atMe d' = Some b ∧
    (b = true ↔
     ∃ el, el ∈ elementsOf d ∧ el_type el = "at" ∧ parseInt (el_qq el) = Some (uin st)).
Proof.
  intros Hp st' ref.
  destruct (normalise_closures d) as (_ & _ & _ & _ & Hmsg).
  assert (∃ d' pubs,
            published st' = (published st ++ pubs) ++ [("message", PData ref d')] ∧
            objects st' = objects st ++ [d'] ∧
            message d' = message (normalise d) ∧
            atMe d' = Some (findAtMe (uin st) (normalise d)))
    as (d' & pubs & Hpub & Hobj & Hm & Ha).
  { destruct (decide (sub_type d = "friend" ∨ sub_type d = "group")) as [Hs|H12].
    { destruct (private_message_run d st Hp Hs) as [_ Hobj _ _ _ Hpub _ _ _ _].
      eexists _, [_; _]. rewrite <- app_assoc.
      split; [exact Hpub|]. split; [exact Hobj|]. split; reflexivity. }
    destruct (decide (sub_type d = "normal")) as [Hs|H3].
    { destruct (group_message_run d st Hp Hs) as [_ Hobj _ _ _ Hpub _ _ _ _].
      eexists _, [_; _]. rewrite <- app_assoc.
      split; [exact Hpub|]. split; [exact Hobj|]. split; reflexivity. }
    destruct (decide (sub_type d = "anonymous")) as [Hs|H4].
    { destruct (anonymous_message_run d st Hp Hs) as [_ Hobj _ _ _ Hpub _ _ _ _].
      eexists _, [_; _]. rewrite <- app_assoc.
      split; [exact Hpub|]. split; [exact Hobj|]. split; reflexivity. }
    assert (sub_type d ∉ ["friend"; "group"; "normal"; "anonymous"]) as Hs.
    { rewrite !not_elem_of_cons. split_and!; try tauto. apply not_elem_of_nil. }
    destruct (other_message_run d st Hp Hs) as [_ Hobj _ _ _ Hpub _ _ _ _].
    eexists _, []. rewrite app_nil_r.
    split; [exact Hpub|]. split; [exact Hobj|]. split; reflexivity. }
  exists d', (findAtMe (uin st) (normalise d)).
  split; [by rewrite Hpub, last_snoc|]. split; [by apply objects_last|].
  split; [by rewrite Hm|]. split; [done|]. apply findAtMe_spec.
Qed.

(** X14. A meta event frame that is not a heartbeat never touches the
    online flag and makes no request: a [lifecycle] frame publishes
    [system.lifecycle] and then [system]; any other one publishes [system]
    only. *)
Theorem meta_event_publishes d st :
  post_type d = "meta_event" → meta_event_type d ≠ "heartbeat" →
  let st' := onEventMessage (JsonEvent d) st in
  let pay := PData (length (objects st)) d in
  published st' =
    published st ++
    (if meta_event_type d === "lifecycle" then [("system.lifecycle", pay)] else []) ++
    [("system", pay)] ∧
  online st' = online st ∧ calls st' = calls st ∧ sent st' = sent st.
Proof.
  intros Hp Hm st' pay.
  destruct (meta_event_run d st Hp Hm) as [Hon _ _ _ _ Hpub Hcalls Hsent _ _].
  rewrite app_nil_r in Hcalls, Hsent. done.
Qed.

(** X15. A [friend_add] notice refreshes the friend directory and
    publishes [notice.friend.add] and then [notice]; a [friend_recall]
    notice publishes [notice.friend.recall] and then [notice] and makes no
    call. Neither is published under [notice.group]. *)
Theorem friend_notice_publishes d kind st :
  post_type d = "notice" → notice_type d = noticeName "friend" kind →
  kind ∈ ["add"; "recall"] →
  let st' := onEventMessage (JsonEvent d) st in
  let pay := PData (length (objects st)) d in
  published st' = published st ++ [("notice.friend." +:+ kind, pay); ("notice", pay)] ∧
  calls st' =
    calls st ++
    (if kind === "add" then [{| c_action := "get_friend_list"; c_then := ThenFriendList |}]
     else []).
Proof.
  intros Hp Hn Hk st' pay.
  destruct (friend_notice_run d kind st Hp Hn Hk) as (rqs & [_ _ _ _ _ Hpub Hcalls _ _ _]).
  done.
Qed.

(** X16. A [group_decrease] notice: when its sub-type is [kick_me] or the
    user that left is the client itself, the group directory is refreshed
    and [notice.group.decrease] is published; otherwise
    [notice.group.member_decrease] is published and no call is made. The
    generic [notice.group] and [notice] follow. *)
Theorem group_decrease_publishes d st :
  post_type d = "notice" → notice_type d = "group_decrease" →
  let st' := onEventMessage (JsonEvent d) st in
  let pay := PData (length (objects st)) d in
  let mine := (sub_type d === "kick_me") || (user_id d === uin st) in
  published st' =
    published st ++
    [(if mine then "notice.group.decrease" else "notice.group.member_decrease", pay);
     ("notice.group", pay); ("notice", pay)] ∧
  calls st' =
    calls st ++
    (if mine then [{| c_action := "get_group_list"; c_then := ThenGroupList |}] else []).
Proof.
  intros Hp Hn st' pay mine.
  destruct (group_decrease_run d st Hp Hn) as (rqs & [_ _ _ _ _ Hpub Hcalls _ _ _]).
  done.
Qed.

(** X17. A [group_recall], [group_admin], [group_upload] or [group_ban]
    notice publishes the event of its kind, [notice.group.recall] and so
    on, then [notice.group], then [notice], and makes no call. *)
Theorem group_notice_publishes d kind st :
  post_type d = "notice" → notice_type d = noticeName "group" kind →
  kind ∈ ["recall"; "admin"; "upload"; "ban"] →
  let st' := onEventMessage (JsonEvent d) st in
  let pay := PData (length (objects st)) d in
  published st' =
    published st ++ [("notice.group." +:+ kind, pay); ("notice.group", pay); ("notice", pay)] ∧
  calls st' = calls st.
Proof.
  intros Hp Hn Hk st' pay.
  destruct (group_notice_run d kind st Hp Hn Hk) as [_ _ _ _ _ Hpub Hcalls _ _ _].
  rewrite app_nil_r in Hcalls. done.
Qed.

(** X18. A [notify] notice publishes the event of its sub-type when that
    is [lucky_king], [honor] or [poke], and nothing of its own otherwise;
    [notice.group] and [notice] follow in both cases. *)
Theorem notify_publishes d st :
  post_type d = "notice" → notice_type d = "notify" →
  let st' := onEventMessage (JsonEvent d) st in
  let pay := PData (length (objects st)) d in
  published st' =
    published st ++
    (if bool_decide (sub_type d ∈ ["lucky_king"; "honor"; "poke"])
     then [("notice.group." +:+ sub_type d, pay)] else []) ++
    [("notice.group", pay); ("notice", pay)] ∧
  calls st' = calls st.
Proof.
  intros Hp Hn st' pay.
  destruct (notify_run d st Hp Hn) as [_ _ _ _ _ Hpub Hcalls _ _ _].
  rewrite app_nil_r in Hcalls. done.
Qed.

(** X19. A notice of a type the dispatcher does not know is still
    published, under [notice.group] and then [notice], as if it were about a
    group. *)
Theorem unknown_notice_publishes d st :
  post_type d = "notice" →
  notice_type d ∉ ["friend_add"; "friend_recall"; "group_recall"; "group_increase";
                   "group_decrease"; "group_admin"; "group_upload"; "group_ban"; "notify"] →
  let st' := onEventMessage (JsonEvent d) st in
  let pay := PData (length (objects st)) d in
  published st' = published st ++ [("notice.group", pay); ("notice", pay)] ∧
  calls st' = calls st.
Proof.
  intros Hp Hn st' pay.
  destruct (unknown_notice_run d st Hp Hn) as [_ _ _ _ _ Hpub Hcalls _ _ _].
  rewrite app_nil_r in Hcalls. done.
Qed.

(** X20. A request frame of type [friend] or [group] is given an
    [approve] closure of that type and published under [request.friend] or
    [request.group], then under [request]; a request frame of another type
    is published under [request] only, with no closure attached. *)
Theorem request_publishes d st :
  post_type d = "request" →
  let st' := onEventMessage (JsonEvent d) st in
  let ref := length (objects st) in
  ∃ d',
    published st' =
      published st ++
      (if bool_decide (request_type d ∈ ["friend"; "group"])
       then [("request." +:+ request_type d, PData ref d')] else []) ++
      [("request", PData ref d')] ∧
    objects st' !! ref = Some d' ∧
    approve d' =
      (if request_type d === "friend" then Some (ApproveFriend ref)
       else if request_type d === "group" then Some (ApproveGroup ref)
       else approve d) ∧
    calls st' = calls st.
Proof.
  intros Hp st' ref.
  destruct (request_run d st Hp) as [_ Hobj _ _ _ Hpub Hcalls _ _ _].
  rewrite app_nil_r in Hcalls.
  eexists. split; [exact Hpub|]. split; [by apply objects_last|]. split; [|done].
  by destruct (request_type d === "friend"), (request_type d === "group").
Qed.

(** X21. An event frame whose post type is none of [meta_event],
    [message], [notice] and [request] is dropped: nothing is published, no
    listener runs, no call is made and the online flag stays. *)
Theorem unknown_frame_is_dropped d st :
  post_type d ∉ ["meta_event"; "message"; "notice"; "request"] →
  let st' := onEventMessage (JsonEvent d) st in
  published st' = published st ∧ delivered st' = delivered st ∧
  calls st' = calls st ∧ sent st' = sent st ∧ online st' = online st.
Proof.
  intros Hp st'.
  destruct (unknown_frame_run d st Hp) as [Hon _ _ _ _ Hpub Hcalls Hsent _ (dls & Hdl & Hall)].
  rewrite app_nil_r in Hpub, Hcalls, Hsent.
  split; [done|]. split; [|done].
  destruct dls as [|dl dls]; [by rewrite app_nil_r in Hdl|].
  apply Forall_cons in Hall as [Hin _]. by apply elem_of_nil in Hin.
Qed.

Lemma sent_fetchApi_online action params k st :
  online st = true → logged action = false →
  sent (fetchApi_ action params k st) =
    sent st ++
    [{| rq_action := action; rq_params := orEmpty params;
        rq_echo := newEcho (length (calls st)) |}].
Proof.
  intros Hon Hlog.
  by destruct (fetchApi_online action params k st Hon (throws_unlogged _ _ Hlog)) as (am & ->).
Qed.

Ltac quick_tac Hon :=
  unfold callClosure, quickOperation;
  by rewrite (sent_fetchApi_online ".handle_quick_operation" _ _ _ Hon eq_refl).

(** X22. The closures that the dispatcher attaches to a group message,
    normal or anonymous, all go through [.handle_quick_operation] with the
    frame they were made for as context. Called while the client is online,
    [reply] writes one request whose operation is the content formatted by
    [formatSendMessage] with [at_sender] true unless the caller passes
    false; [recall], [kick] and [ban] write one request with the operation
    [delete], [kick], and [ban] with the duration given. *)
Theorem group_message_closures d st :
  post_type d = "message" → sub_type d = "normal" ∨ sub_type d = "anonymous" →
  let st1 := onEventMessage (JsonEvent d) st in
  let ref := length (objects st) in
  ∃ d' r rc k b,
    objects st1 !! ref = Some d' ∧
    reply d' = Some r ∧ recall d' = Some rc ∧ kick d' = Some k ∧ ban d' = Some b ∧
    ∀ st2, online st2 = true →
      let request op :=
        sent st2 ++
        [{| rq_action := ".handle_quick_operation"; rq_params := ParamsQuick ref op;
            rq_echo := newEcho (length (calls st2)) |}] in
      (∀ content at_sender,
         sent (callClosure r (Content content at_sender) st2) =
           request (OpReplyAt (formatSendMessage content) (default true at_sender))) ∧
      (∀ args, sent (callClosure rc args st2) = request OpDelete) ∧
      (∀ args, sent (callClosure k args st2) = request OpKick) ∧
      (∀ seconds, sent (callClosure b (Duration seconds) st2) = request (OpBan seconds)).
Proof.
  intros Hp Hs st1 ref.
  assert (objects st1 = objects st ++ [groupMessage ref (uin st) d]) as Hobj.
  { destruct Hs as [Hs|Hs].
    - by destruct (group_message_run d st Hp Hs) as [_ Hobj _ _ _ _ _ _ _ _].
    - by destruct (anonymous_message_run d st Hp Hs) as [_ Hobj _ _ _ _ _ _ _ _]. }
  exists (groupMessage ref (uin st) d), (ReplyGroup ref), (Recall ref), (Kick ref), (Ban ref).
  split; [by apply objects_last|]. do 4 (split; [done|]).
  intros st2 Hon request. subst request. cbv beta.
  split; [|split; [|split]].
  - intros content at_sender. quick_tac Hon.
  - intros args. destruct args; quick_tac Hon.
  - intros args. destruct args; quick_tac Hon.
  - intros seconds. quick_tac Hon.
Qed.

(** X23. The [reply] closure of a private message and the [approve]
    closure of a request go through [.handle_quick_operation] too, with
    their frame as context: [reply] writes the formatted content and no
    [at_sender]; [approve] writes the verdict with the text as [remark] for
    a friend request and as [reason] for a group request. *)
Theorem private_reply_and_approve_closures d st :
  (post_type d = "message" ∧ (sub_type d = "friend" ∨ sub_type d = "group")) ∨
  (post_type d = "request" ∧ (request_type d = "friend" ∨ request_type d = "group")) →
  let st1 := onEventMessage (JsonEvent d) st in
  let ref := length (objects st) in
  ∃ d' cl,
    objects st1 !! ref = Some d' ∧
    (if post_type d === "message" then reply d' else approve d') = Some cl ∧
    ∀ st2, online st2 = true →
      let request op :=
        sent st2 ++
        [{| rq_action := ".handle_quick_operation"; rq_params := ParamsQuick ref op;
            rq_echo := newEcho (length (calls st2)) |}] in
      (post_type d = "message" →
       ∀ content at_sender,
         sent (callClosure cl (Content content at_sender) st2) =
           request (OpReply (formatSendMessage content))) ∧
      (post_type d = "request" →
       ∀ ok text,
         sent (callClosure cl (Verdict ok text) st2) =
           request (if request_type d === "friend" then OpApproveRemark ok text
                    else OpApproveReason ok text)).
Proof.
  intros Hcase st1 ref.
  destruct Hcase as [[Hp Hs]|[Hp Hs]].
  - destruct (private_message_run d st Hp Hs) as [_ Hobj _ _ _ _ _ _ _ _].
    exists (privateMessage ref (uin st) d), (ReplyPrivate ref).
    split; [by apply objects_last|]. rewrite Hp.
    split; [done|]. intros st2 Hon request. subst request. cbv beta.
    split; [|discriminate].
    intros _ content at_sender. quick_tac Hon.
  - destruct (request_run d st Hp) as [_ Hobj _ _ _ _ _ _ _ _].
    eexists _, (if request_type d === "friend" then ApproveFriend ref else ApproveGroup ref).
    split; [by apply objects_last|]. rewrite Hp.
    split.
    { destruct Hs as [Hs|Hs]; rewrite Hs; by repeat decide_lit. }
    intros st2 Hon request. subst request. cbv beta.
    split; [discriminate|].
    intros _ ok text.
    destruct Hs as [Hs|Hs]; rewrite Hs; repeat decide_lit;
      quick_tac Hon.
Qed.

(** The handler of a [friend_add] notice, command by command. *)
Lemma friend_add_handler d st :
  post_type d = "notice" → notice_type d = "friend_add" →
  let ref := length (objects st) in
  onEventMessage (JsonEvent d) st =
    emitData "notice" ref
      (emitData "notice.friend.add" ref
         (setFriendList (set_objects (objects st ++ [d]) st))).
Proof.
  intros Hp Hn ref. subst ref.
  unfold onEventMessage. rewrite Hp. repeat decide_lit.
  rewrite withState_eq, !seq_eq, !when_false, when_true.
  unfold onNotice.
  rewrite (private_friend_notice d "add") by (done || set_solver).
  rewrite Hn. repeat decide_lit. by rewrite !seq_eq.
Qed.

End Dispatcher.

(** * The correlation of requests and responses *)

Section Correlator.

Implicit Types (st : Client) (c : nat) (e : string) (resp : ActionResponse) (t : Timer).

(** ** What each command does to the correlation *)

Lemma quiet_refl st : quiet st st.
Proof. by repeat split. Qed.

Lemma quiet_trans st1 st2 st3 : quiet st1 st2 → quiet st2 st3 → quiet st1 st3.
Proof. intros (?&?&?&?&?) (?&?&?&?&?). repeat split; congruence. Qed.

Lemma quiet_emit event p st : quiet st (emit event p st).
Proof. destruct (emit_shape event p st) as (em & items & ->). by repeat split. Qed.

Lemma quiet_runJob k resp st : quiet st (runJob k resp st).
Proof.
  destruct k; simpl; try apply quiet_refl.
  - by repeat split.
  - destruct (retcode resp === 0%Z); [destruct (data resp)|]; by repeat split.
  - destruct (retcode resp === 0%Z); [destruct (data resp)|]; by repeat split.
Qed.

Lemma quiet_drain st : quiet st (drain st).
Proof.
  unfold drain.
  assert (∀ js s, quiet st s → quiet st (foldl (λ s j, runJob j.1 j.2 s) s js)) as H.
  { induction js as [|j js IH]; intros s Hs; [done|]. simpl. apply IH.
    eapply quiet_trans; [done|apply quiet_runJob]. }
  apply H. by repeat split.
Qed.

Lemma quiet_off event l st : quiet st (off event l st).
Proof.
  unfold off. destruct (eventMap st !! event); [|apply quiet_refl].
  destruct (findIndex _ _); [by repeat split|apply quiet_refl].
Qed.

Lemma quiet_onHandle event l b st : quiet st (onHandle event l b st).
Proof. unfold onHandle. destruct (eventMap st !! event); by repeat split. Qed.

(** [clearTimeout] and [resolve], the two halves of a correlation
    listener. *)
Lemma resolve_core c resp st :
  apiMap (resolve c resp st) = apiMap st ∧
  timers (resolve c resp st) = timers st ∧
  resolutions (resolve c resp st) = resolutions st ++ [resolutionAt st resp c] ∧
  now (resolve c resp st) = now st ∧
  calls (resolve c resp st) = calls st.
Proof. destruct (resolve_shape c resp st) as (js & ->). by repeat split. Qed.

Lemma listeners_core resp (l : list nat) st :
  let st' := foldl (λ s c, (clearTimeout c ;; resolve c resp) s) st l in
  apiMap st' = apiMap st ∧
  timers st' = filter (λ t, t_call t ∉ l) (timers st) ∧
  resolutions st' = resolutions st ++ (resolutionAt st resp <$> l) ∧
  now st' = now st ∧
  calls st' = calls st.
Proof.
  revert st. induction l as [|c l IH]; intros st; simpl.
  - rewrite app_nil_r. repeat split; try done.
    induction (timers st) as [|t ts IHt]; [done|].
    rewrite filter_cons_True; [by f_equal|]. by intros ?%elem_of_nil.
  - destruct (IH ((clearTimeout c ;; resolve c resp) st)) as (Ha & Ht & Hr & Hn & Hc).
    destruct (resolve_core c resp (clearTimeout c st)) as (Ha' & Ht' & Hr' & Hn' & Hc').
    unfold seq in *. rewrite Ha, Ht, Hr, Hn, Hc, Ha', Ht', Hr', Hn', Hc'. simpl.
    repeat split; try done.
    + rewrite list_filter_filter. apply list_filter_iff. intros t.
      rewrite elem_of_cons. simpl. tauto.
    + unfold resolutionAt. rewrite Hn'. simpl. by rewrite <- app_assoc.
Qed.

(** [emitApi] hands the response to every listener filed under the
    identifier, clears their timers and removes the entry. *)
Lemma emitApi_core e resp st :
  let l := apiListeners e st in
  apiMap (emitApi e resp st) = delete e (apiMap st) ∧
  timers (emitApi e resp st) = filter (λ t, t_call t ∉ l) (timers st) ∧
  resolutions (emitApi e resp st) = resolutions st ++ (resolutionAt st resp <$> l) ∧
  now (emitApi e resp st) = now st ∧
  calls (emitApi e resp st) = calls st.
Proof.
  intros l. unfold emitApi. fold l.
  destruct (listeners_core resp l st) as (Ha & Ht & Hr & Hn & Hc). simpl in *.
  rewrite Ha. done.
Qed.

(** A timer callback: the timer is gone, and [emitApi] runs. *)
Lemma onTimeout_core t st :
  t_call t ∈ apiListeners (t_echo t) st →
  let l := apiListeners (t_echo t) st in
  let resp := requestTimeout (t_action t) (t_echo t) in
  let st' := onTimeout t (clearTimeout (t_call t) st) in
  apiMap st' = delete (t_echo t) (apiMap st) ∧
  timers st' = filter (λ t', t_call t' ∉ l) (timers st) ∧
  resolutions st' = resolutions st ++ (resolutionAt st resp <$> l) ∧
  now st' = now st ∧
  calls st' = calls st.
Proof.
  intros Hin l resp st'. subst st'. unfold onTimeout. fold resp.
  destruct (emitApi_core (t_echo t) resp (clearTimeout (t_call t) st))
    as (Ha & Ht & Hr & Hn & Hc).
  rewrite Ha, Ht, Hr, Hn, Hc. simpl. repeat split; try done.
  rewrite list_filter_filter. apply list_filter_iff. intros t'.
  fold l. split; [tauto|]. intros Hnot. split; [done|].
  intros Heq. apply Hnot. by rewrite Heq.
Qed.

(** [fetchApi], online and offline. *)
Lemma fetchApi_online_core action params k st :
  online st = true → throws action params = false →
  let c := length (calls st) in
  let st' := fetchApi_ action params k st in
  apiMap st' = <[newEcho c := apiListeners (newEcho c) st ++ [c]]> (apiMap st) ∧
  timers st' = timers st ++
    [{| t_call := c; t_deadline := (now st + timerDelay (fetchTimeout st))%Z;
        t_echo := newEcho c; t_action := action |}] ∧
  resolutions st' = resolutions st ∧
  now st' = now st ∧
  calls st' = calls st ++ [{| c_action := action; c_then := k |}].
Proof.
  intros Hon Hth c st'. subst c st'.
  unfold fetchApi_, fetchApi. rewrite Hon. cbn [negb].
  unfold throws in Hth. destruct (printSendLogger _ _ _); [done|]. cbn [snd].
  unfold seq, onApi, setTimeout, sendMessage, apiListeners. simpl.
  destruct (apiMap st !! _); by repeat split.
Qed.

Lemma fetchApi_offline_core action params k st :
  online st = false →
  let c := length (calls st) in
  let st' := fetchApi_ action params k st in
  apiMap st' = apiMap st ∧
  timers st' = timers st ∧
  resolutions st' = resolutions st ++ [resolutionAt st (notLogin (newEcho c)) c] ∧
  now st' = now st ∧
  calls st' = calls st ++ [{| c_action := action; c_then := k |}].
Proof.
  intros Hon c st'. subst c st'.
  destruct (fetchApi_offline action params k st Hon) as (js & ->). by repeat split.
Qed.

(** ** Coherence is kept by every move *)

Lemma apiListeners_delete e e' st st' :
  apiMap st' = delete e (apiMap st) →
  apiListeners e' st' = if decide (e' = e) then [] else apiListeners e' st.
Proof.
  intros Ha. unfold apiListeners. rewrite Ha.
  destruct (decide (e' = e)) as [->|Hne].
  - by rewrite lookup_delete_eq.
  - by rewrite lookup_delete_ne.
Qed.

Lemma apiListeners_insert e e' (l : list nat) st st' :
  apiMap st' = <[e := l]> (apiMap st) →
  apiListeners e' st' = if decide (e' = e) then l else apiListeners e' st.
Proof.
  intros Ha. unfold apiListeners. rewrite Ha.
  destruct (decide (e' = e)) as [->|Hne].
  - by rewrite lookup_insert_eq.
  - by rewrite lookup_insert_ne.
Qed.

Lemma resolutionsOf_app c st st' rs :
  resolutions st' = resolutions st ++ rs →
  resolutionsOf c st' = resolutionsOf c st ++ filter (λ r, r_call r = c) rs.
Proof. intros Hr. unfold resolutionsOf. by rewrite Hr, filter_app. Qed.

Lemma filter_resolutionAt_notin c st resp (l : list nat) :
  c ∉ l → filter (λ r, r_call r = c) (resolutionAt st resp <$> l) = [].
Proof.
  intros Hc. apply filter_none. apply Forall_fmap, Forall_forall.
  intros c' Hc' Heq. simpl in Heq. congruence.
Qed.

Lemma filter_resolutionAt_in c st resp (l : list nat) :
  NoDup l → c ∈ l →
  filter (λ r, r_call r = c) (resolutionAt st resp <$> l) = [resolutionAt st resp c].
Proof.
  induction 1 as [|c' l Hnot Hnd IH]; [by intros ?%elem_of_nil|].
  rewrite fmap_cons, filter_cons. simpl.
  intros [->|Hin]%elem_of_cons.
  - rewrite decide_True by done. by rewrite filter_resolutionAt_notin.
  - rewrite decide_False; [by apply IH|]. intros ->. done.
Qed.

Lemma elem_of_calls_filter c (P : Timer → Prop) `{!∀ t, Decision (P t)} (ts : list Timer) :
  c ∈ t_call <$> filter P ts ↔ ∃ t, t ∈ ts ∧ P t ∧ t_call t = c.
Proof.
  rewrite list_elem_of_fmap. split.
  - intros (t & -> & Ht). apply list_elem_of_filter in Ht as [? ?]. eauto.
  - intros (t & ? & ? & <-). exists t. split; [done|]. by apply list_elem_of_filter.
Qed.

Lemma NoDup_calls_filter (P : Timer → Prop) `{!∀ t, Decision (P t)} (ts : list Timer) :
  NoDup (t_call <$> ts) → NoDup (t_call <$> filter P ts).
Proof.
  induction ts as [|t ts IH]; [done|].
  rewrite fmap_cons, NoDup_cons. intros [Hnot Hnd].
  rewrite filter_cons. destruct (decide (P t)); [|by apply IH].
  rewrite fmap_cons, NoDup_cons. split; [|by apply IH].
  intros (t' & Ht' & _ & Heq)%elem_of_calls_filter.
  apply Hnot. rewrite <- Heq. by apply list_elem_of_fmap_2.
Qed.

Lemma coherent_quiet st st' : quiet st st' → coherent st → coherent st'.
Proof.
  intros (Ha & Ht & Hr & Hn & Hc) [].
  split; unfold pending, apiListeners, resolutionsOf in *; rewrite ?Ha, ?Ht, ?Hr, ?Hc; done.
Qed.

Lemma coherent_clock st z : coherent st → coherent (set_now z st).
Proof. by intros []. Qed.

(** The listeners filed under [e] are handed a response. *)
Lemma coherent_delivered e resp st st' :
  coherent st →
  apiMap st' = delete e (apiMap st) →
  timers st' = filter (λ t, t_call t ∉ apiListeners e st) (timers st) →
  resolutions st' = resolutions st ++ (resolutionAt st resp <$> apiListeners e st) →
  calls st' = calls st →
  coherent st'.
Proof.
  intros [Hecho Hnd Htm Hte Hact Hpen Hset Hfresh] Ha Ht Hr Hc.
  set (l := apiListeners e st) in *.
  assert (Hpend : ∀ c, pending c st' ↔ newEcho c ≠ e ∧ pending c st).
  { intros c. unfold pending. rewrite (apiListeners_delete e _ st st' Ha).
    destruct (decide (newEcho c = e)); [|tauto].
    rewrite elem_of_nil. tauto. }
  assert (Hl : ∀ c, c ∈ l ↔ newEcho c = e ∧ pending c st).
  { intros c. split.
    - intros Hin. pose proof (Hecho _ _ Hin) as ->. done.
    - intros [<- Hp]. exact Hp. }
  split.
  - intros e' c. rewrite (apiListeners_delete e _ st st' Ha).
    destruct (decide (e' = e)); [by intros ?%elem_of_nil|]. apply Hecho.
  - intros e'. rewrite (apiListeners_delete e _ st st' Ha).
    destruct (decide (e' = e)); [apply NoDup_nil_2|]. apply Hnd.
  - rewrite Ht. by apply NoDup_calls_filter.
  - intros t. rewrite Ht. intros [_ ?]%list_elem_of_filter. by apply Hte.
  - intros c. rewrite Ht, Hpend, elem_of_calls_filter. split.
    + intros (t & Hin & Hnot & <-).
      assert (pending (t_call t) st) as Hp
        by (apply Hact; by apply list_elem_of_fmap_2).
      split; [|done]. intros He. apply Hnot. apply Hl. done.
    + intros [Hne Hp]. apply Hact in Hp.
      apply list_elem_of_fmap in Hp as (t & -> & Hin).
      exists t. repeat split; try done. intros Hin'%Hl. tauto.
  - intros c [Hne Hp]%Hpend. destruct (Hpen c Hp) as [Hlt Hnil].
    rewrite Hc. split; [done|].
    rewrite (resolutionsOf_app c st st' _ Hr), Hnil, filter_resolutionAt_notin; [done|].
    intros Hin%Hl. tauto.
  - intros c. rewrite Hc, Hpend. intros Hlt Hnp.
    rewrite (resolutionsOf_app c st st' _ Hr), length_app.
    destruct (decide (c ∈ l)) as [Hin|Hnin].
    + rewrite filter_resolutionAt_in by (done || apply Hnd).
      apply Hl in Hin as [_ Hp]. destruct (Hpen c Hp) as [_ ->]. done.
    + rewrite filter_resolutionAt_notin by done.
      rewrite Hset; [done..|]. intros Hp. apply Hnin, Hl. split; [|done].
      destruct (decide (newEcho c = e)); [done|]. tauto.
  - intros c. rewrite Hc. intros Hle.
    rewrite (resolutionsOf_app c st st' _ Hr), (Hfresh c Hle), filter_resolutionAt_notin;
      [done|].
    intros [_ Hp]%Hl. apply Hpen in Hp as [? _]. lia.
Qed.

Lemma coherent_fetched_online action k st st' :
  coherent st →
  let c := length (calls st) in
  apiMap st' = <[newEcho c := apiListeners (newEcho c) st ++ [c]]> (apiMap st) →
  timers st' = timers st ++
    [{| t_call := c; t_deadline := (now st + timerDelay (fetchTimeout st))%Z;
        t_echo := newEcho c; t_action := action |}] →
  resolutions st' = resolutions st →
  calls st' = calls st ++ [{| c_action := action; c_then := k |}] →
  coherent st'.
Proof.
  intros [Hecho Hnd Htm Hte Hact Hpen Hset Hfresh] c Ha Ht Hr Hc.
  assert (Hnew : ∀ e, c ∉ apiListeners e st).
  { intros e Hin. pose proof (Hecho _ _ Hin) as ->.
    apply Hpen in Hin as [? _]. unfold c in *. lia. }
  assert (Hpend : ∀ c', pending c' st' ↔ c' = c ∨ pending c' st).
  { intros c'. unfold pending.
    rewrite (apiListeners_insert (newEcho c) _ _ st st' Ha).
    destruct (decide (newEcho c' = newEcho c)) as [Heq|Hne].
    - rewrite elem_of_app, list_elem_of_singleton, Heq. tauto.
    - split; [tauto|]. intros [->|?]; [done|tauto]. }
  assert (Hlen : length (calls st') = S c) by (rewrite Hc, length_app; simpl; lia).
  assert (Hres : ∀ c', resolutionsOf c' st' = resolutionsOf c' st)
    by (intros c'; unfold resolutionsOf; by rewrite Hr).
  split.
  - intros e c'. rewrite (apiListeners_insert (newEcho c) _ _ st st' Ha).
    destruct (decide (e = newEcho c)) as [->|Hne]; [|apply Hecho].
    intros [Hin| ->%list_elem_of_singleton]%elem_of_app; [|done]. by apply Hecho.
  - intros e. rewrite (apiListeners_insert (newEcho c) _ _ st st' Ha).
    destruct (decide (e = newEcho c)) as [->|Hne]; [|apply Hnd].
    apply NoDup_app. split; [apply Hnd|]. split; [|apply NoDup_singleton].
    intros c' Hin ->%list_elem_of_singleton. by eapply Hnew.
  - rewrite Ht, fmap_app. apply NoDup_app. split; [done|].
    split; [|apply NoDup_singleton].
    intros c' Hin ->%list_elem_of_singleton. simpl in Hin.
    apply Hact in Hin. by eapply Hnew.
  - intros t. rewrite Ht.
    intros [Hin| ->%list_elem_of_singleton]%elem_of_app; [by apply Hte|done].
  - intros c'. rewrite Ht, fmap_app, elem_of_app, Hpend, Hact. simpl.
    rewrite list_elem_of_singleton. tauto.
  - intros c' [->|Hp]%Hpend; rewrite Hlen, Hres.
    + split; [lia|]. apply Hfresh. done.
    + destruct (Hpen c' Hp). split; [unfold c; lia|done].
  - intros c'. rewrite Hlen, Hres, Hpend. intros Hlt Hnp.
    apply Hset; [|tauto]. assert (c' ≠ c) by tauto. unfold c in *. lia.
  - intros c'. rewrite Hlen, Hres. intros Hle. apply Hfresh. unfold c in *. lia.
Qed.

Lemma coherent_fetched_offline action k resp st st' :
  coherent st →
  let c := length (calls st) in
  apiMap st' = apiMap st → timers st' = timers st →
  resolutions st' = resolutions st ++ [resolutionAt st resp c] →
  calls st' = calls st ++ [{| c_action := action; c_then := k |}] →
  coherent st'.
Proof.
  intros [Hecho Hnd Htm Hte Hact Hpen Hset Hfresh] c Ha Ht Hr Hc.
  assert (Hlen : length (calls st') = S c) by (rewrite Hc, length_app; simpl; lia).
  assert (Hres : ∀ c', resolutionsOf c' st' =
            resolutionsOf c' st ++ if decide (c = c') then [resolutionAt st resp c] else []).
  { intros c'. rewrite (resolutionsOf_app c' st st' _ Hr), filter_cons. simpl.
    by destruct (decide (c = c')). }
  assert (Hpend : ∀ c', pending c' st' ↔ pending c' st)
    by (intros c'; unfold pending, apiListeners; by rewrite Ha).
  split; unfold apiListeners in *; rewrite ?Ha, ?Ht; try done.
  - intros c'. rewrite Hact. symmetry. apply Hpend.
  - intros c' Hp%Hpend. destruct (Hpen c' Hp) as [Hlt Hnil].
    rewrite Hlen, Hres, Hnil. split; [unfold c; lia|].
    rewrite decide_False; [done|]. unfold c. lia.
  - intros c'. rewrite Hlen, Hres, Hpend, length_app. intros Hlt Hnp.
    destruct (decide (c = c')) as [<-|Hne].
    + rewrite (Hfresh c); [done|]. done.
    + rewrite Hset; [done| |done]. unfold c in *. lia.
  - intros c'. rewrite Hlen, Hres. intros Hle.
    rewrite decide_False by lia. rewrite app_nil_r. apply Hfresh. unfold c in *. lia.
Qed.

Lemma pending_timer_listener t st :
  coherent st → t ∈ timers st → t_call t ∈ apiListeners (t_echo t) st.
Proof.
  intros Hco Hin. rewrite (co_timer_echo _ Hco t Hin).
  apply (co_active _ Hco). by apply list_elem_of_fmap_2.
Qed.

Lemma move_coherent l st st' : move l st st' → coherent st → coherent st'.
Proof.
  intros Hm Hco.
  destruct Hm as [st st' Hq|action params k c0 st Hret|resp st He Hr|t st Hin Hdue|st Hp].
  - by eapply coherent_quiet.
  - destruct (online st) eqn:Hon.
    + destruct (fetchApi_online_core action params k st Hon
                  (proj2 (fetchApi_returned _ _ _ _ _ Hret) Hon)) as (?&?&?&?&?).
      by eapply coherent_fetched_online.
    + destruct (fetchApi_offline_core action params k st Hon) as (?&?&?&?&?).
      by eapply coherent_fetched_offline.
  - destruct (emitApi_core (echo resp) resp st) as (?&?&?&?&?).
    by eapply coherent_delivered.
  - destruct (onTimeout_core t st (pending_timer_listener t st Hco Hin)) as (?&?&?&?&?).
    by eapply coherent_delivered.
  - by apply coherent_clock.
Qed.

(** ** Every input is a sequence of moves *)

Lemma moves_app ls1 ls2 st st' st'' :
  moves ls1 st st' → moves ls2 st' st'' → moves (ls1 ++ ls2) st st''.
Proof.
  induction 1 as [|l ls st1 st2 st3 Hm _ IH]; [done|].
  intros H2. simpl. eapply moves_cons; [done|]. by apply IH.
Qed.

Lemma moves_one l st st' : move l st st' → moves [l] st st'.
Proof. intros Hm. eapply moves_cons; [done|]. apply moves_nil. Qed.

Lemma moves_coherent ls st st' : moves ls st st' → coherent st → coherent st'.
Proof.
  induction 1 as [|l ls st1 st2 st3 Hm _ IH]; [done|].
  intros Hco. apply IH. by eapply move_coherent.
Qed.

Lemma tame_quiet (c : Cmd) : (∀ st, quiet st (c st)) → tame c.
Proof.
  intros Hq st. exists [Quiet]. split.
  - apply moves_one, move_quiet, Hq.
  - constructor; [by left|constructor].
Qed.

Lemma tame_skip : tame skip.
Proof. apply tame_quiet. intros st. apply quiet_refl. Qed.

Lemma tame_seq (c1 c2 : Cmd) : tame c1 → tame c2 → tame (c1 ;; c2).
Proof.
  intros H1 H2 st. destruct (H1 st) as (ls1 & Hm1 & Hc1).
  destruct (H2 (c1 st)) as (ls2 & Hm2 & Hc2).
  exists (ls1 ++ ls2). split; [by eapply moves_app|by apply Forall_app].
Qed.

Lemma tame_when b (c : Cmd) : tame c → tame (when b c).
Proof. intros H. destruct b; [exact H|apply tame_skip]. Qed.

Lemma tame_if (b : bool) (c1 c2 : Cmd) : tame c1 → tame c2 → tame (if b then c1 else c2).
Proof. by destruct b. Qed.

Lemma tame_withState (f : Client → Cmd) : (∀ s, tame (f s)) → tame (withState f).
Proof. intros H st. apply (H st st). Qed.

Lemma tame_fetchApi action params k : tame (fetchApi_ action params k).
Proof.
  intros st.
  destruct (fetchApi action params k st) as [[e|c] s] eqn:Heq.
  - exists [Quiet]. split; [|constructor; [by left|constructor]].
    apply moves_one, move_quiet.
    assert (fetchApi_ action params k st = st) as ->; [|done].
    revert Heq. unfold fetchApi_, fetchApi.
    destruct (negb (online st)); [done|].
    destruct (printSendLogger _ _ _); [|done]. by intros [= _ <-].
  - exists [Fetched]. split.
    + apply moves_one, (move_fetch _ _ _ c). by rewrite Heq.
    + constructor; [by right|constructor].
Qed.

Lemma tame_emit event p : tame (emit event p).
Proof. apply tame_quiet. intros st. apply quiet_emit. Qed.

Lemma tame_emitData event ref : tame (emitData event ref).
Proof. apply tame_withState. intros s. apply tame_emit. Qed.

Lemma tame_assign ref f : tame (assign ref f).
Proof. apply tame_quiet. intros st. by repeat split. Qed.

Lemma tame_drain : tame drain.
Proof. apply tame_quiet, quiet_drain. Qed.

Create HintDb tame discriminated.
#[local] Hint Resolve tame_skip tame_seq tame_when tame_if tame_fetchApi tame_emit
  tame_emitData tame_assign tame_drain : tame.

Ltac tame_tac :=
  repeat (cbv beta;
    lazymatch goal with
    | H : tame ?c |- tame ?c => exact H
    | |- tame (withState _) => apply tame_withState; intros ?
    | |- tame (seq _ _) => apply tame_seq
    | |- tame (when _ _) => apply tame_when
    | |- tame (if _ then _ else _) => apply tame_if
    | |- tame (fetchApi_ _ _ _) => apply tame_fetchApi
    | |- tame (emitData _ _) => apply tame_emitData
    | |- tame (emit _ _) => apply tame_emit
    | |- tame (assign _ _) => apply tame_assign
    | |- tame skip => apply tame_skip
    | |- tame drain => apply tame_drain
    | |- tame _ => apply tame_quiet; intros ?; by repeat split
    end).

Lemma tame_onEventMessage raw : tame (onEventMessage raw).
Proof.
  destruct raw as [text|resp|d]; [apply tame_skip..|].
  unfold onEventMessage, onMetaEvent, onMessage, onNotice, onRequest,
    getVersionInfo, setGroupList, setFriendList.
  tame_tac.
Qed.

Lemma tame_onEventClose : tame onEventClose.
Proof. unfold onEventClose. tame_tac. Qed.

Lemma tame_callClosure cl args : tame (callClosure cl args).
Proof. destruct cl, args; simpl; unfold quickOperation; tame_tac. Qed.

(** The API handler delivers at most one frame. *)
Lemma onApiMessage_moves raw st :
  ∃ ls, moves ls st (onApiMessage raw st) ∧
        Forall (λ l, l = Quiet ∨ ∃ resp, raw = JsonResponse resp ∧ l = Delivered resp) ls.
Proof.
  destruct raw as [text|resp|d]; simpl;
    try (exists []; split; [apply moves_nil|constructor]).
  destruct (echo resp === "") eqn:He;
    [exists []; split; [apply moves_nil|constructor]|].
  destruct (retcode resp === 1%Z) eqn:Hr;
    [exists []; split; [apply moves_nil|constructor]|].
  apply bool_decide_eq_false in He, Hr.
  exists [Delivered resp]. split.
  - by apply moves_one, move_deliver.
  - constructor; [right; eauto|constructor].
Qed.

Lemma Forall_calm_allowed i ls : Forall calm ls → Forall (allowed i) ls.
Proof. intros H. eapply Forall_impl; [exact H|]. by intros l [-> | ->]. Qed.

Lemma onSocketMessage_moves sock raw st :
  ∃ ls, moves ls st (onSocketMessage sock raw st) ∧
        Forall (allowed (Message sock raw)) ls.
Proof.
  assert (∀ s, ∃ ls, moves ls s (onApiMessage raw s) ∧
                     Forall (allowed (Message sock raw)) ls) as Hapi.
  { intros s. destruct (onApiMessage_moves raw s) as (ls & Hm & Hall).
    exists ls. split; [done|]. eapply Forall_impl; [done|].
    intros l [->|(resp & -> & ->)]; simpl; eauto. }
  assert (∀ s, ∃ ls, moves ls s (onEventMessage raw s) ∧
                     Forall (allowed (Message sock raw)) ls) as Hev.
  { intros s. destruct (tame_onEventMessage raw s) as (ls & Hm & Hall).
    exists ls. split; [done|]. by apply Forall_calm_allowed. }
  unfold onSocketMessage, withState. destruct (sharedSocket st).
  - destruct (Hev st) as (ls1 & Hm1 & H1).
    destruct (Hapi (onEventMessage raw st)) as (ls2 & Hm2 & H2).
    exists (ls1 ++ ls2). split; [by eapply moves_app|by apply Forall_app].
  - destruct sock; [apply Hev|apply Hapi].
Qed.

Lemma NoDup_fmap_eq {A B} (f : A → B) (l : list A) x y :
  NoDup (f <$> l) → x ∈ l → y ∈ l → f x = f y → x = y.
Proof.
  induction l as [|z l IH]; [by intros _ ?%elem_of_nil|].
  rewrite fmap_cons, NoDup_cons. intros [Hnot Hnd].
  intros [->|Hx]%elem_of_cons [->|Hy]%elem_of_cons Heq; try done.
  - exfalso. apply Hnot. rewrite Heq. by apply list_elem_of_fmap_2.
  - exfalso. apply Hnot. rewrite <- Heq. by apply list_elem_of_fmap_2.
  - by apply IH.
Qed.

(** A timer callback, followed by the promise jobs it queued. *)
Lemma fire_moves t st :
  coherent st → t ∈ timers st → (t_deadline t ≤ now st)%Z →
  let st' := (clearTimeout (t_call t) ;; onTimeout t ;; drain) st in
  moves [Fired t; Quiet] st st' ∧ now st' = now st ∧
  (∀ t', t' ∈ timers st' → t' ∈ timers st ∧ t' ≠ t).
Proof.
  intros Hco Hin Hdue st'. subst st'. unfold seq.
  set (s1 := onTimeout t (clearTimeout (t_call t) st)).
  pose proof (pending_timer_listener t st Hco Hin) as Hl.
  destruct (onTimeout_core t st Hl) as (_ & Ht & _ & Hn & _). fold s1 in Ht, Hn.
  destruct (quiet_drain s1) as (_ & Ht' & _ & Hn' & _).
  split; [|split].
  - eapply moves_cons; [by apply move_fire|].
    apply moves_one, move_quiet, quiet_drain.
  - congruence.
  - intros t'. rewrite Ht', Ht. intros [Hnot Hin']%list_elem_of_filter.
    split; [done|]. by intros ->.
Qed.

Lemma runDue_moves (due : list Timer) st :
  coherent st →
  (∀ t, t ∈ due → (t_deadline t ≤ now st)%Z) →
  (∀ t t', t ∈ due → t' ∈ timers st → t_call t' = t_call t → t' = t) →
  ∃ ls, moves ls st (runDue due st) ∧ Forall (allowed Tick) ls ∧
        now (runDue due st) = now st ∧
        (∀ t, t ∈ timers (runDue due st) → t ∈ timers st ∧ t ∉ due).
Proof.
  revert st. induction due as [|t rest IH]; intros st Hco Hdue Hid.
  - exists []. repeat split; try done; [apply moves_nil|by intros ?%elem_of_nil].
  - simpl. unfold when. destruct (isActive (t_call t) st) eqn:Hact.
    + apply bool_decide_eq_true in Hact.
      apply list_elem_of_fmap in Hact as (t' & Heq & Hin').
      assert (t' = t) as -> by (apply Hid; [apply elem_of_cons; by left|done..]).
      destruct (fire_moves t st Hco Hin') as (Hm & Hn & Hsub);
        [apply Hdue, elem_of_cons; by left|].
      set (s2 := (clearTimeout (t_call t) ;; onTimeout t ;; drain) st) in *.
      destruct (IH s2) as (ls & Hms & Hall & Hnow & Hts).
      * by eapply moves_coherent.
      * intros t0 Hin0. rewrite Hn. apply Hdue, elem_of_cons. by right.
      * intros t0 t1 Hin0 Hin1. apply Hid; [apply elem_of_cons; by right|].
        by apply Hsub.
      * exists ([Fired t; Quiet] ++ ls). split; [by eapply moves_app|].
        split; [by repeat constructor|]. split; [congruence|].
        intros t0 Hin0. destruct (Hts t0 Hin0) as [Hin2 Hnot].
        destruct (Hsub t0 Hin2) as [? ?]. split; [done|].
        rewrite elem_of_cons. tauto.
    + apply bool_decide_eq_false in Hact.
      destruct (IH st) as (ls & Hms & Hall & Hnow & Hts); [done| | |].
      * intros t0 Hin0. apply Hdue, elem_of_cons. by right.
      * intros t0 t1 Hin0. apply Hid, elem_of_cons. by right.
      * exists ls. repeat split; try done; [by apply Hts|].
        rewrite elem_of_cons. intros [->|Hin0]; [|by apply (Hts _ H)].
        apply Hact. apply list_elem_of_fmap_2. by apply Hts.
Qed.

Lemma tick_moves st :
  coherent st → punctual st →
  ∃ ls, moves ls st (tick st) ∧ Forall (allowed Tick) ls ∧ punctual (tick st).
Proof.
  intros Hco Hp. unfold tick.
  set (s1 := set_now (now st + 1)%Z st).
  set (due := filter (λ t, (t_deadline t ≤ now s1)%Z) (timers s1)).
  destruct (runDue_moves due s1) as (ls & Hms & Hall & Hnow & Hts).
  - by apply coherent_clock.
  - intros t [? _]%list_elem_of_filter. done.
  - intros t t' [_ Hin]%list_elem_of_filter Hin' Heq.
    eapply (NoDup_fmap_eq t_call); [apply (co_timers _ Hco)|done..].
  - exists (Clock :: ls). split; [|split].
    + eapply moves_cons; [by apply move_clock|done].
    + by constructor.
    + intros t Hin. destruct (Hts t Hin) as [Hin1 Hnot].
      rewrite Hnow. destruct (decide (t_deadline t ≤ now s1)%Z); [|lia].
      exfalso. apply Hnot. by apply list_elem_of_filter.
Qed.

Lemma timerDelay_pos ms : (1 ≤ timerDelay ms)%Z.
Proof.
  unfold timerDelay, TIMEOUT_MAX.
  destruct (ms <? 1)%Z eqn:H1; simpl; [lia|].
  destruct (2147483647 <? ms)%Z; lia.
Qed.

(** What a move leaves in place: calls are only added, a timer is only
    set by a call, for that call and due later, and the clock only moves in
    a clock move. *)
Lemma move_frame l st st' :
  move l st st' → coherent st →
  length (calls st) ≤ length (calls st') ∧
  (∀ t, t ∈ timers st' →
     t ∈ timers st ∨ (length (calls st) ≤ t_call t ∧ (now st < t_deadline t)%Z)) ∧
  (l ≠ Clock → now st' = now st) ∧ (l = Clock → now st' = (now st + 1)%Z).
Proof.
  intros Hm Hco.
  destruct Hm as [st st' Hq|action params k c0 st Hret|resp st He Hr|t st Hin Hdue|st Hp].
  - destruct Hq as (_ & Ht & _ & Hn & Hc). rewrite Ht, Hn, Hc.
    repeat split; auto; discriminate.
  - assert (∀ P : Prop, Fetched = Clock → P) as Hno by discriminate.
    destruct (online st) eqn:Hon.
    + destruct (fetchApi_online_core action params k st Hon
                  (proj2 (fetchApi_returned _ _ _ _ _ Hret) Hon)) as (_ & Ht & _ & Hn & Hc).
      rewrite Ht, Hn, Hc, length_app. repeat split; [lia| |apply Hno].
      intros t [?| ->%list_elem_of_singleton]%elem_of_app; [by left|right]. simpl.
      pose proof (timerDelay_pos (fetchTimeout st)). lia.
    + destruct (fetchApi_offline_core action params k st Hon) as (_ & Ht & _ & Hn & Hc).
      rewrite Ht, Hn, Hc, length_app. repeat split; [lia|auto|apply Hno].
  - destruct (emitApi_core (echo resp) resp st) as (_ & Ht & _ & Hn & Hc).
    rewrite Ht, Hn, Hc. repeat split; [done| |discriminate].
    intros t [_ ?]%list_elem_of_filter. by left.
  - destruct (onTimeout_core t st (pending_timer_listener t st Hco Hin))
      as (_ & Ht & _ & Hn & Hc).
    rewrite Ht, Hn, Hc. repeat split; [done| |discriminate].
    intros t' [_ ?]%list_elem_of_filter. by left.
  - simpl. repeat split; auto. done.
Qed.

Lemma move_punctual l st st' :
  move l st st' → coherent st → l ≠ Clock → punctual st → punctual st'.
Proof.
  intros Hm Hco Hl Hp t Hin.
  destruct (move_frame l st st' Hm Hco) as (_ & Ht & Hn & _).
  rewrite Hn by done.
  destruct (Ht t Hin) as [?|[_ ?]]; [by apply Hp|done].
Qed.

Lemma moves_punctual i ls st st' :
  i ≠ Tick → Forall (allowed i) ls → moves ls st st' →
  coherent st → punctual st → punctual st'.
Proof.
  intros Hi Hall Hms. induction Hms as [|l ls st1 st2 st3 Hm _ IH]; [done|].
  apply Forall_cons in Hall as [Hl Hall]. intros Hco Hp.
  apply IH; [done|by eapply move_coherent|].
  eapply move_punctual; [done..| |done]. intros ->. by apply Hi.
Qed.

Lemma tame_step i :
  (∀ sock raw, i ≠ Message sock raw) → i ≠ Tick → tame (step i).
Proof.
  intros Hm Ht. destruct i; unfold step.
  - exfalso. by eapply Hm.
  - unfold onSocketClose. destruct sock; pose proof tame_onEventClose; tame_tac.
  - done.
  - tame_tac.
  - unfold setFetchTimeout. tame_tac.
  - unfold setTarget. tame_tac.
  - tame_tac.
  - apply tame_quiet. intros st. apply quiet_onHandle.
  - apply tame_quiet. intros st. apply quiet_onHandle.
  - apply tame_quiet. intros st. apply quiet_off.
  - tame_tac.
  - pose proof (tame_callClosure cl args). tame_tac.
  - unfold connect. tame_tac.
  - unfold closeConnect. tame_tac.
  - unfold reConnect, connect, closeConnect. tame_tac.
Qed.

Lemma step_moves i st :
  coherent st → punctual st →
  ∃ ls, moves ls st (step i st) ∧ Forall (allowed i) ls ∧ punctual (step i st).
Proof.
  intros Hco Hp.
  assert (i = Tick ∨ i ≠ Tick) as [->|Hnt] by (destruct i; auto);
    [by apply tick_moves|].
  assert (∃ ls, moves ls st (step i st) ∧ Forall (allowed i) ls) as (ls & Hms & Hall).
  { assert ((∃ sock raw, i = Message sock raw) ∨ ∀ sock raw, i ≠ Message sock raw)
      as [(sock & raw & ->)|Hnm] by (destruct i; eauto).
    - unfold step, seq.
      destruct (onSocketMessage_moves sock raw st) as (ls & Hm & Hall).
      exists (ls ++ [Quiet]). split.
      + eapply moves_app; [done|]. apply moves_one, move_quiet, quiet_drain.
      + apply Forall_app. split; [done|]. by repeat constructor.
    - destruct (tame_step i Hnm Hnt st) as (ls & ? & ?).
      exists ls. split; [done|by apply Forall_calm_allowed]. }
  exists ls. repeat split; try done. by eapply moves_punctual.
Qed.

(** ** One call through the moves *)

Lemma coherent_init eventTarget apiTarget fetchTimeout :
  coherent (BaseClient eventTarget apiTarget fetchTimeout) ∧
  punctual (BaseClient eventTarget apiTarget fetchTimeout).
Proof.
  split; [split|]; unfold pending, apiListeners, resolutionsOf, punctual; simpl;
    try (intros; rewrite ?lookup_empty in *; simpl in *);
    repeat match goal with
    | H : _ ∈ [] |- _ => by apply elem_of_nil in H
    end; try done; try apply NoDup_nil_2; try lia.
Qed.

(** What a move does to a call that has been made. *)
Lemma move_call l st st' c :
  move l st st' → coherent st → c < length (calls st) →
  (¬ hit l (newEcho c) →
     (pending c st' ↔ pending c st) ∧ resolutionsOf c st' = resolutionsOf c st) ∧
  (hit l (newEcho c) →
     ¬ pending c st' ∧
     resolutionsOf c st' =
       resolutionsOf c st ++
       if decide (pending c st) then [resolutionAt st (handed l) c] else []).
Proof.
  intros Hm Hco Hlt.
  assert (Hdel : ∀ e resp s',
    apiMap s' = delete e (apiMap st) →
    resolutions s' = resolutions st ++ (resolutionAt st resp <$> apiListeners e st) →
    (e ≠ newEcho c →
       (pending c s' ↔ pending c st) ∧ resolutionsOf c s' = resolutionsOf c st) ∧
    (e = newEcho c →
       ¬ pending c s' ∧
       resolutionsOf c s' =
         resolutionsOf c st ++
         if decide (pending c st) then [resolutionAt st resp c] else [])).
  { intros e resp s' Ha Hr. split.
    - intros Hne. unfold pending. rewrite (apiListeners_delete e _ st s' Ha).
      rewrite decide_False by done. split; [done|].
      rewrite (resolutionsOf_app c st s' _ Hr), filter_resolutionAt_notin;
        [by rewrite app_nil_r|].
      intros Hin. apply Hne. by apply (co_echo _ Hco).
    - intros ->. unfold pending. rewrite (apiListeners_delete (newEcho c) _ st s' Ha).
      rewrite decide_True by done. split; [by intros ?%elem_of_nil|].
      rewrite (resolutionsOf_app c st s' _ Hr). f_equal.
      destruct (decide (c ∈ apiListeners (newEcho c) st)) as [Hin|Hnin].
      + apply filter_resolutionAt_in; [apply (co_nodup _ Hco)|done].
      + by apply filter_resolutionAt_notin. }
  destruct Hm as [st st' Hq|action params k c0 st Hret|resp st He Hr|t st Hin Hdue|st Hp]; simpl.
  - destruct Hq as (Ha & _ & Hr & _ & _). split; [|done]. intros _.
    unfold pending, apiListeners, resolutionsOf. by rewrite Ha, Hr.
  - split; [|done]. intros _. destruct (online st) eqn:Hon.
    + destruct (fetchApi_online_core action params k st Hon
                  (proj2 (fetchApi_returned _ _ _ _ _ Hret) Hon)) as (Ha & _ & Hr & _ & _).
      unfold pending, resolutionsOf.
      rewrite (apiListeners_insert _ _ _ st _ Ha), Hr. split; [|done].
      destruct (decide (newEcho c = newEcho (length (calls st)))) as [Heq|]; [|done].
      rewrite elem_of_app, list_elem_of_singleton, Heq. split; [|tauto].
      intros [?| ->]; [done|lia].
    + destruct (fetchApi_offline_core action params k st Hon) as (Ha & _ & Hr & _ & _).
      unfold pending, apiListeners. rewrite Ha. split; [done|].
      rewrite (resolutionsOf_app c st _ _ Hr), filter_cons. simpl.
      rewrite decide_False by lia. by rewrite app_nil_r.
  - destruct (emitApi_core (echo resp) resp st) as (Ha & _ & Hres & _ & _).
    by apply Hdel.
  - destruct (onTimeout_core t st (pending_timer_listener t st Hco Hin))
      as (Ha & _ & Hres & _ & _).
    by apply Hdel.
  - split; [|done]. done.
Qed.

Lemma move_tracked l st st' t0 :
  move l st st' → coherent st → tracked t0 st → tracked t0 st'.
Proof.
  intros Hm Hco [Hlt Hid].
  destruct (move_frame l st st' Hm Hco) as (Hlen & Ht & _).
  split; [lia|]. intros t Hin Heq.
  destruct (Ht t Hin) as [?|[? _]]; [by apply Hid|lia].
Qed.

Lemma move_onTime l st st' :
  move l st st' → coherent st → onTime st → onTime st'.
Proof.
  intros Hm Hco Hon t Hin.
  destruct (move_frame l st st' Hm Hco) as (_ & Ht & Hn & Hclock).
  assert (l = Clock ∨ l ≠ Clock) as [->|Hl] by (destruct l; auto).
  - rewrite Hclock by done. inversion Hm as [| | | |s Hp]; subst.
    destruct (Ht t Hin) as [Hold|[_ ?]]; [|lia]. apply Hp in Hold. lia.
  - rewrite Hn by done. destruct (Ht t Hin) as [?|[_ ?]]; [by apply Hon|lia].
Qed.

Lemma punctual_onTime st : punctual st → onTime st.
Proof. intros Hp t Hin. apply Hp in Hin. lia. Qed.

(** An invariant of the moves is an invariant of the run. *)
Lemma moves_invariant (P : Client → Prop) (i : Input) ls st st' :
  (∀ l s s', allowed i l → move l s s' → coherent s → P s → P s') →
  moves ls st st' → Forall (allowed i) ls → coherent st → P st →
  P st' ∧ coherent st'.
Proof.
  intros Hmove Hms. induction Hms as [|l ls s1 s2 s3 Hm _ IH]; intros Hall Hco HP;
    [by split|].
  apply Forall_cons in Hall as [Hl Hall].
  apply IH; [done|by eapply move_coherent|by eapply Hmove].
Qed.

Lemma run_invariant (P : Client → Prop) (ok : Input → Prop) ins st :
  (∀ i l s s', ok i → allowed i l → move l s s' → coherent s → P s → P s') →
  Forall ok ins → coherent st → punctual st → P st →
  P (run ins st) ∧ coherent (run ins st) ∧ punctual (run ins st).
Proof.
  intros Hmove. revert st. induction ins as [|i ins IH]; intros st Hok Hco Hp HP; [done|].
  apply Forall_cons in Hok as [Hi Hok].
  destruct (step_moves i st Hco Hp) as (ls & Hms & Hall & Hp').
  destruct (moves_invariant P i ls st (step i st)) as [HP' Hco']; try done.
  { intros l s s'. by apply Hmove. }
  unfold run. simpl. by apply IH.
Qed.

Lemma run_coherent ins st :
  coherent st → punctual st → coherent (run ins st) ∧ punctual (run ins st).
Proof.
  intros Hco Hp.
  destruct (run_invariant (λ _, True) (λ _, True) ins st) as (_ & ? & ?);
    try done. by apply Forall_true.
Qed.

Lemma reachable_coherent eventTarget apiTarget fetchTimeout ins :
  let st := run ins (BaseClient eventTarget apiTarget fetchTimeout) in
  coherent st ∧ punctual st.
Proof.
  destruct (coherent_init eventTarget apiTarget fetchTimeout).
  by apply run_coherent.
Qed.

(** No call is resolved twice. *)
Lemma coherent_at_most_once c st : coherent st → length (resolutionsOf c st) ≤ 1.
Proof.
  intros Hco. destruct (decide (c < length (calls st))) as [Hlt|Hge].
  - destruct (decide (pending c st)) as [Hp|Hnp].
    + destruct (co_pending _ Hco c Hp) as [_ ->]. simpl. lia.
    + rewrite (co_settled _ Hco c Hlt Hnp). lia.
  - rewrite (co_fresh _ Hco c); [simpl; lia|lia].
Qed.

(** The state right after an online call. *)
Lemma call_made action params st :
  coherent st → punctual st → online st = true → throws action params = false →
  let c := length (calls st) in
  let st1 := step (FetchApi action params) st in
  coherent st1 ∧ punctual st1 ∧ pending c st1 ∧ tracked (timerOf c action st) st1 ∧
  sent st1 = sent st ++
    [{| rq_action := action; rq_params := orEmpty params; rq_echo := newEcho c |}].
Proof.
  intros Hco Hp Hon Hth c st1.
  destruct (step_moves (FetchApi action params) st Hco Hp) as (ls & Hms & _ & Hp1).
  assert (coherent st1) as Hco1 by (by eapply moves_coherent).
  subst c st1. unfold step, seq in *.
  set (s := fetchApi_ action params ThenCaller st) in *.
  destruct (fetchApi_online_core action params ThenCaller st Hon Hth) as (Ha & Ht & _ & _ & Hc).
  fold s in Ha, Ht, Hc.
  destruct (quiet_drain s) as (Ha' & Ht' & _ & _ & Hc').
  split; [done|]. split; [done|]. split; [|split; [split|]].
  - unfold pending, apiListeners. rewrite Ha', Ha, lookup_insert_eq. simpl.
    apply elem_of_app. right. by apply list_elem_of_singleton.
  - rewrite Hc', Hc, length_app. simpl. lia.
  - intros t. rewrite Ht', Ht. simpl.
    intros [Hin| ->%list_elem_of_singleton]%elem_of_app Heq; [|done].
    exfalso. assert (pending (length (calls st)) st) as Hpen.
    { apply (co_active _ Hco). rewrite <- Heq. by apply list_elem_of_fmap_2. }
    apply (co_pending _ Hco) in Hpen as [? _]. lia.
  - destruct (fetchApi_online action params ThenCaller st Hon Hth) as (am & Hs).
    fold s in Hs.
    assert (sent (drain s) = sent s) as ->.
    { unfold drain. generalize (set_jobs [] s) (eq_refl : sent (set_jobs [] s) = sent s).
      induction (jobs s) as [|j js IH]; intros s0 Hs0; [done|]. simpl. apply IH.
      rewrite <- Hs0. destruct j as [k resp]. destruct k; simpl; try done.
      - destruct (retcode resp === 0%Z); [destruct (data resp)|]; done.
      - destruct (retcode resp === 0%Z); [destruct (data resp)|]; done. }
    by rewrite Hs.
Qed.

Lemma run_app ins1 ins2 st : run (ins1 ++ ins2) st = run ins2 (run ins1 st).
Proof. unfold run. by rewrite foldl_app. Qed.

Lemma move_deliverable resp st st' : move (Delivered resp) st st' → deliverable resp.
Proof. inversion 1. by split. Qed.

Lemma call_provenance t0 ins st :
  coherent st → punctual st → tracked t0 st → pending (t_call t0) st →
  let c := t_call t0 in
  let st' := run ins st in
  coherent st' ∧ punctual st' ∧ tracked t0 st' ∧
  Forall (fromFrameOrTimer c ins) (resolutionsOf c st').
Proof.
  intros Hco Hp Htr Hpen c st'.
  destruct (run_invariant
              (λ s, tracked t0 s ∧ Forall (fromFrameOrTimer c ins) (resolutionsOf c s))
              (λ i, i ∈ ins) ins st) as ((? & ?) & ? & ?); try done.
  - intros i l s s' Hi Hl Hm Hcos [Htrs Hall].
    split; [by eapply move_tracked|].
    destruct Htrs as [Hlt _]. fold c in Hlt.
    destruct (move_call l s s' c Hm Hcos Hlt) as [Hmiss Hhit].
    assert (hit l (newEcho c) ∨ ¬ hit l (newEcho c)) as [Hh|Hh].
    { destruct l; simpl; try tauto.
      - destruct (decide (echo resp = newEcho c)); tauto.
      - destruct (decide (t_echo t = newEcho c)); tauto. }
    + destruct (Hhit Hh) as [_ ->]. apply Forall_app. split; [done|].
      destruct (decide (pending c s)); [|constructor].
      constructor; [|constructor]. destruct l; simpl in *; try done.
      * left. destruct Hl as [sock ->]. exists sock.
        split; [done|]. split; [done|]. by eapply move_deliverable.
      * right. rewrite Hh. eauto.
    + destruct (Hmiss Hh) as [_ ->]. done.
  - by apply Forall_forall.
  - split; [done|]. destruct (co_pending _ Hco _ Hpen) as [_ Hnil].
    fold c in Hnil. rewrite Hnil. constructor.
Qed.

(** Once its deadline has come, a call is resolved. *)
Lemma resolved_by_deadline t0 st :
  coherent st → punctual st → tracked t0 st →
  (t_deadline t0 ≤ now st)%Z →
  ¬ pending (t_call t0) st ∧ length (resolutionsOf (t_call t0) st) = 1.
Proof.
  intros Hco Hp [Hlt Hid] Hdue.
  assert (¬ pending (t_call t0) st) as Hnp.
  { intros Hpen. apply (co_active _ Hco) in Hpen.
    apply list_elem_of_fmap in Hpen as (t & Heq & Hin).
    assert (t = t0) as -> by (by apply Hid).
    apply Hp in Hin. lia. }
  split; [done|]. by apply (co_settled _ Hco).
Qed.

(** Once its listener has gone, a call stays resolved. *)
Lemma resolved_for_good t0 ins st :
  coherent st → punctual st → tracked t0 st → ¬ pending (t_call t0) st →
  length (resolutionsOf (t_call t0) (run ins st)) = 1.
Proof.
  intros Hco Hp Htr Hnp.
  destruct (run_invariant (λ s, tracked t0 s ∧ ¬ pending (t_call t0) s)
              (λ _, True) ins st) as ((Htr' & Hnp') & Hco' & _); try done.
  - intros i l s s' _ _ Hm Hcos [Htrs Hnps].
    split; [by eapply move_tracked|].
    destruct Htrs as [Hlt _].
    destruct (move_call l s s' _ Hm Hcos Hlt) as [Hmiss Hhit].
    assert (hit l (newEcho (t_call t0)) ∨ ¬ hit l (newEcho (t_call t0))) as [Hh|Hh].
    { destruct l; simpl; try tauto.
      - destruct (decide (echo resp = newEcho (t_call t0))); tauto.
      - destruct (decide (t_echo t = newEcho (t_call t0))); tauto. }
    + by destruct (Hhit Hh).
    + destruct (Hmiss Hh) as [Hiff _]. by rewrite Hiff.
  - by apply Forall_true.
  - destruct Htr'. by apply (co_settled _ Hco').
Qed.

(** A response frame on the API socket that is not dropped removes the
    entry of its identifier. *)
Lemma response_delivered resp st :
  deliverable resp →
  apiListeners (echo resp) (step (Message WsApi (JsonResponse resp)) st) = [].
Proof.
  intros [He Hr]. unfold step, seq, onSocketMessage, withState.
  assert (onApiMessage (JsonResponse resp) st = emitApi (echo resp) resp st) as Hapi.
  { simpl. by rewrite (bool_decide_eq_false_2 _ He), (bool_decide_eq_false_2 _ Hr). }
  assert (∀ s, apiListeners (echo resp) (drain (emitApi (echo resp) resp s)) = []) as Hnil.
  { intros s. destruct (quiet_drain (emitApi (echo resp) resp s)) as (Ha & _).
    destruct (emitApi_core (echo resp) resp s) as (Ha' & _).
    unfold apiListeners. by rewrite Ha, Ha', lookup_delete_eq. }
  destruct (sharedSocket st).
  - unfold seq. change (onEventMessage (JsonResponse resp) st) with st.
    rewrite Hapi. apply Hnil.
  - rewrite Hapi. apply Hnil.
Qed.

(** With identifiers that do not collide and no response frame reaching the
    listener, the call is resolved by its own timer, at its deadline. *)
Lemma call_times_out t0 ins st :
  coherent st → punctual st → tracked t0 st → pending (t_call t0) st →
  t_echo t0 = newEcho (t_call t0) →
  (∀ c', newEcho c' = newEcho (t_call t0) → c' = t_call t0) →
  Forall (λ i, ¬ answers (t_call t0) i) ins →
  let c := t_call t0 in
  let st' := run ins st in
  let r0 := {| r_call := c; r_time := t_deadline t0;
               r_data := requestTimeout (t_action t0) (newEcho c) |} in
  resolutionsOf c st' = if bool_decide (t_deadline t0 ≤ now st')%Z then [r0] else [].
Proof.
  intros Hco Hp Htr Hpen Hecho Hinj Hok c st' r0. subst st'.
  destruct (run_invariant
              (λ s, onTime s ∧ tracked t0 s ∧
                    (pending c s ∧ resolutionsOf c s = [] ∨
                     ¬ pending c s ∧ resolutionsOf c s = [r0] ∧ (t_deadline t0 ≤ now s)%Z))
              (λ i, ¬ answers c i) ins st) as ((Hon & Htr' & Hcase) & Hco' & Hp');
    try done.
  - intros i l s s' Hi Hl Hm Hcos (Hons & Htrs & Hcases).
    split; [by eapply move_onTime|]. split; [by eapply move_tracked|].
    destruct (move_frame l s s' Hm Hcos) as (_ & _ & Hsame & Hclock).
    assert (now s ≤ now s')%Z as Hnow.
    { assert (l = Clock ∨ l ≠ Clock) as [Heq|Hne] by (destruct l; auto).
      - rewrite (Hclock Heq). lia.
      - rewrite (Hsame Hne). lia. }
    destruct Htrs as [Hlt Hid]. fold c in Hlt.
    destruct (move_call l s s' c Hm Hcos Hlt) as [Hmiss Hhit].
    assert (hit l (newEcho c) ∨ ¬ hit l (newEcho c)) as [Hh|Hh].
    { destruct l; simpl; try tauto.
      - destruct (decide (echo resp = newEcho c)); tauto.
      - destruct (decide (t_echo t = newEcho c)); tauto. }
    + destruct (Hhit Hh) as [Hnp ->]. right.
      destruct Hcases as [[Hpens Hnil]|(Hnps & Hone & Hdue)].
      * rewrite decide_True, Hnil by done. simpl.
        destruct l; simpl in Hh; try done.
        -- exfalso. apply Hi. destruct Hl as [sock ->]. exists sock, resp.
           split; [done|]. split; [done|]. by eapply move_deliverable.
        -- inversion Hm as [| | |t' s0 Hin Hdue |]; subst.
           assert (t_call t = c) as Hcall.
           { apply Hinj. rewrite <- (co_timer_echo _ Hcos t Hin). done. }
           assert (t = t0) as -> by (by apply Hid).
           assert (now s = t_deadline t0) as Hnows by (apply Hons in Hin; lia).
           split; [done|]. split; [|lia].
           unfold resolutionAt, r0. simpl. by rewrite Hnows, Hecho.
      * rewrite decide_False, app_nil_r by done. split; [done|]. split; [done|lia].
    + destruct (Hmiss Hh) as [Hiff ->]. rewrite Hiff.
      destruct Hcases as [?|(? & ? & ?)]; [by left|right]. repeat split; try done. lia.
  - split; [by apply punctual_onTime|]. split; [done|]. left. split; [done|].
    by apply (co_pending _ Hco).
  - destruct Hcase as [[Hpen' Hnil]|(Hnp & Hone & Hdue)].
    + rewrite Hnil. rewrite bool_decide_eq_false_2; [done|].
      intros Hdue. by destruct (resolved_by_deadline t0 _ Hco' Hp' Htr' Hdue).
    + rewrite Hone. by rewrite bool_decide_eq_true_2.
Qed.

End Correlator.

(** * Claims about the subscriber registry *)

(** C6. Evidence of the defect. [emit] iterates with [forEach] over the very
    array that [off] splices, so the listener that follows a once-listener
    moves into the slot just visited and is passed over: with a
    once-listener 1 followed by a persistent listener 2, one [emit] invokes
    listener 1 only, and listener 2, still registered afterwards, is never
    called. ([emitApi] iterates over [listeners.slice()] and has no such
    gap.) *)
Theorem emit_skips_listener_after_once :
  let st := (once "e" 1 ;; on "e" 2) (BaseClient "" "" 1) in
  listenersOf "e" st =
    [{| listener := 1; once_flag := true |}; {| listener := 2; once_flag := false |}] ∧
  delivered (emit "e" PNull st) =
    [{| dl_event := "e"; dl_item := {| listener := 1; once_flag := true |};
        dl_payload := PNull |}] ∧
  listenersOf "e" (emit "e" PNull st) = [{| listener := 2; once_flag := false |}].
Proof. vm_compute. done. Qed.

(** C7, as stated, fails: a once-entry whose function is also registered
    with [on], earlier in the sequence, is invoked by two successive emits,
    because [off] removes the first entry of that function, the persistent
    one. *)
Lemma once_entry_fires_twice :
  ¬ (∀ event f st ps, ps ≠ [] →
       firedOnce event f (emits event ps (once event f st)) = firedOnce event f st + 1).
Proof.
  intros H.
  specialize (H "e" 1 (on "e" 1 (BaseClient "" "" 1)) [PNull; PNull] ltac:(done)).
  vm_compute in H. discriminate.
Qed.

(** C7, as amended. A listener registered with [once] under an event name
    for which the same function is not registered already is invoked at most
    once across any number of emits of that name, and once it has been
    invoked it is no longer registered; it is invoked exactly once as soon as
    one emit is made, when the listeners registered before it are all
    persistent. *)
Theorem once_listener_fires_once event f st ps :
  Forall (λ item, listener item ≠ f) (listenersOf event st) →
  let st' := emits event ps (once event f st) in
  fired event f st' ≤ fired event f st + 1 ∧
  (fired event f st' = fired event f st + 1 → registered event f st' = 0) ∧
  (Forall (λ item, once_flag item = false) (listenersOf event st) → ps ≠ [] →
   fired event f st' = fired event f st + 1).
Proof.
  intros Hfresh st'.
  assert (Hreg : registered event f (once event f st) = 1).
  { unfold registered, once. rewrite listenersOf_onHandle, filter_app, length_app.
    rewrite (filter_none _ _ Hfresh), filter_cons; simpl. by rewrite decide_True. }
  assert (Honce : onceOnly event f (once event f st)).
  { intros item. unfold once. rewrite listenersOf_onHandle.
    intros [Hin| ->%list_elem_of_singleton]%elem_of_app; [|done].
    rewrite Forall_forall in Hfresh. intros Hf. by apply Hfresh in Hin. }
  destruct (emits_conserves event f ps _ Honce) as [_ Hsum].
  fold st' in Hsum. rewrite Hreg in Hsum.
  assert (Hfired : fired event f (once event f st) = fired event f st).
  { unfold fired, once. by rewrite delivered_onHandle. }
  rewrite Hfired in Hsum.
  split; [lia|]. split; [lia|].
  intros Hpers Hps. destruct ps as [|p ps]; [done|].
  assert (fired event f st < fired event f (emit event p (once event f st))) as Hlt.
  { rewrite <- Hfired.
    apply (forEachListener_reaches event f p _ 0 (length (listenersOf event st))
             {| listener := f; once_flag := true |} (set_published _ (once event f st))).
    - change (listenersOf event (once event f st) !! length (listenersOf event st)
              = Some {| listener := f; once_flag := true |}).
      unfold once. rewrite listenersOf_onHandle. by apply list_lookup_middle.
    - done.
    - intros j x Hj.
      change (listenersOf event (once event f st) !! j = Some x → once_flag x = false).
      unfold once. rewrite listenersOf_onHandle, lookup_app_l by lia.
      intros Hx. rewrite Forall_forall in Hpers. apply Hpers.
      by eapply list_elem_of_lookup_2.
    - change (0 ≤ length (listenersOf event st)
                < 0 + length (listenersOf event (once event f st))).
      unfold once. rewrite listenersOf_onHandle, length_app. simpl. lia. }
  pose proof (emits_fired_mono event f ps (emit event p (once event f st))) as Hmono.
  change (emits event ps (emit event p (once event f st))) with st' in Hmono.
  lia.
Qed.

(** * Claims about the correlation of requests and responses *)

Section CorrelatorClaims.

Variables (eventTarget apiTarget : string) (fetchTimeout0 : Z).
Variables (pre post : list Input) (action : string) (params : Params).

(** In the statements below [st0] is the client when the call is made,
    after any inputs [pre]; [st] is the client after the call and any
    further inputs [post]; [c] is the call and [deadline] the deadline of
    its timer. A call that [printSendLogger] lets through returns its
    promise, [c]; one on which it throws returns nothing. *)
Lemma call_tracked :
  let st0 := run pre (BaseClient eventTarget apiTarget fetchTimeout0) in
  let c := length (calls st0) in
  online st0 = true → throws action params = false →
  let st1 := step (FetchApi action params) st0 in
  coherent st1 ∧ punctual st1 ∧ pending c st1 ∧ tracked (timerOf c action st0) st1.
Proof.
  intros st0 c Hon Hth st1.
  destruct (reachable_coherent eventTarget apiTarget fetchTimeout0 pre) as [Hco Hp].
  destruct (call_made action params st0 Hco Hp Hon Hth) as (? & ? & ? & ? & _). done.
Qed.

(** C1, as amended. A call of [fetchApi] made while the client is online
    throws a [TypeError] and leaves the client as it was, with nothing sent,
    no timer, no listener and no promise, when it is a [send_msg],
    [send_private_msg] or [send_group_msg] whose message the logger cannot
    read, and only then. Every other call returns its promise and is
    resolved at most once, whatever happens afterwards, and every
    resolution comes from a response frame that carries the call's
    identifier and is not dropped, or from a timer callback. The call is
    pending exactly as long as it has not been resolved. It is resolved
    exactly once as soon as the clock has reached the deadline of its
    timer, and as soon as a response frame with its identifier has been
    delivered on the API socket; a later frame or timer does not resolve it
    again. *)
Theorem fetchApi_resolves_once :
  let st0 := run pre (BaseClient eventTarget apiTarget fetchTimeout0) in
  let st := run post (step (FetchApi action params) st0) in
  let c := length (calls st0) in
  let deadline := (now st0 + timerDelay (fetchTimeout st0))%Z in
  online st0 = true →
  (throws action params = true ↔
     action ∈ ["send_msg"; "send_private_msg"; "send_group_msg"] ∧
     wellFormed (sp_message (loggerView params)) = false) ∧
  (throws action params = true →
   fetchApi action params ThenCaller st0 = (inl TypeError, st0)) ∧
  (throws action params = false →
   (fetchApi action params ThenCaller st0).1 = inr c ∧
   length (resolutionsOf c st) ≤ 1 ∧
   Forall (fromFrameOrTimer c post) (resolutionsOf c st) ∧
   (pending c st ↔ resolutionsOf c st = []) ∧
   ((deadline ≤ now st)%Z → length (resolutionsOf c st) = 1) ∧
   (∀ resp, Message WsApi (JsonResponse resp) ∈ post →
            echo resp = newEcho c → deliverable resp →
            length (resolutionsOf c st) = 1)).
Proof.
  intros st0 st c deadline Hon.
  split; [|split].
  { rewrite throws_spec, andb_true_iff, negb_true_iff. by rewrite logged_elem_of. }
  { intros Hth. unfold fetchApi. rewrite Hon. cbn [negb].
    by rewrite (throws_TypeError _ _ Hth). }
  intros Hth.
  split.
  { unfold fetchApi. rewrite Hon. cbn [negb]. unfold throws in Hth.
    by destruct (printSendLogger _ _ _). }
  destruct (call_tracked Hon Hth) as (Hco1 & Hp1 & Hpen1 & Htr1).
  fold st0 c in Hco1, Hp1, Hpen1, Htr1.
  destruct (call_provenance _ post _ Hco1 Hp1 Htr1 Hpen1) as (Hco & Hp & Htr & Hfrom).
  fold st in Hco, Hp, Htr. simpl in Hfrom. fold st in Hfrom.
  split; [by apply coherent_at_most_once|]. split; [done|]. split; [|split].
  - split; [by intros [_ ?]%(co_pending _ Hco)|].
    intros Hnil. destruct (decide (pending c st)) as [|Hnp]; [done|].
    destruct Htr as [Hlt _]. pose proof (co_settled _ Hco c Hlt Hnp) as Hone.
    by rewrite Hnil in Hone.
  - intros Hdue. by destruct (resolved_by_deadline _ st Hco Hp Htr Hdue).
  - intros resp Hin Hecho Hdel.
    apply list_elem_of_split in Hin as (l1 & l2 & Hpost).
    assert (st = run l2 (run (l1 ++ [Message WsApi (JsonResponse resp)])
                           (step (FetchApi action params) st0))) as ->.
    { unfold st. by rewrite Hpost, cons_middle, app_assoc, run_app. }
    destruct (call_provenance _ (l1 ++ [Message WsApi (JsonResponse resp)]) _
                Hco1 Hp1 Htr1 Hpen1) as (Hco2 & Hp2 & Htr2 & _).
    apply (resolved_for_good (timerOf c action st0)); try done.
    change (t_call (timerOf c action st0)) with c.
    rewrite run_app. unfold pending. rewrite <- Hecho.
    change (run [Message WsApi (JsonResponse resp)] ?s)
      with (step (Message WsApi (JsonResponse resp)) s).
    rewrite (response_delivered resp _ Hdel). by intros ?%elem_of_nil.
Qed.

(** C3, as amended. When the call returns its promise, its identifier is
    not drawn by any other call and no response frame with that identifier
    reaches the listener, the call is not resolved before the deadline of
    its timer, and from the deadline on it has been resolved once, at the
    deadline, with the failed response of code 408 whose message names the
    action. The deadline is set when the call is made, from the timeout
    configured then: a window between 1 and [TIMEOUT_MAX] is used as it is,
    any other is replaced by 1 ms, and [setFetchTimeout], which may occur
    anywhere in [post], changes the field that later calls read and nothing
    of this call. *)
Theorem fetchApi_times_out :
  let st0 := run pre (BaseClient eventTarget apiTarget fetchTimeout0) in
  let st := run post (step (FetchApi action params) st0) in
  let c := length (calls st0) in
  let deadline := (now st0 + timerDelay (fetchTimeout st0))%Z in
  online st0 = true →
  (fetchApi action params ThenCaller st0).1 = inr c →
  (∀ c', newEcho c' = newEcho c → c' = c) →
  Forall (λ i, ¬ answers c i) post →
  let timeout :=
    {| retcode := 408; status := "failed"; data := DNull;
       msg := "Action " +:+ action +:+ " Request_Timeout";
       wording := "Api " +:+ action +:+ " 请求超时"; echo := newEcho c |} in
  resolutionsOf c st =
    (if bool_decide (deadline ≤ now st)%Z
     then [{| r_call := c; r_time := deadline; r_data := timeout |}] else []) ∧
  ((1 ≤ fetchTimeout st0 ≤ TIMEOUT_MAX)%Z → deadline = (now st0 + fetchTimeout st0)%Z) ∧
  (¬ (1 ≤ fetchTimeout st0 ≤ TIMEOUT_MAX)%Z → deadline = (now st0 + 1)%Z) ∧
  (∀ ms s, fetchTimeout (step (SetFetchTimeout ms) s) = ms ∧
           timers (step (SetFetchTimeout ms) s) = timers s).
Proof.
  intros st0 st c deadline Hon Hret Hinj Hok timeout.
  pose proof (proj2 (fetchApi_returned _ _ _ _ _ Hret) Hon) as Hth.
  destruct (call_tracked Hon Hth) as (Hco1 & Hp1 & Hpen1 & Htr1).
  fold st0 c in Hco1, Hp1, Hpen1, Htr1.
  split; [|split; [|split]].
  - by apply (call_times_out (timerOf c action st0)).
  - unfold deadline, timerDelay, TIMEOUT_MAX. intros [H1 H2].
    destruct (fetchTimeout st0 <? 1)%Z eqn:Hlo; [lia|].
    destruct (2147483647 <? fetchTimeout st0)%Z eqn:Hhi; [lia|]. done.
  - unfold deadline, timerDelay, TIMEOUT_MAX. intros Hout.
    destruct (fetchTimeout st0 <? 1)%Z eqn:Hlo; [done|].
    destruct (2147483647 <? fetchTimeout st0)%Z eqn:Hhi; [done|]. lia.
  - done.
Qed.


End CorrelatorClaims.

(** * More on the subscriber registry *)

Section RegistryMore.

Implicit Types (st : Client) (event : string) (p : Payload) (f : nat).

Lemma set_delivered_nil st : set_delivered (delivered st ++ []) st = st.
Proof. destruct st; simpl. by rewrite app_nil_r. Qed.

(** With persistent entries only, the loop is a sequence of invocations. *)
Lemma forEachListener_all_persistent event p n k st :
  Forall (λ item, once_flag item = false) (listenersOf event st) →
  forEachListener event p k n st =
    set_delivered
      (delivered st ++ (mkDelivery event p <$> take n (drop k (listenersOf event st)))) st.
Proof.
  revert k st. induction n as [|n IH]; intros k st Hall.
  - rewrite take_0. simpl. by rewrite set_delivered_nil.
  - rewrite forEachListener_S.
    destruct (listenersOf event st !! k) as [x|] eqn:Hx.
    + assert (once_flag x = false) as Hflag.
      { rewrite Forall_forall in Hall. apply Hall. by eapply list_elem_of_lookup_2. }
      rewrite (visit_persistent _ _ _ _ _ Hx Hflag).
      rewrite IH by done.
      change (listenersOf event (invoke event x p st)) with (listenersOf event st).
      rewrite (drop_S _ _ _ Hx). unfold invoke. destruct st; simpl in *.
      by rewrite <- app_assoc.
    + unfold visit. rewrite Hx. rewrite IH by done.
      apply lookup_ge_None in Hx.
      rewrite !drop_ge by lia. by rewrite !take_nil.
Qed.

(** X1. When every listener registered under an event name is persistent,
    [emit] invokes each of them once, in registration order, with the
    payload it was given; it logs the publication and changes nothing else
    of the client, the registry included. With no listener under the name
    nothing is invoked. *)
Theorem emit_reaches_persistent_listeners event p st :
  Forall (λ item, once_flag item = false) (listenersOf event st) →
  emit event p st =
    set_delivered (delivered st ++ (mkDelivery event p <$> listenersOf event st))
      (set_published (published st ++ [(event, p)]) st).
Proof.
  intros Hall. unfold emit.
  rewrite forEachListener_all_persistent by done.
  change (listenersOf event (set_published _ st)) with (listenersOf event st).
  by rewrite drop_0, firstn_all.
Qed.

Lemma listenersOf_off_ne event event' g st :
  event' ≠ event → listenersOf event' (off event g st) = listenersOf event' st.
Proof.
  intros Hne. unfold off, listenersOf.
  destruct (eventMap st !! event) as [l|]; [|done].
  destruct (findIndex _ l); [|done].
  simpl. by rewrite lookup_insert_ne.
Qed.

(** One round of the loop invokes at most one entry, taken from the array
    as it is then, and only ever shortens the array. *)
Lemma visit_within event p k st :
  ∃ items,
    delivered (visit event p k st) = delivered st ++ (mkDelivery event p <$> items) ∧
    length items ≤ 1 ∧
    Forall (λ item, item ∈ listenersOf event st) items ∧
    listenersOf event (visit event p k st) `sublist_of` listenersOf event st ∧
    ∀ event', event' ≠ event →
      listenersOf event' (visit event p k st) = listenersOf event' st.
Proof.
  unfold visit. destruct (listenersOf event st !! k) as [item|] eqn:Hk.
  - exists [item]. unfold seq.
    assert (item ∈ listenersOf event st) by by eapply list_elem_of_lookup_2.
    destruct (once_flag item); simpl.
    + rewrite delivered_off. split; [done|]. split; [done|].
      split; [by constructor|]. split.
      * rewrite listenersOf_off.
        change (listenersOf event (invoke event item p st)) with (listenersOf event st).
        destruct (findIndex _ _); [apply sublist_delete|done].
      * intros event' Hne. by rewrite listenersOf_off_ne.
    + split; [done|]. split; [done|]. split; [by constructor|]. done.
  - exists []. simpl. rewrite app_nil_r. split; [done|]. split; [lia|]. done.
Qed.

Lemma forEachListener_within event p n k st :
  ∃ items,
    delivered (forEachListener event p k n st) =
      delivered st ++ (mkDelivery event p <$> items) ∧
    length items ≤ n ∧
    Forall (λ item, item ∈ listenersOf event st) items ∧
    listenersOf event (forEachListener event p k n st) `sublist_of` listenersOf event st ∧
    ∀ event', event' ≠ event →
      listenersOf event' (forEachListener event p k n st) = listenersOf event' st.
Proof.
  revert k st. induction n as [|n IH]; intros k st.
  - exists []. simpl. rewrite app_nil_r. split; [done|]. split; [lia|]. done.
  - rewrite forEachListener_S.
    destruct (visit_within event p k st) as (items1 & Hd1 & Hn1 & Hin1 & Hsub1 & Hne1).
    destruct (IH (S k) (visit event p k st)) as (items2 & Hd2 & Hn2 & Hin2 & Hsub2 & Hne2).
    exists (items1 ++ items2). rewrite Hd2, Hd1, fmap_app, <- app_assoc.
    split; [done|]. split; [rewrite length_app; lia|]. split; [|split].
    + apply Forall_app. split; [done|].
      eapply Forall_impl; [exact Hin2|]. intros item Hin. simpl in Hin.
      by eapply elem_of_sublist.
    + by etrans.
    + intros event' Hne. by rewrite Hne2, Hne1.
Qed.

(** X2. Whatever is registered, one [emit] makes at most as many
    invocations as there were entries under the name when it started; each
    is the invocation of one of those entries, with the payload of the emit;
    entries are only ever removed from the array of the name, never added or
    reordered, and the arrays of the other names are left as they are. *)
Theorem emit_invokes_registered_only event p st :
  ∃ items,
    delivered (emit event p st) = delivered st ++ (mkDelivery event p <$> items) ∧
    length items ≤ length (listenersOf event st) ∧
    Forall (λ item, item ∈ listenersOf event st) items ∧
    listenersOf event (emit event p st) `sublist_of` listenersOf event st ∧
    ∀ event', event' ≠ event →
      listenersOf event' (emit event p st) = listenersOf event' st.
Proof.
  exact (forEachListener_within event p _ 0 (set_published (published st ++ [(event, p)]) st)).
Qed.

Lemma findIndex_app {A} (q : A → bool) (l1 l2 : list A) x :
  Forall (λ y, q y = false) l1 → q x = true →
  findIndex q (l1 ++ x :: l2) = Some (length l1).
Proof.
  intros Hall Hx. induction Hall as [|y l1 Hy _ IH]; simpl.
  - by rewrite Hx.
  - by rewrite Hy, IH.
Qed.

Lemma findIndex_none {A} (q : A → bool) (l : list A) :
  Forall (λ y, q y = false) l → findIndex q l = None.
Proof.
  intros Hall. induction Hall as [|y l Hy _ IH]; simpl; [done|].
  by rewrite Hy, IH.
Qed.

Lemma delete_middle_length {A} (l1 l2 : list A) x :
  delete (length l1) (l1 ++ x :: l2) = l1 ++ l2.
Proof. induction l1 as [|y l1 IH]; simpl; [done|]. by rewrite IH. Qed.

Lemma off_unregistered event g st :
  Forall (λ item, listener item ≠ g) (listenersOf event st) → off event g st = st.
Proof.
  intros Hall. unfold off. unfold listenersOf in Hall.
  destruct (eventMap st !! event) as [l|]; [|done]. simpl in Hall.
  rewrite findIndex_none; [done|].
  eapply Forall_impl; [exact Hall|]. intros item Hne. simpl in Hne.
  by apply bool_decide_eq_false_2.
Qed.

Lemma listenersOf_off_split event g st l1 item l2 :
  listenersOf event st = l1 ++ item :: l2 →
  Forall (λ x, listener x ≠ g) l1 → listener item = g →
  listenersOf event (off event g st) = l1 ++ l2.
Proof.
  intros Hl Hall Hg. rewrite listenersOf_off, Hl.
  rewrite findIndex_app.
  - apply delete_middle_length.
  - eapply Forall_impl; [exact Hall|]. intros x Hne. simpl in Hne.
    by apply bool_decide_eq_false_2.
  - by apply bool_decide_eq_true_2.
Qed.

(** X3. [off] removes one entry: the earliest one registered under the
    name for the listener, whatever its kind; the entries before and after
    it keep their order. When the listener is not registered under the
    name, or the name is unknown, the client is left exactly as it is. The
    arrays of the other names are never touched. *)
Theorem off_removes_earliest_entry event f st :
  (∀ l1 item l2,
     listenersOf event st = l1 ++ item :: l2 →
     Forall (λ x, listener x ≠ f) l1 → listener item = f →
     listenersOf event (off event f st) = l1 ++ l2) ∧
  (Forall (λ item, listener item ≠ f) (listenersOf event st) → off event f st = st) ∧
  (∀ event', event' ≠ event →
     listenersOf event' (off event f st) = listenersOf event' st).
Proof.
  split; [|split].
  - intros l1 item l2. apply listenersOf_off_split.
  - apply off_unregistered.
  - intros event' Hne. by apply listenersOf_off_ne.
Qed.

Lemma listenersOf_onHandle_ne event event' g b st :
  event' ≠ event → listenersOf event' (onHandle event g b st) = listenersOf event' st.
Proof.
  intros Hne. unfold onHandle, listenersOf.
  destruct (eventMap st !! event); simpl; by rewrite lookup_insert_ne.
Qed.

Lemma filter_split_first {A} (P : A → Prop) `{!∀ x, Decision (P x)} (l : list A) :
  Forall (λ x, ¬ P x) l ∨
  ∃ l1 x l2, l = l1 ++ x :: l2 ∧ Forall (λ y, ¬ P y) l1 ∧ P x.
Proof.
  induction l as [|y l IH]; [left; constructor|].
  destruct (decide (P y)) as [Hy|Hy].
  - right. exists [], y, l. split; [done|]. split; [constructor|done].
  - destruct IH as [Hall|(l1 & x & l2 & -> & Hall & Hx)].
    + left. by constructor.
    + right. exists (y :: l1), x, l2. split; [done|]. split; [by constructor|done].
Qed.

(** X4. Registering a listener and then removing it restores the number
    of entries under the name and the number of entries of that listener.
    When the listener was not registered under the name before, the arrays
    of all names are restored exactly; when it was, it is the earliest entry
    of the listener that goes, and the new entry stays at the end. *)
Theorem off_undoes_on event f b st :
  let st' := off event f (onHandle event f b st) in
  length (listenersOf event st') = length (listenersOf event st) ∧
  registered event f st' = registered event f st ∧
  (Forall (λ item, listener item ≠ f) (listenersOf event st) →
   ∀ event', listenersOf event' st' = listenersOf event' st) ∧
  (∀ l1 item l2,
     listenersOf event st = l1 ++ item :: l2 →
     Forall (λ x, listener x ≠ f) l1 → listener item = f →
     listenersOf event st' = l1 ++ l2 ++ [{| listener := f; once_flag := b |}]).
Proof.
  intros st'. subst st'.
  set (new := {| listener := f; once_flag := b |}).
  assert (Hfresh : Forall (λ item, listener item ≠ f) (listenersOf event st) →
                   listenersOf event (off event f (onHandle event f b st)) =
                     listenersOf event st).
  { intros Hall.
    rewrite (listenersOf_off_split event f _ (listenersOf event st) new []);
      [by rewrite app_nil_r|apply listenersOf_onHandle|done|done]. }
  assert (Hold : ∀ l1 item l2,
             listenersOf event st = l1 ++ item :: l2 →
             Forall (λ x, listener x ≠ f) l1 → listener item = f →
             listenersOf event (off event f (onHandle event f b st)) = l1 ++ l2 ++ [new]).
  { intros l1 item l2 Hl Hall Hf.
    apply (listenersOf_off_split event f _ l1 item (l2 ++ [new])); [|done|done].
    by rewrite listenersOf_onHandle, Hl, <- app_assoc. }
  destruct (filter_split_first (λ x, listener x = f) (listenersOf event st))
    as [Hall|(l1 & item & l2 & Hl & Hall & Hf)].
  - split; [by rewrite Hfresh|]. split; [unfold registered; by rewrite Hfresh|].
    split; [|done]. intros _ event'.
    destruct (decide (event' = event)) as [->|Hne]; [by apply Hfresh|].
    by rewrite listenersOf_off_ne, listenersOf_onHandle_ne.
  - pose proof (Hold l1 item l2 Hl Hall Hf) as Heq.
    split; [rewrite Heq, Hl, !length_app; simpl; rewrite ?length_app; simpl; lia|].
    split.
    + unfold registered. rewrite Heq, Hl, !filter_app, !length_app.
      rewrite (filter_cons_True _ item) by done.
      rewrite (filter_cons_True _ new) by reflexivity. simpl. lia.
    + split; [|exact Hold]. intros Hnone. exfalso.
      rewrite Hl in Hnone. apply Forall_app in Hnone as [_ Hnone].
      by inversion Hnone.
Qed.

End RegistryMore.

(** * What the handlers leave alone *)

Section Frames.

Implicit Types (st : Client) (i : Input).

Lemma keeps_skip {A} (f : Client → A) : keeps f skip.
Proof. by intros st. Qed.

Lemma keeps_seq {A} (f : Client → A) (c1 c2 : Cmd) :
  keeps f c1 → keeps f c2 → keeps f (c1 ;; c2).
Proof. intros H1 H2 st. unfold seq. by rewrite H2. Qed.

Lemma keeps_when {A} (f : Client → A) b (c : Cmd) : keeps f c → keeps f (when b c).
Proof. intros H st. destruct b; [apply H|done]. Qed.

Lemma keeps_when_false {A} (f : Client → A) (c : Cmd) : keeps f (when false c).
Proof. by intros st. Qed.

Lemma keeps_if {A} (f : Client → A) (b : bool) (c1 c2 : Cmd) :
  keeps f c1 → keeps f c2 → keeps f (if b then c1 else c2).
Proof. by destruct b. Qed.

Lemma keeps_withState {A} (f : Client → A) (g : Client → Cmd) :
  (∀ s, keeps f (g s)) → keeps f (withState g).
Proof. intros H st. apply H. Qed.

Lemma keeps_foldl {A B} (f : Client → A) (g : B → Cmd) (l : list B) st :
  (∀ x, keeps f (g x)) → f (foldl (λ s x, g x s) st l) = f st.
Proof.
  intros H. revert st. induction l as [|x l IH]; intros st; simpl; [done|].
  rewrite IH. apply H.
Qed.

Section Passive.

Context {A : Type} (f : Client → A) (Hf : passive f).

Lemma keeps_emit event p : keeps f (emit event p).
Proof.
  intros st. destruct (emit_shape event p st) as (em & items & ->).
  by rewrite (pv_delivered _ Hf), (pv_eventMap _ Hf), (pv_published _ Hf).
Qed.

Lemma keeps_onHandle event l b : keeps f (onHandle event l b).
Proof.
  intros st. unfold onHandle. destruct (eventMap st !! event); apply (pv_eventMap _ Hf).
Qed.

Lemma keeps_off event l : keeps f (off event l).
Proof.
  intros st. unfold off. destruct (eventMap st !! event) as [ls|]; [|done].
  destruct (findIndex _ ls); [apply (pv_eventMap _ Hf)|done].
Qed.

Lemma keeps_resolve c resp : keeps f (resolve c resp).
Proof.
  intros st. destruct (resolve_shape c resp st) as (js & ->).
  by rewrite (pv_jobs _ Hf), (pv_resolutions _ Hf).
Qed.

Lemma keeps_clearTimeout c : keeps f (clearTimeout c).
Proof. intros st. apply (pv_timers _ Hf). Qed.

Lemma keeps_fetchApi action params k : keeps f (fetchApi_ action params k).
Proof.
  intros st. destruct (online st) eqn:Hon; [destruct (throws action params) eqn:Hth|].
  - by rewrite (fetchApi_thrown action params k st Hon Hth).
  - destruct (fetchApi_online action params k st Hon Hth) as (am & ->).
    by rewrite (pv_apiMap _ Hf), (pv_timers _ Hf), (pv_sent _ Hf), (pv_calls _ Hf).
  - destruct (fetchApi_offline action params k st Hon) as (js & ->).
    by rewrite (pv_jobs _ Hf), (pv_resolutions _ Hf), (pv_calls _ Hf).
Qed.

Lemma keeps_emitApi e resp : keeps f (emitApi e resp).
Proof.
  intros st. unfold emitApi. rewrite (pv_apiMap _ Hf).
  apply (keeps_foldl f (λ c, clearTimeout c ;; resolve c resp)).
  intros c. apply keeps_seq; [apply keeps_clearTimeout|apply keeps_resolve].
Qed.

Lemma keeps_runJob k resp : keeps f (runJob k resp).
Proof.
  intros st. destruct k; simpl.
  - apply (pv_oneBotVersion _ Hf).
  - destruct (retcode resp === 0%Z); [|by rewrite (pv_glStray _ Hf), (pv_gl _ Hf)].
    destruct (data resp); try done; by rewrite (pv_glStray _ Hf), (pv_gl _ Hf).
  - destruct (retcode resp === 0%Z); [|by rewrite (pv_flStray _ Hf), (pv_fl _ Hf)].
    destruct (data resp); try done; by rewrite (pv_flStray _ Hf), (pv_fl _ Hf).
  - done.
Qed.

Lemma keeps_drain : keeps f drain.
Proof.
  intros st. unfold drain.
  rewrite (keeps_foldl f (λ j, runJob j.1 j.2) (jobs st)).
  - apply (pv_jobs _ Hf).
  - intros j. apply keeps_runJob.
Qed.

Lemma keeps_assign ref g : keeps f (assign ref g).
Proof. intros st. apply (pv_objects _ Hf). Qed.

Lemma keeps_emitData event ref : keeps f (emitData event ref).
Proof. apply keeps_withState. intros s. apply keeps_emit. Qed.

Lemma keeps_callClosure cl args : keeps f (callClosure cl args).
Proof.
  destruct cl; apply keeps_fetchApi.
Qed.

Lemma keeps_onApiMessage raw : keeps f (onApiMessage raw).
Proof.
  destruct raw as [|resp|]; simpl; try apply keeps_skip.
  destruct (echo resp === ""); [apply keeps_skip|].
  destruct (retcode resp === 1%Z); [apply keeps_skip|apply keeps_emitApi].
Qed.

Lemma keeps_runDue due : keeps f (runDue due).
Proof.
  induction due as [|t due IH]; intros st; simpl; [done|].
  rewrite IH. apply keeps_when.
  apply keeps_seq; [apply keeps_clearTimeout|].
  apply keeps_seq; [apply keeps_emitApi|apply keeps_drain].
Qed.

Lemma keeps_tick : keeps f tick.
Proof. intros st. unfold tick. rewrite keeps_runDue. apply (pv_now _ Hf). Qed.

End Passive.

Ltac keeps_tac Hf :=
  repeat (cbv beta;
    lazymatch goal with
    | H : keeps ?f ?c |- keeps ?f ?c => exact H
    | |- keeps _ (withState _) => apply keeps_withState; intros ?
    | |- keeps _ (seq _ _) => apply keeps_seq
    | |- keeps _ (when false _) => apply keeps_when_false
    | |- keeps _ (when _ _) => apply keeps_when
    | |- keeps _ (if _ then _ else _) => apply keeps_if
    | |- keeps _ (fetchApi_ _ _ _) => apply (keeps_fetchApi _ Hf)
    | |- keeps _ getVersionInfo => apply (keeps_fetchApi _ Hf)
    | |- keeps _ setGroupList => apply (keeps_fetchApi _ Hf)
    | |- keeps _ setFriendList => apply (keeps_fetchApi _ Hf)
    | |- keeps _ (emitData _ _) => apply (keeps_emitData _ Hf)
    | |- keeps _ (emit _ _) => apply (keeps_emit _ Hf)
    | |- keeps _ (assign _ _) => apply (keeps_assign _ Hf)
    | |- keeps _ (onHandle _ _ _) => apply (keeps_onHandle _ Hf)
    | |- keeps _ (off _ _) => apply (keeps_off _ Hf)
    | |- keeps _ (callClosure _ _) => apply (keeps_callClosure _ Hf)
    | |- keeps _ (onApiMessage _) => apply (keeps_onApiMessage _ Hf)
    | |- keeps _ tick => apply (keeps_tick _ Hf)
    | |- keeps _ skip => apply keeps_skip
    | |- keeps _ drain => apply (keeps_drain _ Hf)
    | |- keeps _ _ => intros ?; reflexivity
    end).

(** The handlers of the event socket, for a field that the assignment of
    the online flag does not touch either. *)
Lemma keeps_onEventMessage {A} (f : Client → A) raw :
  passive f → (∀ v st, f (set_online v st) = f st) → keeps f (onEventMessage raw).
Proof.
  intros Hf Hon.
  assert (∀ b, keeps f (set_online b)) as Hset by (intros b st; apply Hon).
  destruct raw as [| |d]; simpl; try apply keeps_skip.
  unfold onMetaEvent, onMessage, onNotice, onRequest.
  keeps_tac Hf; first [apply Hset|intros ?; apply (pv_objects _ Hf)].
Qed.

Lemma keeps_onEventClose {A} (f : Client → A) :
  passive f → (∀ v st, f (set_online v st) = f st) → keeps f onEventClose.
Proof.
  intros Hf Hon.
  assert (∀ b, keeps f (set_online b)) as Hset by (intros b st; apply Hon).
  unfold onEventClose. keeps_tac Hf; apply Hset.
Qed.

Lemma passive_sharedSocket : passive sharedSocket.
Proof. by split. Qed.
Lemma passive_online : passive online.
Proof. by split. Qed.
Lemma passive_wsOps : passive wsOps.
Proof. by split. Qed.

Lemma step_sharedSocket i st : sharedSocket (step i st) = sharedSocket st.
Proof.
  revert st. change (keeps sharedSocket (step i)).
  pose proof passive_sharedSocket as Hf.
  assert (∀ raw, keeps sharedSocket (onEventMessage raw)) as Hev
    by (intros raw; by apply keeps_onEventMessage).
  assert (keeps sharedSocket onEventClose) as Hcl by by apply keeps_onEventClose.
  destruct i; unfold step, onSocketMessage, onSocketClose, setFetchTimeout, setTarget,
    on, once, reConnect, connect, closeConnect;
    try destruct sock; keeps_tac Hf; try apply Hev.
Qed.

(** X5. The wiring of the handlers is decided by the constructor and never
    changes afterwards: the client uses one socket for both channels exactly
    when it was constructed with an empty API target or with an API target
    equal to the event target, whatever is done to it later, [setTarget]
    included. *)
Theorem wiring_is_fixed_at_construction eventTarget apiTarget fetchTimeout ins :
  sharedSocket (run ins (BaseClient eventTarget apiTarget fetchTimeout)) = true
  ↔ apiTarget = "" ∨ apiTarget = eventTarget.
Proof.
  assert (∀ st, sharedSocket (run ins st) = sharedSocket st) as ->.
  { unfold run. induction ins as [|i ins IH]; intros st; simpl; [done|].
    by rewrite IH, step_sharedSocket. }
  unfold BaseClient, needApiConnect. simpl.
  destruct (decide (apiTarget = "")) as [->|Ha].
  - rewrite bool_decide_eq_true_2 by done. simpl. tauto.
  - rewrite (bool_decide_eq_false_2 (apiTarget = "")) by done. simpl.
    destruct (decide (apiTarget = eventTarget)) as [->|He].
    + rewrite bool_decide_eq_true_2 by done. simpl. tauto.
    + rewrite bool_decide_eq_false_2 by done. simpl. split; [done|tauto].
Qed.

Lemma drain_online st : online (drain st) = online st.
Proof. apply (keeps_drain _ passive_online). Qed.

Lemma onApiMessage_online raw st : online (onApiMessage raw st) = online st.
Proof. apply (keeps_onApiMessage _ passive_online). Qed.

(** An event frame that is not a heartbeat leaves the online flag alone. *)
Lemma onEventMessage_online raw st :
  (∀ d, raw = JsonEvent d →
        ¬ (post_type d = "meta_event" ∧ meta_event_type d = "heartbeat")) →
  online (onEventMessage raw st) = online st.
Proof.
  intros Hno. revert st. change (keeps online (onEventMessage raw)).
  pose proof passive_online as Hf.
  destruct raw as [| |d]; simpl; [apply keeps_skip..|].
  specialize (Hno d eq_refl).
  apply keeps_withState; intros s.
  destruct (decide (post_type d = "meta_event")) as [Hp|Hp].
  - assert (meta_event_type d ≠ "heartbeat") as Hm by tauto.
    unfold onMetaEvent, onMessage, onNotice, onRequest.
    rewrite (bool_decide_eq_false_2 _ Hm).
    keeps_tac Hf.
  - rewrite (bool_decide_eq_false_2 _ Hp).
    unfold onMetaEvent, onMessage, onNotice, onRequest.
    keeps_tac Hf.
Qed.

(** X6. The online flag changes only when a heartbeat frame arrives or a
    socket closes, on the socket that carries the events. Any other input
    leaves it as it is: other frames, a timer that fires, a call of
    [fetchApi] or of a closure, [connect], [closeConnect] and [reConnect],
    and, when the API has a socket of its own, whatever arrives on that
    socket and its close. *)
Theorem online_changes_on_heartbeat_or_close i st :
  ¬ mayChangeOnline i st → online (step i st) = online st.
Proof.
  intros Hno. pose proof passive_online as Hf.
  destruct i; simpl in Hno; unfold carriesEvents in Hno.
  - unfold step, seq. rewrite drain_online. unfold onSocketMessage, withState.
    assert (Hev : (sharedSocket st = true ∨ sock = WsEvent) →
                  online (onEventMessage raw st) = online st).
    { intros Hc. apply onEventMessage_online. intros d ->. tauto. }
    destruct (sharedSocket st) eqn:Hsh; [|destruct sock].
    + unfold seq. rewrite onApiMessage_online. apply Hev. by left.
    + apply Hev. by right.
    + apply onApiMessage_online.
  - unfold step, seq. rewrite drain_online. unfold onSocketClose, withState.
    destruct (sharedSocket st) eqn:Hsh; [tauto|]. destruct sock; [tauto|done].
  - apply (keeps_tick _ Hf).
  - unfold step, seq. rewrite drain_online. apply (keeps_fetchApi _ Hf).
  - done.
  - done.
  - done.
  - apply (keeps_onHandle _ Hf).
  - apply (keeps_onHandle _ Hf).
  - apply (keeps_off _ Hf).
  - unfold step, seq. rewrite drain_online. apply (keeps_emit _ Hf).
  - unfold step, seq. rewrite drain_online. apply (keeps_callClosure _ Hf).
  - unfold step, connect, withState, seq, when. by destruct (needApiConnect st).
  - unfold step, closeConnect, withState, seq, when. by destruct (needApiConnect st).
  - unfold step, reConnect, connect, closeConnect, withState, seq, when.
    by repeat match goal with |- context [if ?b then _ else _] => destruct b end.
Qed.

(** X7. The client opens or closes a socket only when a collaborator
    calls [connect], [closeConnect] or [reConnect]. No frame, no close of a
    socket, no timer and no other call makes it do so: in particular it
    never reconnects on its own. *)
Theorem sockets_change_on_command_only i st :
  ¬ socketCommand i → wsOps (step i st) = wsOps st.
Proof.
  intros Hno. revert st. change (keeps wsOps (step i)).
  pose proof passive_wsOps as Hf.
  assert (∀ raw, keeps wsOps (onEventMessage raw)) as Hev
    by (intros raw; by apply keeps_onEventMessage).
  assert (keeps wsOps onEventClose) as Hcl by by apply keeps_onEventClose.
  unfold socketCommand in Hno.
  destruct i; try tauto;
    unfold step, onSocketMessage, onSocketClose, setFetchTimeout, setTarget, on, once;
    try destruct sock; keeps_tac Hf; try apply Hev.
Qed.

(** ** Frames that are ignored *)

Lemma jobs_runJob k resp st : jobs (runJob k resp st) = jobs st.
Proof.
  destruct k; simpl; try done.
  - destruct (retcode resp === 0%Z); [|done]. by destruct (data resp).
  - destruct (retcode resp === 0%Z); [|done]. by destruct (data resp).
Qed.

Lemma jobs_drain st : jobs (drain st) = [].
Proof.
  unfold drain.
  assert (∀ l s, jobs (foldl (λ s j, runJob j.1 j.2 s) s l) = jobs s) as ->; [|done].
  induction l as [|j l IH]; intros s; simpl; [done|]. by rewrite IH, jobs_runJob.
Qed.

Lemma jobs_runDue due st : jobs st = [] → jobs (runDue due st) = [].
Proof.
  revert st. induction due as [|t due IH]; intros st Hj; simpl; [done|].
  apply IH. unfold when. destruct (isActive (t_call t) st); [|done].
  unfold seq. apply jobs_drain.
Qed.

Lemma jobs_step i st : jobs st = [] → jobs (step i st) = [].
Proof.
  intros Hj. destruct i; unfold step, seq; try apply jobs_drain.
  - unfold tick. by apply jobs_runDue.
  - done.
  - done.
  - done.
  - unfold on, onHandle. by destruct (eventMap st !! event).
  - unfold once, onHandle. by destruct (eventMap st !! event).
  - unfold off. destruct (eventMap st !! event) as [ls|]; [|done].
    by destruct (findIndex _ ls).
  - unfold connect, withState, seq, when. by destruct (needApiConnect st).
  - unfold closeConnect, withState, seq, when. by destruct (needApiConnect st).
  - unfold reConnect, connect, closeConnect, withState, seq, when.
    by repeat match goal with |- context [if ?b then _ else _] => destruct b end.
Qed.

(** The promise jobs queued by a callback have all run when the next
    callback starts. *)
Lemma reachable_jobs st : reachable st → jobs st = [].
Proof.
  intros (e & a & t & ins & ->).
  assert (∀ st, jobs st = [] → jobs (run ins st) = []) as H; [|by apply H].
  unfold run. induction ins as [|i ins IH]; intros st Hj; simpl; [done|].
  by apply IH, jobs_step.
Qed.

Lemma drain_idle st : jobs st = [] → drain st = st.
Proof. intros Hj. unfold drain. rewrite Hj. simpl. destruct st; simpl in *. by subst. Qed.

Lemma emitApi_unknown e resp st : apiMap st !! e = None → emitApi e resp st = st.
Proof.
  intros He. unfold emitApi, apiListeners. rewrite He. simpl.
  rewrite delete_id by done. by destruct st.
Qed.

Lemma onApiMessage_ignored raw st :
  (∀ resp, raw = JsonResponse resp →
           echo resp = "" ∨ retcode resp = 1%Z ∨ apiMap st !! echo resp = None) →
  onApiMessage raw st = st.
Proof.
  intros Hno. destruct raw as [|resp|]; simpl; try done.
  destruct (decide (echo resp = "")) as [He|He].
  { by rewrite (bool_decide_eq_true_2 _ He). }
  rewrite (bool_decide_eq_false_2 _ He).
  destruct (decide (retcode resp = 1%Z)) as [Hr|Hr].
  { by rewrite (bool_decide_eq_true_2 _ Hr). }
  rewrite (bool_decide_eq_false_2 _ Hr).
  destruct (Hno resp eq_refl) as [?|[?|Hnone]]; try done.
  by apply emitApi_unknown.
Qed.

(** X8. A socket message that no handler acts on leaves the client
    exactly as it is: text that is not JSON; when the API has a socket of
    its own, an event frame on the API socket and a response frame on the
    event socket; and a response frame with an empty identifier, with the
    result code 1, or with an identifier under which no call is pending,
    such as a response that arrives after its call has timed out. *)
Theorem ignored_frames_change_nothing sock raw st :
  reachable st → ignored sock raw st → step (Message sock raw) st = st.
Proof.
  intros Hre Hig. unfold step, seq.
  assert (onSocketMessage sock raw st = st) as ->;
    [|by apply drain_idle, reachable_jobs].
  unfold onSocketMessage, withState, seq.
  destruct raw as [text|resp|d]; simpl in Hig.
  - by destruct (sharedSocket st), sock.
  - assert (sharedSocket st = false ∧ sock = WsEvent ∨
            onApiMessage (JsonResponse resp) st = st) as [[-> ->]|Happ].
    { destruct Hig as [?|Hig]; [by left|right].
      apply onApiMessage_ignored. by intros ? [= <-]. }
    + done.
    + destruct (sharedSocket st); [exact Happ|]. destruct sock; [done|exact Happ].
  - by destruct Hig as [-> ->].
Qed.

(** ** Opening the sockets *)

Lemma connect_shape s :
  connect s =
    set_wsOps
      (wsOps s ++
       WsConnect "wsEvent" ("ws://" +:+ eventTarget s) ::
       (if needApiConnect s then [WsConnect (wsApiName s) ("ws://" +:+ apiTarget s)]
        else [])) s.
Proof.
  unfold connect, withState, seq, when.
  destruct (needApiConnect s); destruct s; simpl; by rewrite <- ?app_assoc.
Qed.

Lemma closeConnect_shape s :
  closeConnect s =
    set_wsOps
      (wsOps s ++
       WsClose "wsEvent" :: (if needApiConnect s then [WsClose (wsApiName s)] else [])) s.
Proof.
  unfold closeConnect, withState, seq, when.
  destruct (needApiConnect s); destruct s; simpl; by rewrite <- ?app_assoc.
Qed.

Lemma passive_eventTarget : passive eventTarget.
Proof. by split. Qed.
Lemma passive_apiTarget : passive apiTarget.
Proof. by split. Qed.

Lemma step_targets i st :
  (∀ e a, i ≠ SetTarget e a) →
  eventTarget (step i st) = eventTarget st ∧ apiTarget (step i st) = apiTarget st.
Proof.
  intros Hno. split; revert st.
  - change (keeps eventTarget (step i)).
    pose proof passive_eventTarget as Hf.
    assert (∀ raw, keeps eventTarget (onEventMessage raw)) as Hev
      by (intros raw; by apply keeps_onEventMessage).
    assert (keeps eventTarget onEventClose) as Hcl by by apply keeps_onEventClose.
    destruct i; try (by exfalso; eapply Hno);
      unfold step, onSocketMessage, onSocketClose, setFetchTimeout,
        on, once, reConnect, connect, closeConnect;
      try destruct sock; keeps_tac Hf; try apply Hev.
  - change (keeps apiTarget (step i)).
    pose proof passive_apiTarget as Hf.
    assert (∀ raw, keeps apiTarget (onEventMessage raw)) as Hev
      by (intros raw; by apply keeps_onEventMessage).
    assert (keeps apiTarget onEventClose) as Hcl by by apply keeps_onEventClose.
    destruct i; try (by exfalso; eapply Hno);
      unfold step, onSocketMessage, onSocketClose, setFetchTimeout,
        on, once, reConnect, connect, closeConnect;
      try destruct sock; keeps_tac Hf; try apply Hev.
Qed.

Lemma run_sharedSocket ins st : sharedSocket (run ins st) = sharedSocket st.
Proof.
  revert st. unfold run. induction ins as [|i ins IH]; intros st; simpl; [done|].
  by rewrite IH, step_sharedSocket.
Qed.

Lemma run_targets ins st :
  Forall (λ i, ∀ e a, i ≠ SetTarget e a) ins →
  eventTarget (run ins st) = eventTarget st ∧ apiTarget (run ins st) = apiTarget st.
Proof.
  intros Hall. revert st. unfold run.
  induction Hall as [|i ins Hi _ IH]; intros st; simpl; [done|].
  destruct (IH (step i st)) as [-> ->]. by apply step_targets.
Qed.

(** X9. [connect] opens the event socket at the event target and, when
    the client needs a second connection, the API socket at the API target.
    Whether a second connection is needed is read from the targets as they
    are now, whereas the sockets are those that the constructor made. So on
    a client constructed with one socket for both channels, once
    [setTarget] has given it an API target of its own, [connect] opens that
    one socket twice, the second time at the API target, and [reConnect]
    closes it twice first. *)
Theorem connect_after_setTarget_on_one_socket target timeout eventTarget' apiTarget' ins1 ins2 :
  apiTarget' ≠ "" → apiTarget' ≠ eventTarget' →
  Forall (λ i, ∀ e a, i ≠ SetTarget e a) ins2 →
  let st := run (ins1 ++ SetTarget eventTarget' apiTarget' :: ins2)
              (BaseClient target "" timeout) in
  wsOps (step Connect st) =
    wsOps st ++
    [WsConnect "wsEvent" ("ws://" +:+ eventTarget');
     WsConnect "wsEvent" ("ws://" +:+ apiTarget')] ∧
  wsOps (step ReConnect st) =
    wsOps st ++
    [WsClose "wsEvent"; WsClose "wsEvent";
     WsConnect "wsEvent" ("ws://" +:+ eventTarget');
     WsConnect "wsEvent" ("ws://" +:+ apiTarget')].
Proof.
  intros Ha He Hins2 st.
  assert (sharedSocket st = true ∧ eventTarget st = eventTarget' ∧ apiTarget st = apiTarget')
    as (Hsh & Het & Hat).
  { subst st. rewrite run_sharedSocket. split; [done|].
    rewrite run_app. change (run (?i :: ?l) ?s) with (run l (step i s)).
    destruct (run_targets ins2 (step (SetTarget eventTarget' apiTarget') (run ins1
                (BaseClient target "" timeout))) Hins2) as [-> ->].
    done. }
  assert (needApiConnect st = true ∧ wsApiName st = "wsEvent") as (Hneed & Hname).
  { unfold needApiConnect, wsApiName. rewrite Hsh, Het, Hat.
    by rewrite (bool_decide_eq_false_2 _ Ha), (bool_decide_eq_false_2 _ He). }
  split.
  - unfold step. rewrite connect_shape, Hneed, Het, Hat, Hname. done.
  - unfold step, reConnect, seq. rewrite closeConnect_shape, Hneed, Hname.
    set (s1 := set_wsOps _ st).
    assert (needApiConnect s1 = true ∧ eventTarget s1 = eventTarget' ∧
            apiTarget s1 = apiTarget' ∧ wsApiName s1 = "wsEvent")
      as (Hneed1 & Het1 & Hat1 & Hname1) by done.
    rewrite connect_shape, Hneed1, Het1, Hat1, Hname1.
    subst s1. cbn [wsOps set_wsOps]. by rewrite <- app_assoc.
Qed.

End Frames.

(** * The directories and their refreshes *)

Section Directory.

Implicit Types (st : Client) (c : nat) (resp : ActionResponse).

Lemma foldl_insert_lookup {A} (key : A → Z) (l : list A) (m : gmap Z A) k :
  foldl (λ m d, <[key d := d]> m) m l !! k =
    match last (filter (λ d, key d = k) l) with
    | Some d => Some d
    | None => m !! k
    end.
Proof.
  revert m. induction l as [|x l IH]; intros m; simpl; [done|].
  rewrite IH. destruct (decide (key x = k)) as [Hk|Hk].
  - rewrite filter_cons_True by done. rewrite last_cons.
    destruct (last (filter _ l)); [done|]. by rewrite <- Hk, lookup_insert_eq.
  - rewrite filter_cons_False by done.
    destruct (last (filter _ l)); [done|]. by rewrite lookup_insert_ne.
Qed.

(** X24. The directory built from a list of entries, as
    [new Map( list.map( d => [ key( d ), d ] ) )] builds it, holds under
    each key the last entry of the list with that key, and nothing under a
    key that no entry has. So every entry found sits under its own key and
    comes from the list, and when the keys of the list are distinct every
    entry of the list is found under its key. *)
Theorem mapOf_lookup {A} (key : A → Z) (l : list A) :
  (∀ k, mapOf key l !! k = last (filter (λ d, key d = k) l)) ∧
  (∀ k d, mapOf key l !! k = Some d → key d = k ∧ d ∈ l) ∧
  (NoDup (key <$> l) → ∀ d, d ∈ l → mapOf key l !! key d = Some d).
Proof.
  assert (Hlast : ∀ k, mapOf key l !! k = last (filter (λ d, key d = k) l)).
  { intros k. unfold mapOf. rewrite foldl_insert_lookup, lookup_empty.
    by destruct (last _). }
  split; [done|]. split.
  - intros k d. rewrite Hlast. intros Hd.
    assert (d ∈ filter (λ d, key d = k) l) as Hin.
    { apply last_Some in Hd as [l' ->]. apply elem_of_app. right. by left. }
    by apply list_elem_of_filter in Hin.
  - intros Hnd d Hd. rewrite Hlast.
    apply list_elem_of_split in Hd as (l1 & l2 & ->).
    rewrite fmap_app, fmap_cons in Hnd.
    apply NoDup_app in Hnd as (_ & Hl1 & Hnd). apply NoDup_cons in Hnd as [Hl2 _].
    rewrite filter_app, filter_cons_True by done.
    rewrite (filter_none _ l2).
    + by rewrite last_snoc.
    + apply Forall_forall. intros x Hx Heq. apply Hl2.
      rewrite <- Heq. by apply list_elem_of_fmap_2.
Qed.

(** ** The jobs that the delivery of a response queues *)

Lemma settled_false c st : c ∉ r_call <$> resolutions st → settled c st = false.
Proof. intros H. by apply bool_decide_eq_false_2. Qed.

Lemma listeners_jobs resp (l : list nat) st :
  NoDup l →
  (∀ c, c ∈ l → c ∉ r_call <$> resolutions st) →
  let st' := foldl (λ s c, (clearTimeout c ;; resolve c resp) s) st l in
  jobs st' = jobs st ++ omap (λ c, (λ call, (c_then call, resp)) <$> calls st !! c) l ∧
  gl st' = gl st ∧ fl st' = fl st ∧ oneBotVersion st' = oneBotVersion st.
Proof.
  intros Hnd. revert st. induction Hnd as [|c l Hc Hnd IH]; intros st Hfresh; simpl.
  { by rewrite app_nil_r. }
  set (s1 := (clearTimeout c ;; resolve c resp) st).
  assert (resolutions s1 = resolutions st ++ [resolutionAt st resp c] ∧
          calls s1 = calls st ∧
          jobs s1 = jobs st ++ from_option (λ call, [(c_then call, resp)]) [] (calls st !! c) ∧
          gl s1 = gl st ∧ fl s1 = fl st ∧ oneBotVersion s1 = oneBotVersion st)
    as (Hres & Hcalls & Hjobs & Hgl & Hfl & Hv).
  { subst s1. unfold seq, resolve, clearTimeout.
    rewrite settled_false by (apply Hfresh; by left).
    simpl. destruct (calls st !! c); simpl; by rewrite ?app_nil_r. }
  destruct (IH s1) as (Hj & -> & -> & ->).
  { intros c' Hc'. rewrite Hres, fmap_app, elem_of_app. simpl.
    intros [?|Heq%list_elem_of_singleton].
    - apply (Hfresh c'); [by right|done].
    - by subst. }
  split; [|done].
  rewrite Hj, Hjobs, Hcalls, <- app_assoc. f_equal.
  by destruct (calls st !! c).
Qed.

Lemma emitApi_jobs e resp st :
  NoDup (apiListeners e st) →
  (∀ c, c ∈ apiListeners e st → c ∉ r_call <$> resolutions st) →
  jobs (emitApi e resp st) =
    jobs st ++
    omap (λ c, (λ call, (c_then call, resp)) <$> calls st !! c) (apiListeners e st) ∧
  gl (emitApi e resp st) = gl st ∧ fl (emitApi e resp st) = fl st ∧
  oneBotVersion (emitApi e resp st) = oneBotVersion st.
Proof. intros Hnd Hfresh. unfold emitApi. by apply listeners_jobs. Qed.

(** A field that one kind of continuation writes, after a run of jobs
    that all carry the same response. *)
Lemma foldl_runJob_field {A} (f : Client → A) (G : A → A) k resp
    (js : list (Continuation * ActionResponse)) s0 :
  (∀ s, f (runJob k resp s) = G (f s)) →
  (∀ k' s, k' ≠ k → f (runJob k' resp s) = f s) →
  (∀ x, G (G x) = G x) →
  Forall (λ j, j.2 = resp) js →
  f (foldl (λ s j, runJob j.1 j.2 s) s0 js) =
    if bool_decide (k ∈ js.*1) then G (f s0) else f s0.
Proof.
  intros Hk Hother Hidem Hall. revert s0.
  induction Hall as [|[k1 r1] js Hr _ IH]; intros s0; [done|].
  simpl in Hr. subst r1. cbn [foldl fst snd]. rewrite IH, fmap_cons. cbn [fst].
  destruct (decide (k1 = k)) as [->|Hne].
  - rewrite Hk, Hidem. rewrite (bool_decide_eq_true_2 (k ∈ k :: _)) by (by left).
    by destruct (bool_decide _).
  - rewrite Hother by done.
    rewrite (bool_decide_ext (k ∈ k1 :: js.*1) (k ∈ js.*1)); [done|].
    rewrite elem_of_cons. split; [intros [Heq|?]; [by subst|done]|by right].
Qed.

Lemma runJob_groups resp :
  (∀ s, gl (runJob ThenGroupList resp s) = groupsAfter resp (gl s)) ∧
  (∀ k' s, k' ≠ ThenGroupList → gl (runJob k' resp s) = gl s) ∧
  (∀ x, groupsAfter resp (groupsAfter resp x) = groupsAfter resp x).
Proof.
  unfold groupsAfter. split; [|split].
  - intros s. simpl. destruct (retcode resp === 0%Z); [|done]. by destruct (data resp).
  - intros k' s Hne. destruct k'; simpl; try done.
    + destruct (retcode resp === 0%Z); [|done]. by destruct (data resp).
  - intros x. destruct (retcode resp === 0%Z); [|done]. by destruct (data resp).
Qed.

Lemma runJob_friends resp :
  (∀ s, fl (runJob ThenFriendList resp s) = friendsAfter resp (fl s)) ∧
  (∀ k' s, k' ≠ ThenFriendList → fl (runJob k' resp s) = fl s) ∧
  (∀ x, friendsAfter resp (friendsAfter resp x) = friendsAfter resp x).
Proof.
  unfold friendsAfter. split; [|split].
  - intros s. simpl. destruct (retcode resp === 0%Z); [|done]. by destruct (data resp).
  - intros k' s Hne. destruct k'; simpl; try done.
    + destruct (retcode resp === 0%Z); [|done]. by destruct (data resp).
  - intros x. destruct (retcode resp === 0%Z); [|done]. by destruct (data resp).
Qed.

Lemma runJob_version resp :
  (∀ s, oneBotVersion (runJob ThenVersionInfo resp s) = versionAfter resp (oneBotVersion s)) ∧
  (∀ k' s, k' ≠ ThenVersionInfo → oneBotVersion (runJob k' resp s) = oneBotVersion s) ∧
  (∀ x, versionAfter resp (versionAfter resp x) = versionAfter resp x).
Proof.
  unfold versionAfter. split; [|split].
  - done.
  - intros k' s Hne. destruct k'; simpl; try done.
    + destruct (retcode resp === 0%Z); [|done]. by destruct (data resp).
    + destruct (retcode resp === 0%Z); [|done]. by destruct (data resp).
  - done.
Qed.

Lemma unresolved_iff c st : resolutionsOf c st = [] ↔ c ∉ r_call <$> resolutions st.
Proof.
  unfold resolutionsOf. split.
  - intros Hnil (r & -> & Hr)%list_elem_of_fmap.
    assert (r ∈ filter (λ r', r_call r' = r_call r) (resolutions st)) as Hin
      by by apply list_elem_of_filter.
    rewrite Hnil in Hin. by apply elem_of_nil in Hin.
  - intros Hno. apply filter_none, Forall_forall. intros r Hr Heq.
    apply Hno. rewrite <- Heq. by apply list_elem_of_fmap_2.
Qed.

(** What the delivery of a response to a pending call leaves in the jobs
    that then run. *)
Lemma delivery_jobs c call resp st :
  coherent st → jobs st = [] →
  pending c st → calls st !! c = Some call → echo resp = newEcho c →
  let s := emitApi (echo resp) resp st in
  Forall (λ j, j.2 = resp) (jobs s) ∧ c_then call ∈ (jobs s).*1 ∧
  gl s = gl st ∧ fl s = fl st ∧ oneBotVersion s = oneBotVersion st.
Proof.
  intros Hco Hj Hpen Hcall Hecho s.
  destruct (emitApi_jobs (echo resp) resp st) as (Hjobs & ? & ? & ?).
  { apply (co_nodup _ Hco). }
  { intros c' Hc'. apply unresolved_iff.
    apply (co_echo _ Hco) in Hc' as Heq. apply (co_pending _ Hco).
    unfold pending. by rewrite <- Heq. }
  subst s. rewrite Hjobs, Hj. simpl. split; [|split; [|done]].
  - apply Forall_forall. intros [k r] (c' & _ & Hsome)%list_elem_of_omap.
    destruct (calls st !! c'); simpl in Hsome; [|done]. by injection Hsome as _ <-.
  - apply list_elem_of_fmap. exists (c_then call, resp). split; [done|].
    apply list_elem_of_omap. exists c. split; [by rewrite Hecho|]. by rewrite Hcall.
Qed.

Lemma step_response resp st :
  deliverable resp →
  step (Message WsApi (JsonResponse resp)) st = drain (emitApi (echo resp) resp st).
Proof.
  intros [He Hr]. unfold step, seq, onSocketMessage, withState.
  assert (onApiMessage (JsonResponse resp) st = emitApi (echo resp) resp st) as Happ.
  { simpl. by rewrite (bool_decide_eq_false_2 _ He), (bool_decide_eq_false_2 _ Hr). }
  destruct (sharedSocket st); [|by rewrite Happ].
  unfold seq. simpl onEventMessage. unfold skip. by rewrite Happ.
Qed.

(** X25. When the response to a refresh arrives, the continuation of the
    refresh runs with it before anything else happens. A successful
    response (result code 0) to [setGroupList] replaces the group directory
    by the directory of the groups it lists, keyed by group id; a failed one
    empties the directory. The same holds of [setFriendList] and the friend
    directory, keyed by user id; and [getVersionInfo] stores the data of a
    successful response and [null] after a failed one. *)
Theorem refresh_follows_response c call resp st :
  reachable st → pending c st → calls st !! c = Some call →
  echo resp = newEcho c → deliverable resp →
  let st' := step (Message WsApi (JsonResponse resp)) st in
  (c_then call = ThenGroupList →
   (∀ l, retcode resp = 0%Z → data resp = DGroups l → gl st' = mapOf gi_group_id l) ∧
   (retcode resp ≠ 0%Z → gl st' = ∅)) ∧
  (c_then call = ThenFriendList →
   (∀ l, retcode resp = 0%Z → data resp = DFriends l → fl st' = mapOf fi_user_id l) ∧
   (retcode resp ≠ 0%Z → fl st' = ∅)) ∧
  (c_then call = ThenVersionInfo →
   (retcode resp = 0%Z → oneBotVersion st' = data resp) ∧
   (retcode resp ≠ 0%Z → oneBotVersion st' = DNull)).
Proof.
  intros Hre Hpen Hcall Hecho Hdel st'.
  assert (coherent st) as Hco.
  { destruct Hre as (e & a & t & ins & ->). apply reachable_coherent. }
  pose proof (reachable_jobs st Hre) as Hj.
  destruct (delivery_jobs c call resp st Hco Hj Hpen Hcall Hecho) as (Hall & Hin & Hgl & Hfl & Hv).
  subst st'. rewrite (step_response resp st Hdel). unfold drain.
  set (s := emitApi (echo resp) resp st) in *.
  destruct (runJob_groups resp) as (G1 & G2 & G3).
  destruct (runJob_friends resp) as (F1 & F2 & F3).
  destruct (runJob_version resp) as (V1 & V2 & V3).
  split; [|split]; intros Hk; rewrite Hk in Hin.
  - rewrite (foldl_runJob_field gl _ ThenGroupList resp _ _ G1 G2 G3 Hall).
    rewrite (bool_decide_eq_true_2 _ Hin).
    change (gl (set_jobs [] s)) with (gl s). rewrite Hgl. unfold groupsAfter. split.
    + intros l Hr Hd. by rewrite (bool_decide_eq_true_2 _ Hr), Hd.
    + intros Hr. by rewrite (bool_decide_eq_false_2 _ Hr).
  - rewrite (foldl_runJob_field fl _ ThenFriendList resp _ _ F1 F2 F3 Hall).
    rewrite (bool_decide_eq_true_2 _ Hin).
    change (fl (set_jobs [] s)) with (fl s). rewrite Hfl. unfold friendsAfter. split.
    + intros l Hr Hd. by rewrite (bool_decide_eq_true_2 _ Hr), Hd.
    + intros Hr. by rewrite (bool_decide_eq_false_2 _ Hr).
  - rewrite (foldl_runJob_field oneBotVersion _ ThenVersionInfo resp _ _ V1 V2 V3 Hall).
    rewrite (bool_decide_eq_true_2 _ Hin).
    change (oneBotVersion (set_jobs [] s)) with (oneBotVersion s).
    rewrite Hv. unfold versionAfter. split.
    + intros Hr. by rewrite (bool_decide_eq_true_2 _ Hr).
    + intros Hr. by rewrite (bool_decide_eq_false_2 _ Hr).
Qed.

(** ** A refresh made while the client is offline *)

Lemma fetchApi_offline_job action params k st :
  online st = false → length (calls st) ∉ r_call <$> resolutions st →
  let s := fetchApi_ action params k st in
  jobs s = jobs st ++ [(k, notLogin (newEcho (length (calls st))))] ∧
  gl s = gl st ∧ fl s = fl st ∧ oneBotVersion s = oneBotVersion st.
Proof.
  intros Hon Hfresh s. subst s. unfold fetchApi_, fetchApi.
  change (online (set_calls _ st)) with (online st). rewrite Hon.
  cbn [negb snd]. unfold resolve.
  rewrite settled_false by exact Hfresh.
  cbn [negb calls set_resolutions set_calls].
  rewrite list_lookup_middle by done. by cbn.
Qed.

Lemma failed_response_empties e :
  (∀ m, groupsAfter (notLogin e) m = ∅) ∧ (∀ m, friendsAfter (notLogin e) m = ∅) ∧
  (∀ v, versionAfter (notLogin e) v = DNull).
Proof. by repeat split. Qed.

Lemma drain_one k resp st :
  jobs st = [(k, resp)] → drain st = runJob k resp (set_jobs [] st).
Proof. intros Hj. unfold drain. by rewrite Hj. Qed.

Lemma emitData_inert event ref st :
  jobs (emitData event ref st) = jobs st ∧ fl (emitData event ref st) = fl st.
Proof.
  unfold emitData, withState.
  by destruct (emit_shape event (thisData ref st) st) as (em & items & ->).
Qed.

Lemma reachable_fresh st :
  reachable st → length (calls st) ∉ r_call <$> resolutions st.
Proof.
  intros (e & a & t & ins & ->). apply unresolved_iff.
  eapply co_fresh; [apply reachable_coherent|done].
Qed.

(** X26. A refresh made while the client is offline is answered on the
    spot with the [Not_Login] response, so its continuation empties what it
    refreshes: [setGroupList] leaves an empty group directory,
    [setFriendList] an empty friend directory, and [getVersionInfo] no
    version. In particular a [friend_add] notice that arrives while the
    client is offline empties the friend directory. *)
Theorem refresh_while_offline_empties st :
  reachable st → online st = false →
  gl ((setGroupList ;; drain) st) = ∅ ∧
  fl ((setFriendList ;; drain) st) = ∅ ∧
  oneBotVersion ((getVersionInfo ;; drain) st) = DNull ∧
  (∀ d, post_type d = "notice" → notice_type d = "friend_add" →
        fl (step (Message WsEvent (JsonEvent d)) st) = ∅).
Proof.
  intros Hre Hon.
  pose proof (reachable_jobs st Hre) as Hj.
  pose proof (reachable_fresh st Hre) as Hfresh.
  destruct (failed_response_empties (newEcho (length (calls st)))) as (HG & HF & HV).
  split; [|split; [|split]].
  - unfold seq, setGroupList.
    destruct (fetchApi_offline_job "get_group_list" ParamsUndefined ThenGroupList st Hon Hfresh)
      as (Hjobs & _). rewrite Hj in Hjobs.
    rewrite (drain_one _ _ _ Hjobs).
    destruct (runJob_groups (notLogin (newEcho (length (calls st))))) as (-> & _). apply HG.
  - unfold seq, setFriendList.
    destruct (fetchApi_offline_job "get_friend_list" ParamsUndefined ThenFriendList st Hon Hfresh)
      as (Hjobs & _). rewrite Hj in Hjobs.
    rewrite (drain_one _ _ _ Hjobs).
    destruct (runJob_friends (notLogin (newEcho (length (calls st))))) as (-> & _). apply HF.
  - unfold seq, getVersionInfo.
    destruct (fetchApi_offline_job "get_version_info" ParamsUndefined ThenVersionInfo st Hon Hfresh)
      as (Hjobs & _). rewrite Hj in Hjobs.
    rewrite (drain_one _ _ _ Hjobs).
    destruct (runJob_version (notLogin (newEcho (length (calls st))))) as (-> & _). apply HV.
  - intros d Hp Hn.
    assert (step (Message WsEvent (JsonEvent d)) st = drain (onEventMessage (JsonEvent d) st))
      as ->.
    { unfold step, seq, onSocketMessage, withState. by destruct (sharedSocket st). }
    rewrite (friend_add_handler d st Hp Hn).
    set (s0 := set_objects (objects st ++ [d]) st).
    destruct (fetchApi_offline_job "get_friend_list" ParamsUndefined ThenFriendList s0 Hon Hfresh)
      as (Hjobs & _). fold setFriendList in Hjobs.
    change (jobs s0) with (jobs st) in Hjobs. rewrite Hj in Hjobs.
    set (s1 := setFriendList s0) in *.
    destruct (emitData_inert "notice.friend.add" (length (objects st)) s1) as [Hj1 _].
    set (s2 := emitData "notice.friend.add" (length (objects st)) s1) in *.
    destruct (emitData_inert "notice" (length (objects st)) s2) as [Hj2 _].
    rewrite Hj1, Hjobs in Hj2.
    rewrite (drain_one _ _ _ Hj2).
    destruct (runJob_friends (notLogin (newEcho (length (calls st))))) as (-> & _).
    change (length (calls s0)) with (length (calls st)). apply HF.
Qed.

(** ** Timers and pending calls *)

(** X27. In every state that a client can reach, the timers and the
    pending calls match: a call has a timer exactly while its listener is in
    the correlation table, and it has at most one; a listener is filed
    under the identifier of its call, at most once; a pending call has not
    been resolved; and no timer is overdue, since a timer runs in the
    millisecond of its deadline. So no timer and no table entry is left
    behind by a call that has been resolved. *)
Theorem timers_match_pending_calls eventTarget apiTarget fetchTimeout ins :
  let st := run ins (BaseClient eventTarget apiTarget fetchTimeout) in
  (∀ c, c ∈ t_call <$> timers st ↔ pending c st) ∧
  NoDup (t_call <$> timers st) ∧
  (∀ e c, c ∈ apiListeners e st → e = newEcho c) ∧
  (∀ e, NoDup (apiListeners e st)) ∧
  (∀ c, pending c st → resolutionsOf c st = []) ∧
  (∀ t, t ∈ timers st → (now st < t_deadline t)%Z).
Proof.
  intros st.
  destruct (reachable_coherent eventTarget apiTarget fetchTimeout ins) as [Hco Hp].
  fold st in Hco, Hp.
  split; [apply (co_active _ Hco)|]. split; [apply (co_timers _ Hco)|].
  split; [apply (co_echo _ Hco)|]. split; [apply (co_nodup _ Hco)|].
  split; [|exact Hp]. intros c Hc. by apply (co_pending _ Hco).
Qed.

End Directory.

(** * The singleton and the log line of a send *)

Section Misc.

(** X28. [getInstance] makes the client once. While there is no instance,
    a call constructs one from its arguments and keeps it, unless the event
    target is missing or empty, the API target is missing, or the timeout
    is missing or 0: then it throws [Invalid parameter] and there is still
    no instance. An empty API target is accepted. Once there is an
    instance, every call returns it, whatever its arguments, and never
    throws. *)
Theorem getInstance_makes_one_client eventTarget apiTarget fetchTimeout :
  let valid :=
    ∃ e a t, eventTarget = Some e ∧ apiTarget = Some a ∧ fetchTimeout = Some t ∧
             e ≠ "" ∧ t ≠ 0%Z in
  (∀ st, getInstance eventTarget apiTarget fetchTimeout (Some st) = (inr st, Some st)) ∧
  (∀ e a t, eventTarget = Some e → apiTarget = Some a → fetchTimeout = Some t →
            e ≠ "" → t ≠ 0%Z →
            getInstance eventTarget apiTarget fetchTimeout None =
              (inr (BaseClient e a t), Some (BaseClient e a t))) ∧
  (¬ valid →
   getInstance eventTarget apiTarget fetchTimeout None =
     (inl (Error "Invalid parameter"), None)) ∧
  (∀ eventTarget' apiTarget' fetchTimeout' st,
     (getInstance eventTarget apiTarget fetchTimeout None).1 = inr st →
     getInstance eventTarget' apiTarget' fetchTimeout'
       (getInstance eventTarget apiTarget fetchTimeout None).2 = (inr st, Some st)).
Proof.
  intros valid. split; [done|]. split; [|split].
  - intros e a t -> -> -> He Ht. simpl.
    by rewrite (bool_decide_eq_false_2 _ He), (bool_decide_eq_false_2 _ Ht).
  - intros Hno. unfold getInstance.
    destruct eventTarget as [e|], apiTarget as [a|], fetchTimeout as [t|]; try done.
    destruct (decide (e = "")) as [He|He]; [by rewrite (bool_decide_eq_true_2 _ He)|].
    destruct (decide (t = 0%Z)) as [Ht|Ht].
    { rewrite (bool_decide_eq_true_2 _ Ht). by rewrite orb_true_r. }
    exfalso. apply Hno. by exists e, a, t.
  - intros e' a' t' st. unfold getInstance.
    destruct eventTarget as [e|], apiTarget as [a|], fetchTimeout as [t|]; try done.
    destruct ((e === "") || (t === 0%Z)); [done|].
    simpl. by intros [= <-].
Qed.

(** X29. [getMessageLogger] reads any message in which nothing is [null]
    or [undefined] and every element object has its [data], and throws a
    [TypeError] on any other; nothing else is ever thrown. An array reads as
    the concatenation of what its items read as, so what two arrays read as
    is put together when the arrays are, and an array within an array reads
    as if its items stood in the outer array. *)
Theorem getMessageLogger_reads_well_formed_messages :
  (∀ m, wellFormed m = true → ∃ v, getMessageLogger inherited m = inr v) ∧
  (∀ m, wellFormed m = false → getMessageLogger inherited m = inl TypeError) ∧
  (∀ l1 l2 s1 s2,
     getMessageLogger inherited (SArray l1) = inr (Some s1) →
     getMessageLogger inherited (SArray l2) = inr (Some s2) →
     getMessageLogger inherited (SArray (l1 ++ l2)) = inr (Some (s1 +:+ s2))) ∧
  (∀ l1 l l2,
     getMessageLogger inherited (SArray (l1 ++ SArray l :: l2)) =
       getMessageLogger inherited (SArray (l1 ++ l ++ l2))).
Proof.
  split; [intros m; apply getMessageLogger_well_formed|].
  split; [intros m; apply getMessageLogger_well_formed|].
  split.
  - intros l1 l2 s1 s2. cbn [getMessageLogger].
    destruct (joinEach _ l1) as [|r1] eqn:H1; [done|].
    destruct (joinEach _ l2) as [|r2] eqn:H2; [done|].
    intros [= <-] [= <-]. by rewrite (joinEach_app _ l1 l2 r1 r2 H1 H2).
  - intros l1 l l2. cbn [getMessageLogger]. f_equal.
    assert (∀ rest : list Sendable,
              joinEach (getMessageLogger inherited) (SArray l :: rest) =
                joinEach (getMessageLogger inherited) (l ++ rest)) as Hflat.
    { intros rest. cbn [joinEach getMessageLogger].
      induction l as [|x l IH]; simpl.
      - by destruct (joinEach _ rest).
      - destruct (getMessageLogger inherited x) as [e|v]; [done|].
        revert IH. cbn [joinEach].
        destruct (joinEach (getMessageLogger inherited) l) as [e|s]; simpl.
        + by intros <-.
        + intros <-. destruct (joinEach _ rest); simpl; [done|].
          by rewrite append_assoc. }
    assert (∀ (a b : list Sendable),
              joinEach (getMessageLogger inherited) a = joinEach (getMessageLogger inherited) b →
              joinEach (getMessageLogger inherited) (l1 ++ a) =
                joinEach (getMessageLogger inherited) (l1 ++ b)) as Hpre.
    { intros a b Hab. induction l1 as [|x l1 IH]; simpl; [done|]. by rewrite IH. }
    by rewrite (Hpre _ _ (Hflat l2)).
Qed.

(** X30. [printSendLogger] logs nothing, and cannot fail, for every action
    other than [send_msg], [send_private_msg] and [send_group_msg]. For
    these three it logs one line when the message can be read and throws a
    [TypeError] when it cannot; so it throws when the parameters are left
    out, as [fetchApi] would then before sending anything. *)
Theorem printSendLogger_logs_sends_only action params :
  (action ∉ ["send_msg"; "send_private_msg"; "send_group_msg"] →
   printSendLogger inherited action params = inr None) ∧
  (action ∈ ["send_msg"; "send_private_msg"; "send_group_msg"] →
   (wellFormed (sp_message params) = true →
    ∃ line, printSendLogger inherited action params = inr (Some line)) ∧
   (wellFormed (sp_message params) = false →
    printSendLogger inherited action params = inl TypeError) ∧
   printSendLogger inherited action noParams = inl TypeError).
Proof.
  split.
  - rewrite !not_elem_of_cons. intros (H1 & H2 & H3 & _).
    unfold printSendLogger.
    by rewrite (bool_decide_eq_false_2 _ H1), (bool_decide_eq_false_2 _ H2),
      (bool_decide_eq_false_2 _ H3).
  - intros Hin.
    pose proof (printSendLogger_logged action Hin) as Hline.
    split; [|split].
    + intros Hwf. destruct (Hline params) as (target & _ & ->).
      destruct (getMessageLogger_well_formed (sp_message params)) as [Hok _].
      destruct (Hok Hwf) as [v ->]. by eexists.
    + intros Hwf. destruct (Hline params) as (target & _ & ->).
      destruct (getMessageLogger_well_formed (sp_message params)) as [_ Hbad].
      by rewrite (Hbad Hwf).
    + by destruct (Hline noParams) as (target & _ & ->).
Qed.

End Misc.

End WithEnvironment.

(** * The theorems at concrete inputs *)

Lemma sampleEcho_inj n m : sampleEcho n = sampleEcho m → n = m.
Proof.
  revert m. induction n as [|n IH]; intros [|m]; simpl; try done.
  - destruct m; discriminate.
  - destruct n; discriminate.
  - intros [= Heq]. f_equal. by apply IH.
Qed.

Lemma once_listener_fires_once_witness :
  let st := on "e" 2 (BaseClient "" "" 1) in
  Forall (λ item, listener item ≠ 1) (listenersOf "e" st) ∧
  fired "e" 1 (emits "e" [PNull; PNull; PNull] (once "e" 1 st)) = 1.
Proof.
  assert (Hfresh : Forall (λ item, listener item ≠ 1)
                     (listenersOf "e" (on "e" 2 (BaseClient "" "" 1)))).
  { vm_compute. repeat constructor. done. }
  split; [exact Hfresh|].
  destruct (once_listener_fires_once "e" 1 _ [PNull; PNull; PNull] Hfresh)
    as (_ & _ & Hexact).
  apply Hexact; [vm_compute; repeat constructor|done].
Defined.

Lemma heartbeat_transition_witness :
  let d := heartbeatFrame true in
  let st := BaseClient "127.0.0.1:6700" "" 10000 in
  let st' := onEventMessage sampleEcho (λ _, []) (λ _, None) (λ _, None) (JsonEvent d) st in
  post_type d = "meta_event" ∧ meta_event_type d = "heartbeat" ∧
  online st' = true ∧
  published st' = [("system.online", PData 0 d); ("system", PData 0 d)].
Proof.
  split; [reflexivity|]. split; [reflexivity|].
  destruct (heartbeat_transition sampleEcho (λ _, []) (λ _, None) (λ _, None)
              (heartbeatFrame true)
              (BaseClient "127.0.0.1:6700" "" 10000) eq_refl eq_refl) as (Hon & Hpub & _).
  split; [exact Hon|exact Hpub].
Defined.

Lemma group_increase_publishes_witness :
  let d := eventOf "notice" "" "" "group_increase" false 0 in
  let st := BaseClient "127.0.0.1:6700" "" 10000 in
  let st' := onEventMessage sampleEcho (λ _, []) (λ _, None) (λ _, None) (JsonEvent d) st in
  post_type d = "notice" ∧ notice_type d = "group_increase" ∧
  published st' =
    [("notice.group.increase", PData 0 d); ("notice.group.increase", PData 0 d);
     ("notice.group", PData 0 d); ("notice", PData 0 d)].
Proof.
  split; [reflexivity|]. split; [reflexivity|].
  exact (proj1 (group_increase_publishes sampleEcho (λ _, []) (λ _, None) (λ _, None)
                  (eventOf "notice" "" "" "group_increase" false 0)
                  (BaseClient "127.0.0.1:6700" "" 10000) eq_refl eq_refl)).
Defined.

Lemma group_message_publishes_witness :
  let d := eventOf "message" "" "normal" "" false 2 in
  let st := BaseClient "127.0.0.1:6700" "" 10000 in
  let st' := onEventMessage sampleEcho (λ _, []) (λ _, None) (λ _, None) (JsonEvent d) st in
  post_type d = "message" ∧ sub_type d = "normal" ∧
  ∃ d', published st' =
          [("message.group.normal", PData 0 d'); ("message.group", PData 0 d');
           ("message", PData 0 d')] ∧
        reply d' = Some (ReplyGroup 0).
Proof.
  split; [reflexivity|]. split; [reflexivity|].
  destruct (group_message_publishes sampleEcho (λ _, []) (λ _, None) (λ _, None)
              (eventOf "message" "" "normal" "" false 2)
              (BaseClient "127.0.0.1:6700" "" 10000) eq_refl eq_refl)
    as (d' & Hpub & _ & _ & Hreply & _).
  exists d'. split; [exact Hpub|exact Hreply].
Defined.

Lemma fetchApi_offline_rejects_witness :
  let st := BaseClient "127.0.0.1:6700" "" 10000 in
  online st = false ∧
  (fetchApi sampleEcho (λ _, None) "get_status" ParamsUndefined ThenCaller st).1 = inr 0 ∧
  resolutions (fetchApi sampleEcho (λ _, None) "get_status" ParamsUndefined ThenCaller st).2 =
    [{| r_call := 0; r_time := 0; r_data := notLogin "a" |}] ∧
  sent (fetchApi sampleEcho (λ _, None) "get_status" ParamsUndefined ThenCaller st).2 = [].
Proof.
  split; [reflexivity|].
  destruct (fetchApi_offline_rejects sampleEcho (λ _, None) "get_status" ParamsUndefined
              ThenCaller (BaseClient "127.0.0.1:6700" "" 10000) eq_refl)
    as (Hret & Hres & Hsent & _).
  split; [exact Hret|]. split; [exact Hres|exact Hsent].
Defined.

(** C1, as stated, fails: a [send_group_msg] made online without its
    parameters throws before anything is sent, so there is no timer and no
    promise, and nothing has been resolved when the window has passed. *)
Lemma send_without_message_is_not_resolved :
  ¬ (∀ pre post action params,
       let run := run sampleEcho (λ _, []) (λ s, s) (λ _, None) (λ _, None) in
       let st0 := run pre (BaseClient "127.0.0.1:6700" "" 3) in
       let st := run post (step sampleEcho (λ _, []) (λ s, s) (λ _, None) (λ _, None)
                             (FetchApi action params) st0) in
       let c := length (calls st0) in
       online st0 = true →
       (now st0 + timerDelay (fetchTimeout st0) ≤ now st)%Z →
       length (resolutionsOf c st) = 1).
Proof.
  intros H.
  specialize (H [Message WsEvent (JsonEvent (heartbeatFrame true))] [Tick; Tick; Tick]
                "send_group_msg" ParamsUndefined).
  cbv zeta in H.
  specialize (H ltac:(vm_compute; reflexivity) ltac:(vm_compute; discriminate)).
  vm_compute in H. discriminate H.
Qed.

Lemma fetchApi_resolves_once_witness :
  let run := run sampleEcho (λ _, []) (λ s, s) (λ _, None) (λ _, None) in
  let st0 := run [Message WsEvent (JsonEvent (heartbeatFrame true))]
               (BaseClient "127.0.0.1:6700" "" 3) in
  let post := [Tick; Message WsApi (JsonResponse (responseTo "aaaa" 0)); Tick; Tick; Tick] in
  let st := run post (step sampleEcho (λ _, []) (λ s, s) (λ _, None) (λ _, None)
      (FetchApi "get_status" ParamsUndefined) st0) in
  online st0 = true ∧ length (resolutionsOf 3 st) = 1.
Proof.
  split; [vm_compute; reflexivity|].
  destruct (fetchApi_resolves_once sampleEcho (λ _, []) (λ s, s) (λ _, None) (λ _, None)
              "127.0.0.1:6700" "" 3 [Message WsEvent (JsonEvent (heartbeatFrame true))]
              [Tick; Message WsApi (JsonResponse (responseTo "aaaa" 0)); Tick; Tick; Tick]
              "get_status" ParamsUndefined) as (_ & _ & Hcall).
  { vm_compute; reflexivity. }
  destruct Hcall as (_ & _ & _ & _ & _ & Hframe); [vm_compute; reflexivity|].
  apply (Hframe (responseTo "aaaa" 0)).
  - apply elem_of_cons. right. apply elem_of_cons. by left.
  - vm_compute; reflexivity.
  - split; vm_compute; discriminate.
Defined.

(** C3, as stated, fails: with a window of 3000000000 ms configured, above
    what a timer takes, a call that no frame answers is resolved after 1 ms,
    not after the window. *)
Lemma timeout_window_is_clamped :
  ¬ (∀ fetchTimeout0 pre post action params,
       let run := run sampleEcho (λ _, []) (λ s, s) (λ _, None) (λ _, None) in
       let st0 := run pre (BaseClient "127.0.0.1:6700" "" fetchTimeout0) in
       let st := run post (step sampleEcho (λ _, []) (λ s, s) (λ _, None) (λ _, None)
                             (FetchApi action params) st0) in
       let c := length (calls st0) in
       let deadline := (now st0 + fetchTimeout st0)%Z in
       online st0 = true →
       Forall (λ i, ¬ answers sampleEcho c i) post →
       resolutionsOf c st =
         if bool_decide (deadline ≤ now st)%Z
         then [{| r_call := c; r_time := deadline;
                  r_data := requestTimeout action (sampleEcho c) |}]
         else []).
Proof.
  intros H.
  specialize (H 3000000000%Z [Message WsEvent (JsonEvent (heartbeatFrame true))] [Tick]
                "get_status" ParamsUndefined).
  cbv zeta in H.
  assert (Forall (λ i, ¬ answers sampleEcho 3 i) [Tick]) as Hok.
  { repeat constructor; intros (? & ? & ? & _); discriminate. }
  specialize (H ltac:(vm_compute; reflexivity) Hok).
  vm_compute in H. discriminate H.
Qed.

Lemma fetchApi_times_out_witness :
  let run := run sampleEcho (λ _, []) (λ s, s) (λ _, None) (λ _, None) in
  let st0 := run [Message WsEvent (JsonEvent (heartbeatFrame true))]
               (BaseClient "127.0.0.1:6700" "" 3) in
  let post := [Tick; SetFetchTimeout 1; Tick; Tick; Tick] in
  let st := run post
              (step sampleEcho (λ _, []) (λ s, s) (λ _, None) (λ _, None)
                 (FetchApi "get_status" ParamsUndefined) st0) in
  online st0 = true ∧
  (fetchApi sampleEcho (λ _, None) "get_status" ParamsUndefined ThenCaller st0).1 = inr 3 ∧
  (∀ c', sampleEcho c' = sampleEcho 3 → c' = 3) ∧
  Forall (λ i, ¬ answers sampleEcho 3 i) post ∧
  resolutionsOf 3 st =
    [{| r_call := 3; r_time := 3; r_data := requestTimeout "get_status" "aaaa" |}].
Proof.
  assert (Hok : Forall (λ i, ¬ answers sampleEcho 3 i)
                  [Tick; SetFetchTimeout 1; Tick; Tick; Tick]).
  { repeat constructor; intros (? & ? & ? & _); discriminate. }
  split; [vm_compute; reflexivity|]. split; [vm_compute; reflexivity|].
  split; [exact (λ c', sampleEcho_inj c' 3)|]. split; [exact Hok|].
  destruct (fetchApi_times_out sampleEcho (λ _, []) (λ s, s) (λ _, None) (λ _, None)
              "127.0.0.1:6700" "" 3 [Message WsEvent (JsonEvent (heartbeatFrame true))]
              [Tick; SetFetchTimeout 1; Tick; Tick; Tick]
              "get_status" ParamsUndefined) as (Hres & _).
  { vm_compute; reflexivity. }
  { vm_compute; reflexivity. }
  { exact (λ c', sampleEcho_inj c' 3). }
  { exact Hok. }
  vm_compute in Hres |- *. exact Hres.
Defined.


(** * The further theorems at concrete inputs *)

Lemma emit_reaches_persistent_listeners_witness :
  let st := on "e" 2 (on "e" 1 sampleClient) in
  Forall (λ item, once_flag item = false) (listenersOf "e" st) ∧
  delivered (emit "e" PNull st) =
    [mkDelivery "e" PNull {| listener := 1; once_flag := false |};
     mkDelivery "e" PNull {| listener := 2; once_flag := false |}] ∧
  eventMap (emit "e" PNull st) = eventMap st.
Proof.
  assert (Hall : Forall (λ item, once_flag item = false)
                   (listenersOf "e" (on "e" 2 (on "e" 1 sampleClient)))).
  { vm_compute. by repeat constructor. }
  split; [exact Hall|].
  rewrite (emit_reaches_persistent_listeners "e" PNull _ Hall).
  split; [vm_compute; reflexivity|reflexivity].
Defined.

Lemma online_changes_on_heartbeat_or_close_witness :
  ¬ mayChangeOnline (Close WsApi) twoSocketClient ∧
  online (step sampleEcho (λ _, []) (λ s, s) (λ _, None) (λ _, None) (Close WsApi)
      twoSocketClient) =
    online twoSocketClient.
Proof.
  assert (Hno : ¬ mayChangeOnline (Close WsApi) twoSocketClient).
  { intros [H|H]; discriminate. }
  split; [exact Hno|].
  exact (online_changes_on_heartbeat_or_close sampleEcho (λ _, []) (λ s, s) (λ _, None)
           (λ _, None)
           (Close WsApi) twoSocketClient Hno).
Defined.

Lemma sockets_change_on_command_only_witness :
  ¬ socketCommand (Close WsEvent) ∧
  wsOps (step sampleEcho (λ _, []) (λ s, s) (λ _, None) (λ _, None) (Close WsEvent)
           sampleClient) =
    wsOps sampleClient.
Proof.
  assert (Hno : ¬ socketCommand (Close WsEvent)).
  { intros [H|[H|H]]; discriminate. }
  split; [exact Hno|].
  exact (sockets_change_on_command_only sampleEcho (λ _, []) (λ s, s) (λ _, None) (λ _, None)
           (Close WsEvent) sampleClient Hno).
Defined.

Lemma ignored_frames_change_nothing_witness :
  let late := JsonResponse (responseTo "zz" 0) in
  reachable sampleEcho (λ _, []) (λ s, s) (λ _, None) (λ _, None) sampleClient ∧
  ignored WsApi late sampleClient ∧
  step sampleEcho (λ _, []) (λ s, s) (λ _, None) (λ _, None) (Message WsApi late) sampleClient =
    sampleClient.
Proof.
  assert (Hre : reachable sampleEcho (λ _, []) (λ s, s) (λ _, None) (λ _, None) sampleClient).
  { by exists "127.0.0.1:6700", "", 10000%Z, []. }
  assert (Hig : ignored WsApi (JsonResponse (responseTo "zz" 0)) sampleClient).
  { right. right. right. reflexivity. }
  split; [exact Hre|]. split; [exact Hig|].
  exact (ignored_frames_change_nothing _ _ _ _ _ WsApi _ sampleClient Hre Hig).
Defined.

Lemma private_message_publishes_witness :
  let d := eventOf "message" "" "friend" "" false 2 in
  let st' := onEventMessage sampleEcho (λ _, []) (λ _, None) (λ _, None) (JsonEvent d)
      sampleClient in
  post_type d = "message" ∧ (sub_type d = "friend" ∨ sub_type d = "group") ∧
  ∃ d', published st' =
          [("message.private.friend", PData 0 d'); ("message.private", PData 0 d');
           ("message", PData 0 d')] ∧
        reply d' = Some (ReplyPrivate 0).
Proof.
  split; [reflexivity|]. split; [by left|].
  destruct (private_message_publishes sampleEcho (λ _, []) (λ _, None) (λ _, None)
              (eventOf "message" "" "friend" "" false 2) sampleClient eq_refl
              (or_introl eq_refl))
    as (d' & Hpub & _ & Hreply & _).
  exists d'. split; [exact Hpub|exact Hreply].
Defined.

Lemma anonymous_message_publishes_witness :
  let d := eventOf "message" "" "anonymous" "" false 2 in
  let st' := onEventMessage sampleEcho (λ _, []) (λ _, None) (λ _, None) (JsonEvent d)
      sampleClient in
  post_type d = "message" ∧ sub_type d = "anonymous" ∧
  ∃ d', published st' =
          [("message.group.anonymous", PData 0 d'); ("message.group", PData 0 d');
           ("message", PData 0 d')] ∧
        ban d' = Some (Ban 0).
Proof.
  split; [reflexivity|]. split; [reflexivity|].
  destruct (anonymous_message_publishes sampleEcho (λ _, []) (λ _, None) (λ _, None)
              (eventOf "message" "" "anonymous" "" false 2) sampleClient eq_refl eq_refl)
    as (d' & Hpub & _ & _ & _ & _ & Hban & _).
  exists d'. split; [exact Hpub|exact Hban].
Defined.

Lemma other_message_publishes_witness :
  let d := eventOf "message" "" "group_self" "" false 2 in
  let st' := onEventMessage sampleEcho (λ _, []) (λ _, None) (λ _, None) (JsonEvent d)
      sampleClient in
  post_type d = "message" ∧
  (sub_type d ∉ ["friend"; "group"; "normal"; "anonymous"]) ∧
  ∃ d', published st' = [("message", PData 0 d')] ∧ reply d' = None.
Proof.
  assert (Hs : sub_type (eventOf "message" "" "group_self" "" false 2)
                 ∉ ["friend"; "group"; "normal"; "anonymous"]).
  { rewrite !not_elem_of_cons. repeat split; try discriminate. apply not_elem_of_nil. }
  split; [reflexivity|]. split; [exact Hs|].
  destruct (other_message_publishes sampleEcho (λ _, []) (λ _, None) (λ _, None)
              (eventOf "message" "" "group_self" "" false 2) sampleClient eq_refl Hs)
    as (d' & Hpub & _ & Hreply & _).
  exists d'. split; [exact Hpub|exact Hreply].
Defined.

Lemma message_frame_sets_atMe_witness :
  let d := eventOf "message" "" "normal" "" false 2 in
  let st' := onEventMessage sampleEcho (λ _, []) (λ _, None) (λ _, None) (JsonEvent d)
      sampleClient in
  post_type d = "message" ∧
  ∃ d', objects st' !! 0 = Some d' ∧ message d' = MsgElems [] ∧ atMe d' = Some false.
Proof.
  split; [reflexivity|].
  destruct (message_frame_sets_atMe sampleEcho (λ _, []) (λ _, None) (λ _, None)
              (eventOf "message" "" "normal" "" false 2) sampleClient eq_refl)
    as (d' & b & _ & Hobj & Hmsg & Hat & Hb).
  exists d'. split; [exact Hobj|]. split; [exact Hmsg|].
  destruct b; [|exact Hat].
  destruct (proj1 Hb eq_refl) as (el & Hel & _). by apply elem_of_nil in Hel.
Defined.

Lemma meta_event_publishes_witness :
  let d := eventOf "meta_event" "lifecycle" "" "" false 0 in
  let st' := onEventMessage sampleEcho (λ _, []) (λ _, None) (λ _, None) (JsonEvent d)
      sampleClient in
  post_type d = "meta_event" ∧ meta_event_type d ≠ "heartbeat" ∧
  published st' = [("system.lifecycle", PData 0 d); ("system", PData 0 d)].
Proof.
  assert (Hm : meta_event_type (eventOf "meta_event" "lifecycle" "" "" false 0) ≠ "heartbeat")
    by discriminate.
  split; [reflexivity|]. split; [exact Hm|].
  exact (proj1 (meta_event_publishes sampleEcho (λ _, []) (λ _, None) (λ _, None)
                  (eventOf "meta_event" "lifecycle" "" "" false 0) sampleClient eq_refl Hm)).
Defined.

Lemma friend_notice_publishes_witness :
  let d := eventOf "notice" "" "" "friend_add" false 2 in
  let st' := onEventMessage sampleEcho (λ _, []) (λ _, None) (λ _, None) (JsonEvent d)
      sampleClient in
  post_type d = "notice" ∧ notice_type d = noticeName "friend" "add" ∧
  "add" ∈ ["add"; "recall"] ∧
  published st' = [("notice.friend.add", PData 0 d); ("notice", PData 0 d)] ∧
  calls st' = [{| c_action := "get_friend_list"; c_then := ThenFriendList |}].
Proof.
  assert (Hk : "add" ∈ ["add"; "recall"]) by by left.
  split; [reflexivity|]. split; [reflexivity|]. split; [exact Hk|].
  exact (friend_notice_publishes sampleEcho (λ _, []) (λ _, None) (λ _, None)
           (eventOf "notice" "" "" "friend_add" false 2) "add" sampleClient
           eq_refl eq_refl Hk).
Defined.

Lemma group_decrease_publishes_witness :
  let d := eventOf "notice" "" "kick_me" "group_decrease" false 2 in
  let st' := onEventMessage sampleEcho (λ _, []) (λ _, None) (λ _, None) (JsonEvent d)
      sampleClient in
  post_type d = "notice" ∧ notice_type d = "group_decrease" ∧
  published st' =
    [("notice.group.decrease", PData 0 d); ("notice.group", PData 0 d);
     ("notice", PData 0 d)] ∧
  calls st' = [{| c_action := "get_group_list"; c_then := ThenGroupList |}].
Proof.
  split; [reflexivity|]. split; [reflexivity|].
  exact (group_decrease_publishes sampleEcho (λ _, []) (λ _, None) (λ _, None)
           (eventOf "notice" "" "kick_me" "group_decrease" false 2) sampleClient
           eq_refl eq_refl).
Defined.

Lemma group_notice_publishes_witness :
  let d := eventOf "notice" "" "" "group_ban" false 2 in
  let st' := onEventMessage sampleEcho (λ _, []) (λ _, None) (λ _, None) (JsonEvent d)
      sampleClient in
  post_type d = "notice" ∧ notice_type d = noticeName "group" "ban" ∧
  "ban" ∈ ["recall"; "admin"; "upload"; "ban"] ∧
  published st' =
    [("notice.group.ban", PData 0 d); ("notice.group", PData 0 d); ("notice", PData 0 d)].
Proof.
  assert (Hk : "ban" ∈ ["recall"; "admin"; "upload"; "ban"]).
  { do 3 right. by left. }
  split; [reflexivity|]. split; [reflexivity|]. split; [exact Hk|].
  exact (proj1 (group_notice_publishes sampleEcho (λ _, []) (λ _, None) (λ _, None)
                  (eventOf "notice" "" "" "group_ban" false 2) "ban" sampleClient
                  eq_refl eq_refl Hk)).
Defined.

Lemma notify_publishes_witness :
  let d := eventOf "notice" "" "poke" "notify" false 2 in
  let st' := onEventMessage sampleEcho (λ _, []) (λ _, None) (λ _, None) (JsonEvent d)
      sampleClient in
  post_type d = "notice" ∧ notice_type d = "notify" ∧
  published st' =
    [("notice.group.poke", PData 0 d); ("notice.group", PData 0 d); ("notice", PData 0 d)].
Proof.
  split; [reflexivity|]. split; [reflexivity|].
  exact (proj1 (notify_publishes sampleEcho (λ _, []) (λ _, None) (λ _, None)
                  (eventOf "notice" "" "poke" "notify" false 2) sampleClient
                  eq_refl eq_refl)).
Defined.

Lemma unknown_notice_publishes_witness :
  let d := eventOf "notice" "" "" "essence" false 2 in
  let st' := onEventMessage sampleEcho (λ _, []) (λ _, None) (λ _, None) (JsonEvent d)
      sampleClient in
  post_type d = "notice" ∧
  (notice_type d ∉ ["friend_add"; "friend_recall"; "group_recall"; "group_increase";
                    "group_decrease"; "group_admin"; "group_upload"; "group_ban"; "notify"]) ∧
  published st' = [("notice.group", PData 0 d); ("notice", PData 0 d)].
Proof.
  assert (Hn : notice_type (eventOf "notice" "" "" "essence" false 2)
                 ∉ ["friend_add"; "friend_recall"; "group_recall"; "group_increase";
                    "group_decrease"; "group_admin"; "group_upload"; "group_ban"; "notify"]).
  { rewrite !not_elem_of_cons. repeat split; try discriminate. apply not_elem_of_nil. }
  split; [reflexivity|]. split; [exact Hn|].
  exact (proj1 (unknown_notice_publishes sampleEcho (λ _, []) (λ _, None) (λ _, None)
                  (eventOf "notice" "" "" "essence" false 2) sampleClient eq_refl Hn)).
Defined.

Lemma request_publishes_witness :
  let d := eventOf "request" "" "" "" false 2 in
  let st' := onEventMessage sampleEcho (λ _, []) (λ _, None) (λ _, None) (JsonEvent d)
      sampleClient in
  post_type d = "request" ∧
  ∃ d', published st' = [("request", PData 0 d')] ∧ approve d' = None.
Proof.
  split; [reflexivity|].
  destruct (request_publishes sampleEcho (λ _, []) (λ _, None) (λ _, None)
              (eventOf "request" "" "" "" false 2) sampleClient eq_refl)
    as (d' & Hpub & _ & Happ & _).
  exists d'. split; [exact Hpub|exact Happ].
Defined.

Lemma unknown_frame_is_dropped_witness :
  let d := eventOf "message_sent" "" "" "" false 2 in
  let st' := onEventMessage sampleEcho (λ _, []) (λ _, None) (λ _, None) (JsonEvent d)
      sampleClient in
  (post_type d ∉ ["meta_event"; "message"; "notice"; "request"]) ∧
  published st' = [] ∧ delivered st' = [].
Proof.
  assert (Hp : post_type (eventOf "message_sent" "" "" "" false 2)
                 ∉ ["meta_event"; "message"; "notice"; "request"]).
  { rewrite !not_elem_of_cons. repeat split; try discriminate. apply not_elem_of_nil. }
  split; [exact Hp|].
  destruct (unknown_frame_is_dropped sampleEcho (λ _, []) (λ _, None) (λ _, None)
              (eventOf "message_sent" "" "" "" false 2) sampleClient Hp)
    as (Hpub & Hdl & _).
  split; [exact Hpub|exact Hdl].
Defined.

Lemma group_message_closures_witness :
  let d := eventOf "message" "" "normal" "" false 2 in
  let step := step sampleEcho (λ _, []) (λ s, s) (λ _, None) (λ _, None) in
  let st1 := onEventMessage sampleEcho (λ _, []) (λ _, None) (λ _, None) (JsonEvent d)
      sampleClient in
  let st2 := step (Message WsEvent (JsonEvent (heartbeatFrame true))) st1 in
  post_type d = "message" ∧ (sub_type d = "normal" ∨ sub_type d = "anonymous") ∧
  online st2 = true ∧
  ∃ d' r, objects st1 !! 0 = Some d' ∧ reply d' = Some r ∧
          sent (callClosure sampleEcho (λ s, s) (λ _, None) r (Content "hello" None) st2) =
            sent st2 ++
            [{| rq_action := ".handle_quick_operation";
                rq_params := ParamsQuick 0 (OpReplyAt "hello" true);
                rq_echo := sampleEcho (length (calls st2)) |}].
Proof.
  split; [reflexivity|]. split; [by left|]. split; [vm_compute; reflexivity|].
  destruct (group_message_closures sampleEcho (λ _, []) (λ s, s) (λ _, None) (λ _, None)
              (eventOf "message" "" "normal" "" false 2) sampleClient eq_refl
              (or_introl eq_refl))
    as (d' & r & rc & k & b & Hobj & Hr & _ & _ & _ & Hcall).
  exists d', r. split; [exact Hobj|]. split; [exact Hr|].
  refine (proj1 (Hcall _ _) "hello" None). vm_compute; reflexivity.
Defined.

Lemma private_reply_and_approve_closures_witness :
  let d := eventOf "message" "" "friend" "" false 2 in
  let st1 := onEventMessage sampleEcho (λ _, []) (λ _, None) (λ _, None) (JsonEvent d)
      sampleClient in
  ((post_type d = "message" ∧ (sub_type d = "friend" ∨ sub_type d = "group")) ∨
   (post_type d = "request" ∧ (request_type d = "friend" ∨ request_type d = "group"))) ∧
  ∃ d' cl, objects st1 !! 0 = Some d' ∧ reply d' = Some cl.
Proof.
  assert (Hcase :
    (post_type (eventOf "message" "" "friend" "" false 2) = "message" ∧
     (sub_type (eventOf "message" "" "friend" "" false 2) = "friend" ∨
      sub_type (eventOf "message" "" "friend" "" false 2) = "group")) ∨
    (post_type (eventOf "message" "" "friend" "" false 2) = "request" ∧
     (request_type (eventOf "message" "" "friend" "" false 2) = "friend" ∨
      request_type (eventOf "message" "" "friend" "" false 2) = "group"))).
  { left. split; [reflexivity|by left]. }
  split; [exact Hcase|].
  destruct (private_reply_and_approve_closures sampleEcho (λ _, []) (λ s, s) (λ _, None)
              (λ _, None)
              (eventOf "message" "" "friend" "" false 2) sampleClient Hcase)
    as (d' & cl & Hobj & Hcl & _).
  exists d', cl. split; [exact Hobj|exact Hcl].
Defined.

Lemma refresh_follows_response_witness :
  let run := run sampleEcho (λ _, []) (λ s, s) (λ _, None) (λ _, None) in
  let st := run [Message WsEvent (JsonEvent (heartbeatFrame true))] sampleClient in
  let call := {| c_action := "get_group_list"; c_then := ThenGroupList |} in
  let resp := groupsResponse (sampleEcho 1) in
  reachable sampleEcho (λ _, []) (λ s, s) (λ _, None) (λ _, None) st ∧
  pending sampleEcho 1 st ∧ calls st !! 1 = Some call ∧
  echo resp = sampleEcho 1 ∧ deliverable resp ∧
  gl (step sampleEcho (λ _, []) (λ s, s) (λ _, None) (λ _, None)
      (Message WsApi (JsonResponse resp)) st) =
    mapOf gi_group_id [sampleGroup].
Proof.
  assert (Hre : reachable sampleEcho (λ _, []) (λ s, s) (λ _, None) (λ _, None)
                  (run sampleEcho (λ _, []) (λ s, s) (λ _, None) (λ _, None)
                     [Message WsEvent (JsonEvent (heartbeatFrame true))] sampleClient)).
  { by exists "127.0.0.1:6700", "", 10000%Z,
      [Message WsEvent (JsonEvent (heartbeatFrame true))]. }
  assert (Hpen : pending sampleEcho 1
                   (run sampleEcho (λ _, []) (λ s, s) (λ _, None) (λ _, None)
                      [Message WsEvent (JsonEvent (heartbeatFrame true))] sampleClient)).
  { vm_compute. by constructor. }
  assert (Hdel : deliverable (groupsResponse (sampleEcho 1))).
  { split; vm_compute; discriminate. }
  split; [exact Hre|]. split; [exact Hpen|]. split; [vm_compute; reflexivity|].
  split; [reflexivity|]. split; [exact Hdel|].
  destruct (refresh_follows_response sampleEcho (λ _, []) (λ s, s) (λ _, None) (λ _, None) 1
              {| c_action := "get_group_list"; c_then := ThenGroupList |}
              (groupsResponse (sampleEcho 1)) _ Hre Hpen eq_refl eq_refl Hdel)
    as [Hgroups _].
  destruct (Hgroups eq_refl) as [Hok _].
  exact (Hok [sampleGroup] eq_refl eq_refl).
Defined.

Lemma refresh_while_offline_empties_witness :
  let d := eventOf "notice" "" "" "friend_add" false 2 in
  reachable sampleEcho (λ _, []) (λ s, s) (λ _, None) (λ _, None) sampleClient ∧
  online sampleClient = false ∧
  fl (step sampleEcho (λ _, []) (λ s, s) (λ _, None) (λ _, None) (Message WsEvent (JsonEvent d))
        sampleClient) = ∅.
Proof.
  assert (Hre : reachable sampleEcho (λ _, []) (λ s, s) (λ _, None) (λ _, None) sampleClient).
  { by exists "127.0.0.1:6700", "", 10000%Z, []. }
  split; [exact Hre|]. split; [reflexivity|].
  destruct (refresh_while_offline_empties sampleEcho (λ _, []) (λ s, s) (λ _, None) (λ _, None)
              sampleClient Hre eq_refl) as (_ & _ & _ & Hframe).
  exact (Hframe (eventOf "notice" "" "" "friend_add" false 2) eq_refl eq_refl).
Defined.

Lemma connect_after_setTarget_on_one_socket_witness :
  let run := run sampleEcho (λ _, []) (λ s, s) (λ _, None) (λ _, None) in
  let st := run [SetTarget "127.0.0.1:6700" "127.0.0.1:6701"] sampleClient in
  "127.0.0.1:6701" ≠ "" ∧ "127.0.0.1:6701" ≠ "127.0.0.1:6700" ∧
  wsOps (step sampleEcho (λ _, []) (λ s, s) (λ _, None) (λ _, None) Connect st) =
    [WsConnect "wsEvent" "ws://127.0.0.1:6700"; WsConnect "wsEvent" "ws://127.0.0.1:6701"].
Proof.
  assert (Ha : "127.0.0.1:6701" ≠ "") by discriminate.
  assert (He : "127.0.0.1:6701" ≠ "127.0.0.1:6700") by discriminate.
  split; [exact Ha|]. split; [exact He|].
  exact (proj1 (connect_after_setTarget_on_one_socket sampleEcho (λ _, []) (λ s, s)
                  (λ _, None) (λ _, None) "127.0.0.1:6700" 10000 "127.0.0.1:6700" "127.0.0.1:6701"
                  [] [] Ha He (Forall_nil_2 _))).
Defined.
